(** * huffmin: the Huffman codec of backend/internal/huffman/huffman.go

    A shallow embedding of the Go package [huffman] (frequency table,
    priority queue on [container/heap], tree construction, code table,
    bit packer, container framing, decoder) and the properties of its
    two entry points, [HuffmanCompress] and [HuffmanDecompress].

    Conventions of the embedding:
    - a Go [byte] is a [Byte.byte]; a [[]byte] is a [list byte];
    - Go's [int] is taken to be 64 bits wide (amd64/arm64); its additions
      are written with their wrap-around ([wrap_int]); [uint8], [uint16],
      [uint32] and [uint64] conversions are written as [Z.modulo];
    - a [*Node] is [Nil] or a [mkNode] (the trees are never shared or
      mutated after construction);
    - a [map[byte]int] is a [gmap byte Z]; the order in which a [range]
      statement visits a map is not specified by Go and changes from one
      loop to the next, so every function that ranges over a map takes
      the enumeration as a parameter (a [MapRange]);
    - a call returns a value, returns an [error], or panics ([result]). *)

From Stdlib Require Import ZArith Lia List Strings.Byte Ascii String Sorted.
From stdpp Require Import gmap strings list fin_maps.

Local Open Scope Z_scope.

(** ** Results of a call *)

(** The [fmt.Errorf] sites of the package, and the error of [os.ReadFile]. *)
Inductive error : Type :=
| ReadFileError            (* os.ReadFile failed *)
| EmptyFile                (* "cannot compress empty file" *)
| ReadHeaderEntriesFailed  (* "read header entries failed: ..." *)
| ReadHeaderByteFailed     (* "read header byte failed: ..." *)
| ReadHeaderFreqFailed     (* "read header freq failed: ..." *)
| ReadBitLengthFailed      (* "read bit length failed: ..." *)
| InvalidTree.             (* "invalid tree" *)

(** Run-time panics of the Go runtime that the package can raise. *)
Inductive panic : Type :=
| IndexOutOfRange
| NilDereference.

Inductive result (A : Type) : Type :=
| Ret (a : A)
| Err (e : error)
| Panic (p : panic)
| OutOfFuel.
Arguments Ret {A} a.
Arguments Err {A} e.
Arguments Panic {A} p.
Arguments OutOfFuel {A}.

#[global] Instance result_ret : MRet result := @Ret.
#[global] Instance result_bind : MBind result := λ A B f m,
  match m with
  | Ret a => f a
  | Err e => Err e
  | Panic p => Panic p
  | OutOfFuel => OutOfFuel
  end.

Definition is_panic {A} (r : result A) : bool :=
  match r with Panic _ => true | _ => false end.

(** The errors the specification calls a framing error: a header field
    could not be read in full. *)
Definition FramingError (e : error) : bool :=
  match e with
  | ReadHeaderEntriesFailed | ReadHeaderByteFailed
  | ReadHeaderFreqFailed | ReadBitLengthFailed => true
  | _ => false
  end.

(** ** Bytes and machine integers *)

#[global] Instance byte_eq_dec : EqDecision byte.
Proof.
  intros a b. destruct (Byte.eqb a b) eqn:E.
  - left. apply Byte.byte_dec_bl. exact E.
  - right. intros ->. rewrite Byte.byte_dec_lb in E; congruence.
Defined.

#[global] Program Instance byte_countable : Countable byte :=
  inj_countable Byte.to_N Byte.of_N _.
Next Obligation. intros b. apply Byte.of_to_N. Qed.

Definition byte_to_Z (b : byte) : Z := Z.of_N (Byte.to_N b).

Definition byte_of_Z (z : Z) : byte :=
  match Byte.of_N (Z.to_N (z mod 256)) with
  | Some b => b
  | None => x00
  end.

(** Go [int] (64 bits, two's complement). *)
Definition wrap_int (z : Z) : Z := (z + 2 ^ 63) mod 2 ^ 64 - 2 ^ 63.
Definition wrap_u8 (z : Z) : Z := z mod 2 ^ 8.
Definition wrap_u16 (z : Z) : Z := z mod 2 ^ 16.
Definition wrap_u32 (z : Z) : Z := z mod 2 ^ 32.
Definition wrap_u64 (z : Z) : Z := z mod 2 ^ 64.

(** [encoding/binary], little endian: [n] bytes of [z], least significant
    first, and back. *)
Fixpoint le_bytes (n : nat) (z : Z) : list byte :=
  match n with
  | O => []
  | S n => byte_of_Z z :: le_bytes n (z / 256)
  end.

Fixpoint le_value (bs : list byte) : Z :=
  match bs with
  | [] => 0
  | b :: bs => byte_to_Z b + 256 * le_value bs
  end.

(** [binary.Read(r, binary.LittleEndian, &v)] on a [bytes.Reader] whose
    unread part is [r], for an unsigned [v] of [n] bytes: the value and the
    rest, or [None] when fewer than [n] bytes are left ([io.EOF] or
    [io.ErrUnexpectedEOF]). *)
Definition binary_Read (n : nat) (r : list byte) : option (Z * list byte) :=
  if (length r <? n)%nat then None
  else Some (le_value (take n r), drop n r).

(** ** The tree *)

(** [type Node struct { Char byte; Freq int; MinChar byte; Left, Right *Node }];
    a value of this type stands for a [*Node]. *)
Inductive Node : Type :=
| Nil
| mkNode (Char : byte) (Freq : Z) (MinChar : byte) (Left Right : Node).

Definition is_nil (n : Node) : bool :=
  match n with Nil => true | _ => false end.

(** Field selectors through a pointer: a nil pointer panics. *)
Definition Char (n : Node) : result byte :=
  match n with Nil => Panic NilDereference | mkNode c _ _ _ _ => Ret c end.
Definition Freq (n : Node) : result Z :=
  match n with Nil => Panic NilDereference | mkNode _ f _ _ _ => Ret f end.
Definition MinChar (n : Node) : result byte :=
  match n with Nil => Panic NilDereference | mkNode _ _ m _ _ => Ret m end.
Definition Left (n : Node) : result Node :=
  match n with Nil => Panic NilDereference | mkNode _ _ _ l _ => Ret l end.
Definition Right (n : Node) : result Node :=
  match n with Nil => Panic NilDereference | mkNode _ _ _ _ r => Ret r end.

(** ** The priority queue

    [type PriorityQueue []*Node] is [list Node]; its methods are in the
    module [PriorityQueue]. *)

(** [pq[i]] *)
Definition index {A} (s : list A) (i : nat) : result A :=
  match s !! i with
  | Some x => Ret x
  | None => Panic IndexOutOfRange
  end.

Module PriorityQueue.

Definition Len (pq : list Node) : nat := length pq.

Definition Less (pq : list Node) (i j : nat) : result bool :=
  a ← index pq i; fa ← Freq a;
  b ← index pq j; fb ← Freq b;
  if negb (fa =? fb) then Ret (fa <? fb)
  else
    ma ← MinChar a; mb ← MinChar b;
    Ret (byte_to_Z ma <? byte_to_Z mb).

Definition Swap (pq : list Node) (i j : nat) : result (list Node) :=
  a ← index pq j; b ← index pq i;
  Ret (<[j := b]> (<[i := a]> pq)).

Definition Push (pq : list Node) (x : Node) : list Node :=
  pq ++ [x].

Definition Pop (pq : list Node) : result (Node * list Node) :=
  let old := pq in
  let n := length old in
  if (n =? 0)%nat then Panic IndexOutOfRange   (* old[-1] *)
  else
    item ← index old (n - 1);
    Ret (item, take (n - 1) old).

End PriorityQueue.

(** ** container/heap, instantiated at the priority queue

    The five functions of Go's [container/heap] that the package calls,
    after the source of the library.

    Indices are [nat]: the Go code only forms indices in [0, n], except
    [(j - 1) / 2] at [j = 0], which Go evaluates to [0] (division truncates
    toward zero) as does [(0 - 1) / 2] on [nat], and [n/2 - 1] in [Init] and
    [h.Len() - 1] in [Pop], which are treated where they occur; the test
    [j1 < 0] of [down] (overflow of [2*i + 1]) is left out, [i] being below
    the length of a list. The loops of [up] and [down] run on fuel;
    [up_spec] and [down_spec] below show that the fuel given by the callers
    is never used up. *)
Module heap.

Fixpoint up (fuel : nat) (h : list Node) (j : nat) : result (list Node) :=
  let i := ((j - 1) / 2)%nat in   (* parent *)
  if (i =? j)%nat then Ret h
  else
    lt ← PriorityQueue.Less h j i;
    if negb lt then Ret h
    else
      match fuel with
      | O => OutOfFuel
      | S fuel => h ← PriorityQueue.Swap h i j; up fuel h i
      end.

(** [down] returns [i > i0]; no caller in this program reads it. *)
Fixpoint down (fuel : nat) (h : list Node) (i n : nat) : result (list Node) :=
  let j1 := (2 * i + 1)%nat in
  if (n <=? j1)%nat then Ret h
  else
    lt21 ← (if (j1 + 1 <? n)%nat then PriorityQueue.Less h (j1 + 1) j1 else Ret false);
    let j := if lt21 : bool then (j1 + 1)%nat else j1 in
    lt ← PriorityQueue.Less h j i;
    if negb lt then Ret h
    else
      match fuel with
      | O => OutOfFuel
      | S fuel => h ← PriorityQueue.Swap h i j; down fuel h j n
      end.

(** [for i := n/2 - 1; i >= 0; i-- { down(h, i, n) }], with [k = i + 1]. *)
Fixpoint init_loop (k : nat) (h : list Node) (n : nat) : result (list Node) :=
  match k with
  | O => Ret h
  | S i => h ← down n h i n; init_loop i h n
  end.

Definition Init (h : list Node) : result (list Node) :=
  let n := PriorityQueue.Len h in
  init_loop (n / 2) h n.

Definition Push (h : list Node) (x : Node) : result (list Node) :=
  let h := PriorityQueue.Push h x in
  up (PriorityQueue.Len h - 1) h (PriorityQueue.Len h - 1).

(** On an empty queue [n] is [-1] in Go and [Swap(0, -1)] panics; here
    [n] is [0] and [Swap] panics on the empty list all the same. *)
Definition Pop (h : list Node) : result (Node * list Node) :=
  let n := (PriorityQueue.Len h - 1)%nat in
  h ← PriorityQueue.Swap h 0 n;
  h ← down n h 0 n;
  PriorityQueue.Pop h.

End heap.

(** ** Ranging over a map *)

(** The sequence of entries a [for b, f := range freq] loop visits. *)
Definition MapRange : Type := gmap byte Z → list (byte * Z).

(** Go visits every entry of the map once, in an order of its choice. *)
Definition range_ok (rng : MapRange) : Prop :=
  ∀ m, rng m ≡ₚ map_to_list m.

(** ** The codec *)

(** [freq[b]++] on every byte of [data]; a missing key reads as 0. *)
Definition buildFrequencyTable (data : list byte) : gmap byte Z :=
  foldl (λ freq b, <[b := wrap_int (default 0 (freq !! b) + 1)]> freq) ∅ data.

(** The loop [for pq.Len() > 1 { ... }] of [buildHuffmanTree]. *)
Fixpoint merge_loop (fuel : nat) (pq : list Node) : result (list Node) :=
  if (PriorityQueue.Len pq <=? 1)%nat then Ret pq
  else
    match fuel with
    | O => OutOfFuel
    | S fuel =>
        '(left', pq) ← heap.Pop pq;
        '(right', pq) ← heap.Pop pq;
        lm ← MinChar left';
        rm ← MinChar right';
        let minChar := if byte_to_Z rm <? byte_to_Z lm then rm else lm in
        lf ← Freq left';
        rf ← Freq right';
        let merged := mkNode x00 (wrap_int (lf + rf)) minChar left' right' in
        pq ← heap.Push pq merged;
        merge_loop fuel pq
    end.

(** The loop [for b, f := range freq { heap.Push(pq, &Node{...}) }]. *)
Fixpoint push_leaves (entries : list (byte * Z)) (pq : list Node) : result (list Node) :=
  match entries with
  | [] => Ret pq
  | (b, f) :: entries =>
      pq ← heap.Push pq (mkNode b f b Nil Nil);
      push_leaves entries pq
  end.

Definition buildHuffmanTree (rng : MapRange) (freq : gmap byte Z) : result Node :=
  if (size freq =? 0)%nat then Ret Nil
  else
    pq ← heap.Init [];
    pq ← push_leaves (rng freq) pq;
    pq ← merge_loop (PriorityQueue.Len pq) pq;
    '(root, _) ← heap.Pop pq;
    Ret root.

(** [generateCodes]; the map it updates in place is threaded through. *)
Fixpoint generateCodes (root : Node) (prefix : string) (codeMap : gmap byte string)
  : gmap byte string :=
  match root with
  | Nil => codeMap
  | mkNode c _ _ Nil Nil => <[c := prefix]> codeMap
  | mkNode _ _ _ l r =>
      let codeMap := generateCodes l (prefix +:+ "0") codeMap in
      generateCodes r (prefix +:+ "1") codeMap
  end.

(** The local variables of [encodeDataWithCount]. *)
Record encoder : Type := mkEncoder {
  buf : list byte;      (* bytes.Buffer *)
  bitBuf : Z;           (* byte *)
  bitCount : Z;         (* uint8 *)
  totalBits : Z         (* int *)
}.

(** The body of [for _, bit := range code]. The codes are made of the
    characters '0' and '1', so that the runes of [code] are its bytes. *)
Definition encode_bit (e : encoder) (bit : ascii) : encoder :=
  let bitBuf :=
    if Ascii.eqb bit "1"
    then Z.lor (bitBuf e) (wrap_u8 (Z.shiftl 1 (wrap_u8 (7 - bitCount e))))
    else bitBuf e in
  let bitCount := wrap_u8 (bitCount e + 1) in
  let totalBits := wrap_int (totalBits e + 1) in
  if bitCount =? 8
  then mkEncoder (buf e ++ [byte_of_Z bitBuf]) 0 0 totalBits
  else mkEncoder (buf e) bitBuf bitCount totalBits.

(** The body of [for _, b := range data]; a missing key reads as [""]. *)
Definition encode_byte (codeMap : gmap byte string) (e : encoder) (b : byte) : encoder :=
  let code := default EmptyString (codeMap !! b) in
  foldl encode_bit e (list_ascii_of_string code).

(** [encodeDataWithCount]; its error result is always [nil]. *)
Definition encodeDataWithCount (data : list byte) (codeMap : gmap byte string)
  : list byte * Z :=
  let e := foldl (encode_byte codeMap) (mkEncoder [] 0 0 0) data in
  let out := if 0 <? bitCount e then buf e ++ [byte_of_Z (bitBuf e)] else buf e in
  (out, totalBits e).

(** [writeHeader]; writes to a [bytes.Buffer] do not fail, the error
    result is always [nil]. *)
Definition writeHeader (rng : MapRange) (freq : gmap byte Z) : list byte :=
  le_bytes 2 (wrap_u16 (Z.of_nat (size freq)))
  ++ concat (map (λ '(b, f), b :: le_bytes 4 (wrap_u32 f)) (rng freq)).

(** [os.ReadFile]: the content of the file, or an error. *)
Definition FileSystem : Type := string → option (list byte).

(** [HuffmanCompress]; [rngT] is the order of the [range] loop of
    [buildHuffmanTree] and [rngH] that of [writeHeader]. *)
Definition HuffmanCompress (fs : FileSystem) (rngT rngH : MapRange) (filePath : string)
  : result (list byte) :=
  match fs filePath with
  | None => Err ReadFileError
  | Some data =>
      if (length data =? 0)%nat then Err EmptyFile
      else
        let freqTable := buildFrequencyTable data in
        root ← buildHuffmanTree rngT freqTable;
        let codeMap := generateCodes root EmptyString ∅ in
        let '(encoded, totalBits) := encodeDataWithCount data codeMap in
        let head := writeHeader rngH freqTable in
        Ret (head ++ le_bytes 8 (wrap_u64 totalBits) ++ encoded)
  end.

(** The loop [for i := 0; i < int(numEntries); i++] of [HuffmanDecompress],
    with [n] iterations to go, on the unread part [r] of the blob. *)
Fixpoint read_entries (n : nat) (freq : gmap byte Z) (r : list byte)
  : result (gmap byte Z * list byte) :=
  match n with
  | O => Ret (freq, r)
  | S n =>
      match r with
      | [] => Err ReadHeaderByteFailed
      | b :: r =>
          match binary_Read 4 r with
          | None => Err ReadHeaderFreqFailed
          | Some (count, r) => read_entries n (<[b := count]> freq) r
          end
      end
  end.

(** One iteration of [for j := 0; j < 8 && bitsRead < totalBits; j++] and
    the ones after it, [k = 8 - j] at most. *)
Fixpoint decode_bits (k : nat) (j : Z) (root node : Node) (bitsRead totalBits : Z)
    (out : list byte) (byteVal : byte) {struct k} : result (Node * Z * list byte) :=
  match k with
  | O => Ret (node, bitsRead, out)
  | S k =>
      if bitsRead <? totalBits then
        let bitsRead := wrap_u64 (bitsRead + 1) in
        node ← (if Z.land (Z.shiftr (byte_to_Z byteVal) (7 - j)) 1 =? 0
                then Left node else Right node);
        l ← Left node;
        r ← Right node;
        '(node, out) ← (if is_nil l && is_nil r
                        then c ← Char node; Ret (root, out ++ [c])
                        else Ret (node, out));
        decode_bits k (j + 1) root node bitsRead totalBits out byteVal
      else Ret (node, bitsRead, out)
  end.

(** The whole loop [for j := 0; j < 8 && bitsRead < totalBits; j++]. *)
Definition decode_byte (root node : Node) (bitsRead totalBits : Z)
    (out : list byte) (byteVal : byte) : result (Node * Z * list byte) :=
  decode_bits 8 0 root node bitsRead totalBits out byteVal.

(** The loop [for i := 0; bitsRead < totalBits; i++], on [bitData[i:]]. *)
Fixpoint decode_loop (root node : Node) (bitsRead totalBits : Z)
    (out : list byte) (bitData : list byte) {struct bitData} : result (list byte) :=
  if bitsRead <? totalBits then
    match bitData with
    | [] => Panic IndexOutOfRange
    | byteVal :: bitData =>
        '(node, bitsRead, out) ←
          decode_byte root node bitsRead totalBits out byteVal;
        decode_loop root node bitsRead totalBits out bitData
    end
  else Ret out.

(** The first part of [HuffmanDecompress]: the entry count and the
    entries, up to the frequency map; the unread part of the blob is
    returned with it. *)
Definition read_header (blob : list byte) : result (gmap byte Z * list byte) :=
  match binary_Read 2 blob with
  | None => Err ReadHeaderEntriesFailed
  | Some (numEntries, r) => read_entries (Z.to_nat numEntries) ∅ r
  end.

(** [HuffmanDecompress]; [rng] is the order of the [range] loop of
    [buildHuffmanTree]. [io.ReadAll] on a [bytes.Reader] does not fail. *)
Definition HuffmanDecompress (rng : MapRange) (blob : list byte) : result (list byte) :=
  '(freq, r) ← read_header blob;
  match binary_Read 8 r with
  | None => Err ReadBitLengthFailed
  | Some (totalBits, r) =>
      root ← buildHuffmanTree rng freq;
      if is_nil root then Err InvalidTree
      else
        let bitData := r in
        decode_loop root root 0 totalBits [] bitData
  end.

(** * Definitions used by the statements and the proofs *)

(** The key [Less] compares: frequency, then smallest symbol. *)
Definition key (n : Node) : Z * Z :=
  match n with
  | Nil => (0, 0)
  | mkNode _ f m _ _ => (f, byte_to_Z m)
  end.

Definition lessb (a b : Node) : bool :=
  if negb ((key a).1 =? (key b).1) then (key a).1 <? (key b).1
  else (key a).2 <? (key b).2.

Definition no_nil (h : list Node) : Prop := Forall (λ n, is_nil n = false) h.

Definition swap (h : list Node) (i j : nat) : list Node :=
  match h !! j, h !! i with
  | Some a, Some b => <[j := b]> (<[i := a]> h)
  | _, _ => h
  end.

(** [c] is a child of [p] in the implicit binary tree of the array. *)
Definition edge (p c : nat) : Prop := c = (2 * p + 1)%nat ∨ c = (2 * p + 2)%nat.

Definition le_at (h : list Node) (p c : nat) : Prop :=
  ∀ a b, h !! p = Some a → h !! c = Some b → lessb b a = false.

Definition heap_upto (n : nat) (h : list Node) : Prop :=
  ∀ p c, (c < n)%nat → edge p c → le_at h p c.

Definition is_heap (h : list Node) : Prop := heap_upto (length h) h.

(** The heap order holds but for the element at [j], which may be too small. *)
Definition up_inv (h : list Node) (j : nat) : Prop :=
  (∀ p c, edge p c → c ≠ j → le_at h p c) ∧
  (∀ g c, edge g j → edge j c → le_at h g c).

(** The heap order holds but for the element at [i], which may be too large. *)
Definition down_inv (n : nat) (h : list Node) (i : nat) : Prop :=
  (∀ p c, (c < n)%nat → edge p c → p ≠ i → le_at h p c) ∧
  (∀ g c, (c < n)%nat → edge g i → edge i c → le_at h g c).

(** The trees [buildHuffmanTree] builds: a leaf has no child and its
    [MinChar] is its [Char]; any other node has two children. *)
Inductive wf_tree : Node → Prop :=
| wf_leaf c f : wf_tree (mkNode c f c Nil Nil)
| wf_internal c f m l r : wf_tree l → wf_tree r → wf_tree (mkNode c f m l r).

(** The symbols at the leaves, left to right. *)
Fixpoint leaves (t : Node) : list byte :=
  match t with
  | Nil => []
  | mkNode c _ _ Nil Nil => [c]
  | mkNode _ _ _ l r => leaves l ++ leaves r
  end.

Definition min_char (t : Node) : byte :=
  match t with Nil => x00 | mkNode _ _ m _ _ => m end.

(** What holds of the queue all along [buildHuffmanTree]. *)
Definition queue_ok (pq : list Node) : Prop :=
  Forall wf_tree pq ∧ Forall (λ t, min_char t ∈ leaves t) pq ∧
  NoDup (flat_map leaves pq).

Definition leaf_of (e : byte * Z) : Node := mkNode e.1 e.2 e.1 Nil Nil.

(** The leaves of a tree with the branch labels from the root to each. *)
Fixpoint paths (t : Node) : list (byte * string) :=
  match t with
  | Nil => []
  | mkNode c _ _ Nil Nil => [(c, EmptyString)]
  | mkNode _ _ _ l r =>
      map (λ e, (e.1, String "0" e.2)) (paths l)
      ++ map (λ e, (e.1, String "1" e.2)) (paths r)
  end.

(** Bit [j] of a byte, counted from the most significant one, as the
    decoder tests it. *)
Definition byte_bit (v : byte) (j : Z) : bool :=
  negb (Z.land (Z.shiftr (byte_to_Z v) (7 - j)) 1 =? 0).

Fixpoint bits_from (v : byte) (j : Z) (k : nat) : list bool :=
  match k with
  | O => []
  | S k => byte_bit v j :: bits_from v (j + 1) k
  end.

Definition byte_bits (v : byte) : list bool := bits_from v 0 8.

(** The bits of a packed section, in the order the decoder reads them. *)
Definition unpack (bs : list byte) : list bool := flat_map byte_bits bs.

(** One step of the tree walk on one bit. *)
Definition step (root node : Node) (b : bool) (out : list byte)
  : result (Node * list byte) :=
  node ← (if b then Right node else Left node);
  l ← Left node;
  r ← Right node;
  if is_nil l && is_nil r
  then c ← Char node; Ret (root, out ++ [c])
  else Ret (node, out).

Fixpoint walk (root node : Node) (bits : list bool) (out : list byte)
  : result (Node * list byte) :=
  match bits with
  | [] => Ret (node, out)
  | b :: bits => '(node, out) ← step root node b out; walk root node bits out
  end.

(** The bits the encoder emits for a code. *)
Definition bits_of_string (s : string) : list bool :=
  map (λ a, Ascii.eqb a "1") (list_ascii_of_string s).

Definition code_of (codeMap : gmap byte string) (b : byte) : string :=
  default EmptyString (codeMap !! b).

(** All the bits of the encoding of [data]. *)
Definition all_bits (codeMap : gmap byte string) (data : list byte) : list bool :=
  flat_map (λ b, bits_of_string (code_of codeMap b)) data.

(** The state of the encoder after the bits [full ++ tail]: the bytes
    written hold [full], the accumulator holds [tail]. *)
Definition enc_inv (e : encoder) (full tail : list bool) : Prop :=
  unpack (buf e) = full ∧
  bitCount e = Z.of_nat (length tail) ∧ (length tail < 8)%nat ∧
  (∀ j, (j < 8)%nat → Z.testbit (bitBuf e) (7 - Z.of_nat j) = nth j tail false) ∧
  totalBits e = Z.of_nat (length full + length tail).

(** How many times [b] occurs in [data]. *)
Definition occurrences (data : list byte) (b : byte) : nat :=
  count_occ byte_eq_dec data b.

(** Every value of type [byte]. *)
Definition all_bytes : list byte := map (λ n, byte_of_Z (Z.of_nat n)) (seq 0 256).

(** One entry of the header. *)
Definition entry_bytes (e : byte * Z) : list byte := e.1 :: le_bytes 4 (wrap_u32 e.2).

(** Two orders in which Go may range over a map. *)
Definition range_fwd : MapRange := map_to_list.
Definition range_bwd : MapRange := λ m, reverse (map_to_list m).

(** A file system with one file, whatever the path. *)
Definition one_file (data : list byte) : FileSystem := λ _, Some data.

(** Test data. *)
Definition sample : list byte := list_byte_of_string "aaaaabbbbcccdde".

(** [HuffmanCompress] of [sample], its entries in the order of [range_fwd]. *)
Definition sample_blob : list byte :=
  [x05; x00;
   x62; x04; x00; x00; x00;  x64; x02; x00; x00; x00;  x65; x01; x00; x00; x00;
   x61; x05; x00; x00; x00;  x63; x03; x00; x00; x00;
   x21; x00; x00; x00; x00; x00; x00; x00;
   xff; xea; x80; x6d; x00].

(** Compressing a file and decompressing the blob. *)
Definition round_trip (rngT rngH rngD : MapRange) (data : list byte)
  : result (list byte) :=
  blob ← HuffmanCompress (one_file data) rngT rngH "in";
  HuffmanDecompress rngD blob.

(** The number of bytes past which a count does not fit the header. *)
Definition big_count : nat := Z.to_nat (2 ^ 32).

(** The sum of the counts of a table. *)
Definition table_total (freq : gmap byte Z) : Z :=
  foldr Z.add 0 (map_to_list freq).*2.

(** [heap.Pop] called [n] times, the popped nodes in the order they come. *)
Fixpoint pop_all (n : nat) (h : list Node) : result (list Node * list Node) :=
  match n with
  | O => Ret ([], h)
  | S n =>
      '(x, h) ← heap.Pop h;
      '(out, h) ← pop_all n h;
      Ret (x :: out, h)
  end.

(** [b] is not before [a] in the order of [Less]. *)
Definition not_after (a b : Node) : Prop :=
  PriorityQueue.Less [a; b] 1 0 = Ret false.

Definition freq_of (t : Node) : Z :=
  match t with Nil => 0 | mkNode _ f _ _ _ => f end.

(** The smaller of the MinChars of the two popped nodes, as the loop of
    [buildHuffmanTree] picks it. *)
Definition min_byte (lm rm : byte) : byte :=
  if byte_to_Z rm <? byte_to_Z lm then rm else lm.

(** The trees [buildHuffmanTree] makes: leaves as the first loop makes
    them, internal nodes as the second loop makes them. *)
Inductive built : Node → Prop :=
| built_leaf b f : built (mkNode b f b Nil Nil)
| built_merged l r :
    built l → built r →
    built (mkNode x00 (wrap_int (freq_of l + freq_of r))
             (min_byte (min_char l) (min_char r)) l r).

(** The (symbol, count) pairs at the leaves, left to right. *)
Fixpoint leaf_entries (t : Node) : list (byte * Z) :=
  match t with
  | Nil => []
  | mkNode c f _ Nil Nil => [(c, f)]
  | mkNode _ _ _ l r => leaf_entries l ++ leaf_entries r
  end.

(** The sum of the lengths of the codes of the bytes of [data]; a byte
    without a code counts for nothing, as in [encodeDataWithCount]. *)
Definition code_lengths (codeMap : gmap byte string) (data : list byte) : nat :=
  list_sum (map (λ b, String.length (default EmptyString (codeMap !! b))) data).

(** A node with two children, both well formed. *)
Definition internal (t : Node) : Prop :=
  ∃ c f m l r, t = mkNode c f m l r ∧ wf_tree l ∧ wf_tree r.

(** Where the decoder stands between two bits: at an internal node whose
    leaves are leaves of the root. *)
Definition inside (root node : Node) : Prop :=
  internal node ∧ ∀ b, b ∈ leaves node → b ∈ leaves root.

(** The counts at the leaves of a tree, each with the depth of its leaf
    below a root at depth [d]. *)
Fixpoint depths (t : Node) (d : nat) : list (Z * nat) :=
  match t with
  | Nil => []
  | mkNode _ f _ Nil Nil => [(f, d)]
  | mkNode _ _ _ l r => depths l (S d) ++ depths r (S d)
  end.

(** The sum of count times depth. *)
Definition cost (P : list (Z * nat)) : Z :=
  foldr (λ e acc, e.1 * Z.of_nat e.2 + acc) 0 P.

(** The number of bits a tree spends on data in which each symbol occurs
    as often as its leaf says: every occurrence costs the depth of the
    leaf, which is the length of the code. *)
Definition weighted_length (t : Node) : Z := cost (depths t 0).

(** The multisets of leaf depths of the trees in which every node has no
    child or two: one leaf at the root, or a leaf split in two. *)
Inductive full_depths : list nat → Prop :=
| full_one : full_depths [0%nat]
| full_split d D' D D2 :
    full_depths D → D ≡ₚ d :: D' → D2 ≡ₚ S d :: S d :: D' → full_depths D2.

Definition sumZ (l : list Z) : Z := foldr Z.add 0 l.

(** What holds of the queue of [buildHuffmanTree] when the counts are not
    negative and add up to less than 2^63. *)
Definition good (h : list Node) : Prop :=
  Forall built h ∧
  Forall (λ e, 0 ≤ e.2) (flat_map leaf_entries h) ∧
  sumZ (flat_map leaf_entries h).*2 < 2 ^ 63.

(** The sum over the entries of count times [g] of the symbol. *)
Definition weighted (g : byte → Z) (l : list (byte * Z)) : Z :=
  sumZ (map (λ e, e.2 * g e.1) l).




(** The entries at the leaves of a tree, each with the depth of its leaf
    below a root at depth [d]. *)
Fixpoint leaf_depths (t : Node) (d : nat) : list (byte * Z * nat) :=
  match t with
  | Nil => []
  | mkNode c f _ Nil Nil => [(c, f, d)]
  | mkNode _ _ _ l r => leaf_depths l (S d) ++ leaf_depths r (S d)
  end.

(** The tree with the entry at every leaf replaced by its image. *)
Fixpoint relabel (σ : byte * Z → byte * Z) (t : Node) : Node :=
  match t with
  | Nil => Nil
  | mkNode c f m Nil Nil => mkNode (σ (c, f)).1 (σ (c, f)).2 m Nil Nil
  | mkNode c f m l r => mkNode c f m (relabel σ l) (relabel σ r)
  end.

(** The entries of [a] and [b] exchanged. *)
Definition exchange (a : byte) (fa : Z) (b : byte) (fb : Z) (e : byte * Z) : byte * Z :=
  if decide (e.1 = a) then (b, fb)
  else if decide (e.1 = b) then (a, fa)
  else e.

(** * Properties *)

(** ** Bytes *)

Lemma byte_to_Z_range (b : byte) : 0 ≤ byte_to_Z b < 256.
Proof.
  unfold byte_to_Z. pose proof (Byte.to_N_bounded b). lia.
Qed.

Lemma byte_of_to_Z (b : byte) : byte_of_Z (byte_to_Z b) = b.
Proof.
  unfold byte_of_Z. pose proof (byte_to_Z_range b) as Hb.
  rewrite Z.mod_small by exact Hb.
  unfold byte_to_Z. rewrite N2Z.id, Byte.of_to_N. reflexivity.
Qed.

Lemma byte_to_of_Z (z : Z) : byte_to_Z (byte_of_Z z) = z mod 256.
Proof.
  unfold byte_of_Z, byte_to_Z.
  pose proof (Z.mod_pos_bound z 256 eq_refl) as Hz.
  destruct (Byte.of_N (Z.to_N (z mod 256))) as [b|] eqn:E.
  - apply Byte.to_of_N in E. rewrite E. lia.
  - apply Byte.of_N_None_iff in E. lia.
Qed.

Lemma byte_to_Z_inj (a b : byte) : byte_to_Z a = byte_to_Z b → a = b.
Proof.
  intros H. rewrite <- (byte_of_to_Z a), <- (byte_of_to_Z b). congruence.
Qed.

(** ** Little-endian fields *)

Lemma length_le_bytes n z : length (le_bytes n z) = n.
Proof. revert z. induction n as [|n IH]; intros z; simpl; [done|]. by rewrite IH. Qed.

Lemma le_value_le_bytes n z : le_value (le_bytes n z) = z mod 256 ^ Z.of_nat n.
Proof.
  revert z. induction n as [|n IH]; intros z.
  - simpl. by rewrite Z.mod_1_r.
  - cbn [le_bytes le_value]. rewrite byte_to_of_Z, IH.
    rewrite Nat2Z.inj_succ, Z.pow_succ_r by lia.
    rewrite Z.rem_mul_r by lia. reflexivity.
Qed.

Lemma le_value_range bs : 0 ≤ le_value bs < 256 ^ Z.of_nat (length bs).
Proof.
  induction bs as [|b bs IH].
  - simpl. lia.
  - cbn [le_value length]. pose proof (byte_to_Z_range b).
    rewrite Nat2Z.inj_succ, Z.pow_succ_r by lia. lia.
Qed.

Lemma binary_Read_app n (hd r : list byte) :
  length hd = n → binary_Read n (hd ++ r) = Some (le_value hd, r).
Proof.
  intros Hn. unfold binary_Read.
  rewrite length_app, Hn.
  destruct (Nat.ltb_spec (n + length r) n) as [?|_]; [lia|].
  rewrite <- Hn. rewrite take_app_length, drop_app_length. reflexivity.
Qed.

Lemma binary_Read_le_bytes n z r :
  binary_Read n (le_bytes n z ++ r) = Some (z mod 256 ^ Z.of_nat n, r).
Proof.
  rewrite binary_Read_app by apply length_le_bytes.
  by rewrite le_value_le_bytes.
Qed.

Lemma binary_Read_short n (r : list byte) :
  (length r < n)%nat → binary_Read n r = None.
Proof.
  intros H. unfold binary_Read.
  destruct (Nat.ltb_spec (length r) n); [done|lia].
Qed.

Lemma binary_Read_Some n (r : list byte) v r' :
  binary_Read n r = Some (v, r') →
  r = take n r ++ r' ∧ length (take n r) = n ∧ v = le_value (take n r)
  ∧ 0 ≤ v < 256 ^ Z.of_nat n.
Proof.
  unfold binary_Read. destruct (Nat.ltb_spec (length r) n) as [|Hn]; [done|].
  intros [= <- <-]. rewrite take_drop.
  assert (length (take n r) = n) as Hl by (rewrite length_take; lia).
  repeat split; try done; pose proof (le_value_range (take n r)); rewrite Hl in *; lia.
Qed.

(** ** The order of the queue *)

Lemma lessb_true a b :
  lessb a b = true ↔
  (key a).1 < (key b).1 ∨ ((key a).1 = (key b).1 ∧ (key a).2 < (key b).2).
Proof.
  unfold lessb.
  destruct (Z.eqb_spec (key a).1 (key b).1) as [E|E]; simpl.
  - rewrite Z.ltb_lt. lia.
  - rewrite Z.ltb_lt. lia.
Qed.

Lemma lessb_false a b :
  lessb a b = false ↔
  (key b).1 < (key a).1 ∨ ((key a).1 = (key b).1 ∧ (key b).2 ≤ (key a).2).
Proof.
  unfold lessb.
  destruct (Z.eqb_spec (key a).1 (key b).1) as [E|E]; simpl.
  - rewrite Z.ltb_ge. lia.
  - rewrite Z.ltb_ge. lia.
Qed.

Ltac order :=
  repeat match goal with
  | H : lessb _ _ = true |- _ => apply lessb_true in H
  | H : lessb _ _ = false |- _ => apply lessb_false in H
  end;
  first [ apply lessb_true | apply lessb_false | idtac ]; lia.

Lemma lessb_irrefl a : lessb a a = false.
Proof. order. Qed.

Lemma lessb_asym a b : lessb a b = true → lessb b a = false.
Proof. intros. order. Qed.

Lemma lessb_trans a b c : lessb a b = true → lessb b c = true → lessb a c = true.
Proof. intros. order. Qed.

Lemma lessb_total a b : key a ≠ key b → lessb a b = true ∨ lessb b a = true.
Proof.
  intros Hk.
  destruct (lessb a b) eqn:E1; [by left|right].
  destruct (lessb b a) eqn:E2; [done|].
  exfalso. apply Hk. apply lessb_false in E1, E2.
  destruct (key a), (key b). simpl in *. f_equal; lia.
Qed.

Lemma Less_Ret h i j a b :
  h !! i = Some a → h !! j = Some b → is_nil a = false → is_nil b = false →
  PriorityQueue.Less h i j = Ret (lessb a b).
Proof.
  intros Hi Hj Ha Hb. unfold PriorityQueue.Less, index. rewrite Hi, Hj.
  destruct a as [|ca fa ma la ra]; [done|].
  destruct b as [|cb fb mb lb rb]; [done|].
  cbn. unfold lessb. cbn. by destruct (fa =? fb).
Qed.

Lemma no_nil_lookup h i a : no_nil h → h !! i = Some a → is_nil a = false.
Proof. intros Hn Hi. exact (proj1 (Forall_lookup _ _) Hn i a Hi). Qed.

Lemma no_nil_perm h h' : h ≡ₚ h' → no_nil h → no_nil h'.
Proof. unfold no_nil. intros Hp. by rewrite Hp. Qed.

(** ** Swapping two elements *)

Lemma Swap_Ret h i j :
  (i < length h)%nat → (j < length h)%nat →
  PriorityQueue.Swap h i j = Ret (swap h i j).
Proof.
  intros Hi Hj. unfold PriorityQueue.Swap, swap, index.
  destruct (lookup_lt_is_Some_2 h i Hi) as [b Hb].
  destruct (lookup_lt_is_Some_2 h j Hj) as [a Ha].
  rewrite Ha, Hb. reflexivity.
Qed.

Lemma length_swap h i j : length (swap h i j) = length h.
Proof.
  unfold swap. destruct (h !! j), (h !! i); try done.
  by rewrite !length_insert.
Qed.

Lemma swap_perm h i j : swap h i j ≡ₚ h.
Proof.
  unfold swap. destruct (h !! j) eqn:Hj, (h !! i) eqn:Hi; try done.
  by apply Permutation_insert_swap.
Qed.

Lemma lookup_swap h i j k :
  (i < length h)%nat → (j < length h)%nat →
  swap h i j !! k =
    if decide (k = j) then h !! i else if decide (k = i) then h !! j else h !! k.
Proof.
  intros Hi Hj. unfold swap.
  destruct (lookup_lt_is_Some_2 h i Hi) as [b Hb].
  destruct (lookup_lt_is_Some_2 h j Hj) as [a Ha].
  rewrite Ha, Hb.
  destruct (decide (k = j)) as [->|Hkj].
  - rewrite list_lookup_insert_eq; [done|]. by rewrite length_insert.
  - rewrite list_lookup_insert_ne by done.
    destruct (decide (k = i)) as [->|Hki].
    + by rewrite list_lookup_insert_eq.
    + by rewrite list_lookup_insert_ne.
Qed.

(** ** [up] restores the heap order *)

Lemma up_eq fuel h j :
  heap.up fuel h j =
    let i := ((j - 1) / 2)%nat in
    if (i =? j)%nat then Ret h
    else
      lt ← PriorityQueue.Less h j i;
      if negb lt then Ret h
      else
        match fuel with
        | O => OutOfFuel
        | S fuel => h ← PriorityQueue.Swap h i j; heap.up fuel h i
        end.
Proof. destruct fuel; reflexivity. Qed.

Lemma parent_edge j : (j ≠ 0)%nat → edge ((j - 1) / 2) j.
Proof.
  intros Hj. unfold edge.
  pose proof (Nat.div_mod_eq (j - 1) 2) as E.
  pose proof (Nat.mod_upper_bound (j - 1) 2).
  lia.
Qed.

Lemma edge_lt p c : edge p c → (p < c)%nat.
Proof. unfold edge. lia. Qed.

Lemma edge_inj p p' c : edge p c → edge p' c → p = p'.
Proof. unfold edge. lia. Qed.

Lemma up_spec fuel : ∀ h j,
  no_nil h → (j < length h)%nat → (j ≤ fuel)%nat → up_inv h j →
  ∃ h', heap.up fuel h j = Ret h' ∧ is_heap h' ∧ h' ≡ₚ h.
Proof.
  induction fuel as [|fuel IH]; intros h j Hnn Hj Hfuel [Hinv1 Hinv2];
    rewrite up_eq; cbv zeta.
  - assert (j = 0)%nat as -> by lia. simpl.
    exists h. split; [done|]. split; [|done].
    intros p c _ He. apply Hinv1; [done|]. apply edge_lt in He. lia.
  - destruct (Nat.eqb_spec ((j - 1) / 2) j) as [E|E].
    { exists h. split; [done|]. split; [|done].
      assert (j = 0)%nat as ->.
      { destruct j; [done|]. pose proof (parent_edge (S j) ltac:(lia)) as He.
        apply edge_lt in He. lia. }
      intros p c _ He. apply Hinv1; [done|]. apply edge_lt in He. lia. }
    assert (j ≠ 0)%nat as Hj0 by (intros ->; simpl in E; done).
    pose proof (parent_edge j Hj0) as Hedge.
    set (i := ((j - 1) / 2)%nat) in *.
    pose proof (edge_lt _ _ Hedge) as Hij.
    destruct (lookup_lt_is_Some_2 h j Hj) as [hj Hhj].
    destruct (lookup_lt_is_Some_2 h i ltac:(lia)) as [hi Hhi].
    rewrite (Less_Ret h j i hj hi) by eauto using no_nil_lookup.
    simpl. destruct (lessb hj hi) eqn:Hlt; simpl.
    2:{ exists h. split; [done|]. split; [|done].
        intros p c _ He. destruct (decide (c = j)) as [->|Hc].
        - rewrite (edge_inj _ _ _ He Hedge). intros a b Ha Hb. congruence.
        - by apply Hinv1. }
    rewrite Swap_Ret by lia. simpl.
    destruct (IH (swap h i j) i) as (h' & Hup & Hheap & Hperm).
    + eapply no_nil_perm; [symmetry; apply swap_perm|done].
    + rewrite length_swap. lia.
    + lia.
    + split.
      * intros p c He Hci a b. rewrite !lookup_swap by lia.
        destruct (decide (c = j)) as [->|Hcj].
        { rewrite (edge_inj _ _ _ He Hedge).
          destruct (decide (i = j)); [lia|]. rewrite decide_True by done.
          intros Ha Hb. assert (a = hj) by congruence. assert (b = hi) by congruence.
          subst. order. }
        rewrite (decide_False (P := c = i)) by done.
        intros Ha Hb.
        destruct (decide (p = j)) as [->|Hpj].
        { assert (a = hi) by congruence. subst a.
          exact (Hinv2 i c Hedge He hi b Hhi Hb). }
        destruct (decide (p = i)) as [->|Hpi].
        { assert (a = hj) by congruence. subst a.
          pose proof (Hinv1 i c He Hcj hi b Hhi Hb). order. }
        exact (Hinv1 p c He Hcj a b Ha Hb).
      * intros g c Hg Hc a b. rewrite !lookup_swap by lia.
        pose proof (edge_lt _ _ Hg). pose proof (edge_lt _ _ Hc).
        rewrite (decide_False (P := g = j)) by lia.
        rewrite (decide_False (P := g = i)) by lia.
        intros Ha Hb.
        pose proof (Hinv1 g i Hg ltac:(lia) a hi Ha Hhi) as Hgi.
        destruct (decide (c = j)) as [->|Hcj].
        { assert (b = hi) by congruence. by subst. }
        rewrite (decide_False (P := c = i)) in Hb by lia.
        pose proof (Hinv1 i c Hc Hcj hi b Hhi Hb). order.
    + exists h'. split; [done|]. split; [done|].
      by rewrite Hperm, swap_perm.
Qed.

(** ** [down] restores the heap order *)

Lemma down_eq fuel h i n :
  heap.down fuel h i n =
    let j1 := (2 * i + 1)%nat in
    if (n <=? j1)%nat then Ret h
    else
      lt21 ← (if (j1 + 1 <? n)%nat then PriorityQueue.Less h (j1 + 1) j1 else Ret false);
      let j := if lt21 : bool then (j1 + 1)%nat else j1 in
      lt ← PriorityQueue.Less h j i;
      if negb lt then Ret h
      else
        match fuel with
        | O => OutOfFuel
        | S fuel => h ← PriorityQueue.Swap h i j; heap.down fuel h j n
        end.
Proof. destruct fuel; reflexivity. Qed.

Lemma down_spec fuel : ∀ h i n,
  no_nil h → (n ≤ length h)%nat → (n ≤ fuel + i)%nat → down_inv n h i →
  ∃ h', heap.down fuel h i n = Ret h' ∧ heap_upto n h' ∧ h' ≡ₚ h ∧
        ∀ k, (n ≤ k)%nat → h' !! k = h !! k.
Proof.
  induction fuel as [|fuel IH]; intros h i n Hnn Hn Hfuel [Hinv1 Hinv2];
    rewrite down_eq; cbv zeta;
    (destruct (Nat.leb_spec n (2 * i + 1)) as [Hj1|Hj1];
     [ exists h; split; [done|]; split; [|done];
       intros p c Hc He; apply Hinv1; [done|done|]; unfold edge in He; lia |]).
  { lia. }
  set (j1 := (2 * i + 1)%nat) in *.
  destruct (lookup_lt_is_Some_2 h i ltac:(lia)) as [hi Hhi].
  destruct (lookup_lt_is_Some_2 h j1 ltac:(lia)) as [h1 Hh1].
  (* the smaller child [j], below every child of [i] *)
  assert (∃ (lt21 : bool) hj,
    (if (j1 + 1 <? n)%nat then PriorityQueue.Less h (j1 + 1) j1 else Ret false)
      = Ret lt21 ∧
    let j := if lt21 then (j1 + 1)%nat else j1 in
    h !! j = Some hj ∧ edge i j ∧ (j < n)%nat ∧
    ∀ c b, (c < n)%nat → edge i c → h !! c = Some b → lessb b hj = false)
    as (lt21 & hj & -> & Hhj & Hedge & Hjn & Hmin).
  { destruct (Nat.ltb_spec (j1 + 1) n) as [Hj2|Hj2].
    - destruct (lookup_lt_is_Some_2 h (j1 + 1) ltac:(lia)) as [h2 Hh2].
      rewrite (Less_Ret h (j1 + 1) j1 h2 h1) by eauto using no_nil_lookup.
      destruct (lessb h2 h1) eqn:Hlt.
      + exists true, h2. split; [done|]. cbv zeta. split; [done|].
        split; [unfold edge, j1; lia|]. split; [done|].
        intros c b Hc [->| ->] Hb.
        * fold j1 in Hb. assert (b = h1) by congruence. subst. order.
        * replace (2 * i + 2)%nat with (j1 + 1)%nat in Hb by (unfold j1; lia).
          assert (b = h2) by congruence. subst. order.
      + exists false, h1. split; [done|]. cbv zeta. split; [done|].
        split; [unfold edge, j1; lia|]. split; [done|].
        intros c b Hc [->| ->] Hb.
        * fold j1 in Hb. assert (b = h1) by congruence. subst. order.
        * replace (2 * i + 2)%nat with (j1 + 1)%nat in Hb by (unfold j1; lia).
          assert (b = h2) by congruence. subst. order.
    - exists false, h1. split; [done|]. cbv zeta. split; [done|].
      split; [unfold edge, j1; lia|]. split; [done|].
      intros c b Hc [->| ->] Hb.
      * fold j1 in Hb. assert (b = h1) by congruence. subst. order.
      * unfold j1 in Hj2. lia. }
  simpl. cbv zeta in Hhj, Hedge, Hjn.
  set (j := if lt21 then (j1 + 1)%nat else j1) in *.
  pose proof (edge_lt _ _ Hedge) as Hij.
  rewrite (Less_Ret h j i hj hi) by eauto using no_nil_lookup.
  simpl. destruct (lessb hj hi) eqn:Hlt; simpl.
  2:{ exists h. split; [done|]. split; [|done].
      intros p c Hc He. destruct (decide (p = i)) as [->|Hp].
      - intros a b Ha Hb. assert (a = hi) by congruence. subst.
        pose proof (Hmin c b Hc He Hb). order.
      - by apply Hinv1. }
  rewrite Swap_Ret by lia. simpl.
  destruct (IH (swap h i j) j n) as (h' & Hdown & Hheap & Hperm & Hrest).
  - eapply no_nil_perm; [symmetry; apply swap_perm|done].
  - rewrite length_swap. lia.
  - lia.
  - split.
    + intros p c Hc He Hpj a b. rewrite !lookup_swap by lia.
      rewrite (decide_False (P := p = j)) by done.
      destruct (decide (p = i)) as [->|Hpi].
      * intros Ha. assert (a = hj) by congruence. subst a.
        destruct (decide (c = j)) as [->|Hcj].
        { intros Hb. assert (b = hi) by congruence. subst. order. }
        pose proof (edge_lt _ _ He).
        rewrite (decide_False (P := c = i)) by lia.
        intros Hb. exact (Hmin c b Hc He Hb).
      * intros Ha.
        destruct (decide (c = j)) as [->|Hcj].
        { exfalso. apply Hpi. exact (edge_inj _ _ _ He Hedge). }
        destruct (decide (c = i)) as [->|Hci].
        { intros Hb. assert (b = hj) by congruence. subst b.
          exact (Hinv2 p j Hjn He Hedge a hj Ha Hhj). }
        intros Hb. exact (Hinv1 p c Hc He Hpi a b Ha Hb).
    + intros g c Hc Hg Hjc a b. rewrite !lookup_swap by lia.
      rewrite (edge_inj _ _ _ Hg Hedge).
      pose proof (edge_lt _ _ Hjc).
      rewrite (decide_False (P := i = j)) by lia.
      rewrite (decide_True (P := i = i)) by done.
      rewrite (decide_False (P := c = j)) by lia.
      rewrite (decide_False (P := c = i)) by lia.
      intros Ha Hb. assert (a = hj) by congruence. subst a.
      exact (Hinv1 j c Hc Hjc ltac:(lia) hj b Hhj Hb).
  - exists h'. split; [done|]. split; [done|]. split.
    + by rewrite Hperm, swap_perm.
    + intros k Hk. rewrite Hrest by done. rewrite lookup_swap by lia.
      rewrite (decide_False (P := k = j)) by lia.
      by rewrite (decide_False (P := k = i)) by lia.
Qed.

(** ** [Init], [Push] and [Pop] *)

Lemma Init_nil : heap.Init [] = Ret [].
Proof. reflexivity. Qed.

Lemma is_heap_nil : is_heap [].
Proof. intros p c Hc. simpl in Hc. lia. Qed.

Lemma Push_spec h x :
  no_nil h → is_nil x = false → is_heap h →
  ∃ h', heap.Push h x = Ret h' ∧ is_heap h' ∧ h' ≡ₚ x :: h.
Proof.
  intros Hnn Hx Hheap. unfold heap.Push, PriorityQueue.Push, PriorityQueue.Len.
  cbv zeta. rewrite length_app. simpl.
  replace (length h + 1 - 1)%nat with (length h) by lia.
  destruct (up_spec (length h) (h ++ [x]) (length h)) as (h' & Hup & Hh' & Hperm).
  - apply Forall_app. split; [done|]. by constructor.
  - rewrite length_app. simpl. lia.
  - lia.
  - split.
    + intros p c He Hc a b Ha Hb.
      pose proof (edge_lt _ _ He).
      assert (c < length h)%nat.
      { apply lookup_lt_Some in Hb. rewrite length_app in Hb. simpl in Hb. lia. }
      rewrite lookup_app_l in Ha, Hb by lia.
      exact (Hheap p c ltac:(lia) He a b Ha Hb).
    + intros g c Hg Hc a b Ha Hb.
      pose proof (edge_lt _ _ Hc).
      apply lookup_lt_Some in Hb. rewrite length_app in Hb. simpl in Hb. lia.
  - exists h'. split; [done|]. split; [done|].
    rewrite Hperm. by rewrite <- Permutation_cons_append.
Qed.

(** The root of a heap is below every element. *)
Lemma heap_root_min h x :
  is_heap h → h !! 0%nat = Some x → ∀ k y, h !! k = Some y → lessb y x = false.
Proof.
  intros Hheap Hx k. induction k as [k IH] using lt_wf_ind. intros y Hy.
  destruct (decide (k = 0)%nat) as [->|Hk].
  - assert (y = x) by congruence. subst. apply lessb_irrefl.
  - pose proof (parent_edge k Hk) as He.
    pose proof (edge_lt _ _ He) as Hlt.
    pose proof (lookup_lt_Some _ _ _ Hy) as Hklen.
    destruct (lookup_lt_is_Some_2 h ((k - 1) / 2) ltac:(lia)) as [p Hp].
    pose proof (IH _ Hlt p Hp).
    pose proof (Hheap _ _ Hklen He p y Hp Hy).
    order.
Qed.

Lemma Pop_spec h :
  no_nil h → is_heap h → h ≠ [] →
  ∃ x h', heap.Pop h = Ret (x, h') ∧ is_heap h' ∧ h ≡ₚ x :: h' ∧
          Forall (λ y, lessb y x = false) h'.
Proof.
  intros Hnn Hheap Hne. unfold heap.Pop, PriorityQueue.Len. cbv zeta.
  assert (0 < length h)%nat as Hlen by (destruct h; [done|simpl; lia]).
  set (n := (length h - 1)%nat).
  destruct (lookup_lt_is_Some_2 h 0 Hlen) as [x Hx].
  rewrite Swap_Ret by (unfold n; lia). simpl.
  destruct (down_spec n (swap h 0 n) 0 n) as (h2 & Hdown & Hheap2 & Hperm & Hrest).
  - eapply no_nil_perm; [symmetry; apply swap_perm|done].
  - rewrite length_swap. unfold n. lia.
  - lia.
  - split.
    + intros p c Hc He Hp a b. pose proof (edge_lt _ _ He).
      rewrite !lookup_swap by (unfold n; lia).
      rewrite (decide_False (P := p = n)) by lia.
      rewrite (decide_False (P := p = 0%nat)) by lia.
      rewrite (decide_False (P := c = n)) by lia.
      rewrite (decide_False (P := c = 0%nat)) by lia.
      apply Hheap; [unfold n in Hc; lia|done].
    + intros g c _ Hg. apply edge_lt in Hg. lia.
  - rewrite Hdown. simpl.
    assert (length h2 = S n) as Hlen2.
    { rewrite (Permutation_length Hperm), length_swap. unfold n. lia. }
    assert (h2 !! n = Some x) as Hlast.
    { rewrite Hrest by lia. rewrite lookup_swap by (unfold n; lia).
      by rewrite decide_True. }
    unfold PriorityQueue.Pop. cbv zeta. rewrite Hlen2. simpl.
    replace (n - 0)%nat with n by lia.
    unfold index. rewrite Hlast. simpl.
    assert (h2 = take n h2 ++ [x]) as Hsplit.
    { rewrite <- (take_drop_middle h2 n x Hlast) at 1.
      rewrite drop_ge by lia. done. }
    assert (h ≡ₚ x :: take n h2) as Hp.
    { rewrite Permutation_cons_append, <- Hsplit, Hperm, swap_perm. done. }
    exists x, (take n h2). split; [done|]. split; [|split; [done|]].
    + intros p c Hc He a b.
      rewrite length_take in Hc. pose proof (edge_lt _ _ He).
      rewrite !lookup_take_lt by lia.
      apply Hheap2; [lia|done].
    + apply Forall_forall. intros y Hy.
      assert (y ∈ h) as Hyh by (rewrite Hp; by right).
      apply list_elem_of_lookup in Hyh as [k Hk].
      exact (heap_root_min h x Hheap Hx k y Hk).
Qed.

Lemma wf_tree_not_nil t : wf_tree t → is_nil t = false.
Proof. by intros []. Qed.

Lemma leaves_internal c f m l r :
  wf_tree l → leaves (mkNode c f m l r) = leaves l ++ leaves r.
Proof. intros Hl. by destruct Hl. Qed.

Lemma leaves_nonempty t : wf_tree t → leaves t ≠ [].
Proof.
  induction 1 as [c f|c f m l r Hl IHl Hr IHr]; [done|].
  rewrite leaves_internal by done. destruct (leaves l); [done|]. done.
Qed.

Lemma flat_map_leaves_perm h1 h2 :
  h1 ≡ₚ h2 → flat_map leaves h1 ≡ₚ flat_map leaves h2.
Proof.
  induction 1 as [|x l l' _ IH|x y l|l l' l'' _ IH1 _ IH2]; simpl.
  - done.
  - by rewrite IH.
  - rewrite !app_assoc. f_equiv. apply Permutation_app_comm.
  - by rewrite IH1.
Qed.

Lemma queue_ok_perm h1 h2 : h1 ≡ₚ h2 → queue_ok h1 → queue_ok h2.
Proof.
  intros Hp (Hwf & Hmin & Hnd). repeat split.
  - by rewrite <- Hp.
  - by rewrite <- Hp.
  - by rewrite <- (flat_map_leaves_perm _ _ Hp).
Qed.

Lemma queue_ok_no_nil h : queue_ok h → no_nil h.
Proof.
  intros (Hwf & _ & _). unfold no_nil.
  eapply Forall_impl; [exact Hwf|]. apply wf_tree_not_nil.
Qed.

Lemma key_min_char a b : key a = key b → wf_tree a → wf_tree b → min_char a = min_char b.
Proof.
  intros Hk Ha Hb. destruct Ha, Hb; simpl in *;
    apply byte_to_Z_inj; congruence.
Qed.

(** In a queue the element popped is strictly below all the others. *)
Lemma queue_ok_head_lt x h :
  queue_ok (x :: h) → Forall (λ y, lessb y x = false) h →
  Forall (λ y, lessb x y = true) h.
Proof.
  intros (Hwf & Hmin & Hnd) Hle.
  apply Forall_forall. intros y Hy.
  pose proof (proj1 (Forall_forall _ _) Hle y Hy) as Hyx.
  destruct (lessb_total x y) as [?|Hc]; [|done|congruence].
  intros Hk.
  apply Forall_cons in Hwf as [Hx Hwf], Hmin as [Hmx Hmin].
  pose proof (proj1 (Forall_forall _ _) Hwf y Hy) as Hwy.
  pose proof (proj1 (Forall_forall _ _) Hmin y Hy) as Hmy.
  pose proof (key_min_char _ _ Hk Hx Hwy) as Hm.
  simpl in Hnd. apply NoDup_app in Hnd as (_ & Hdisj & _).
  apply (Hdisj (min_char x) Hmx).
  rewrite Hm. apply list_elem_of_In, in_flat_map. exists y.
  split; by apply list_elem_of_In.
Qed.

(** Two heaps with the same elements pop the same element. *)
Lemma Pop_perm h1 h2 :
  queue_ok h1 → is_heap h1 → is_heap h2 → h1 ≡ₚ h2 → h1 ≠ [] →
  ∃ x h1' h2',
    heap.Pop h1 = Ret (x, h1') ∧ heap.Pop h2 = Ret (x, h2') ∧
    is_heap h1' ∧ is_heap h2' ∧ h1' ≡ₚ h2' ∧ h1 ≡ₚ x :: h1'.
Proof.
  intros Hok1 Hh1 Hh2 Hp Hne.
  pose proof (queue_ok_perm _ _ Hp Hok1) as Hok2.
  destruct (Pop_spec h1 (queue_ok_no_nil _ Hok1) Hh1 Hne)
    as (x1 & h1' & Hpop1 & Hheap1 & Hp1 & Hmin1).
  assert (h2 ≠ []) as Hne2.
  { intros ->. apply Permutation_nil_r in Hp. done. }
  destruct (Pop_spec h2 (queue_ok_no_nil _ Hok2) Hh2 Hne2)
    as (x2 & h2' & Hpop2 & Hheap2 & Hp2 & Hmin2).
  pose proof (queue_ok_head_lt x1 h1' (queue_ok_perm _ _ Hp1 Hok1) Hmin1) as Hlt1.
  pose proof (queue_ok_head_lt x2 h2' (queue_ok_perm _ _ Hp2 Hok2) Hmin2) as Hlt2.
  assert (x1 = x2) as ->.
  { assert (x1 ∈ x2 :: h2') as Hin1 by (rewrite <- Hp2, <- Hp, Hp1; by left).
    assert (x2 ∈ x1 :: h1') as Hin2 by (rewrite <- Hp1, Hp, Hp2; by left).
    apply elem_of_cons in Hin1 as [?|Hin1]; [done|].
    apply elem_of_cons in Hin2 as [?|Hin2]; [done|].
    pose proof (proj1 (Forall_forall _ _) Hlt1 x2 Hin2) as Ha.
    pose proof (proj1 (Forall_forall _ _) Hlt2 x1 Hin1) as Hb.
    apply lessb_asym in Ha. congruence. }
  exists x2, h1', h2'. repeat split; try done.
  apply (Permutation_cons_inv (a := x2)). by rewrite <- Hp1, <- Hp2.
Qed.

(** ** The merge loop *)

Lemma merge_loop_eq fuel pq :
  merge_loop fuel pq =
    if (PriorityQueue.Len pq <=? 1)%nat then Ret pq
    else
      match fuel with
      | O => OutOfFuel
      | S fuel =>
          '(left', pq) ← heap.Pop pq;
          '(right', pq) ← heap.Pop pq;
          lm ← MinChar left';
          rm ← MinChar right';
          let minChar := if byte_to_Z rm <? byte_to_Z lm then rm else lm in
          lf ← Freq left';
          rf ← Freq right';
          let merged := mkNode x00 (wrap_int (lf + rf)) minChar left' right' in
          pq ← heap.Push pq merged;
          merge_loop fuel pq
      end.
Proof. destruct fuel; reflexivity. Qed.

Lemma wf_tree_is_node t :
  wf_tree t → ∃ c f m l r, t = mkNode c f m l r.
Proof. intros []; eauto 10. Qed.

(** The node one iteration of the loop builds from the two it popped. *)
Lemma merged_ok cx fx mx lx rx cy fy my ly ry rest :
  let x := mkNode cx fx mx lx rx in
  let y := mkNode cy fy my ly ry in
  let merged := mkNode x00 (wrap_int (fx + fy))
                  (if byte_to_Z my <? byte_to_Z mx then my else mx) x y in
  queue_ok (x :: y :: rest) →
  queue_ok (merged :: rest) ∧
  flat_map leaves (merged :: rest) = flat_map leaves (x :: y :: rest).
Proof.
  intros x y merged (Hwf & Hmin & Hnd).
  apply Forall_cons in Hwf as [Hx Hwf]. apply Forall_cons in Hwf as [Hy Hwf].
  apply Forall_cons in Hmin as [Hmx Hmin]. apply Forall_cons in Hmin as [Hmy Hmin].
  assert (leaves merged = leaves x ++ leaves y) as Hl by (by apply leaves_internal).
  split; [repeat split|].
  - constructor; [by constructor|done].
  - constructor; [|done]. rewrite Hl. cbn [min_char merged].
    apply elem_of_app. destruct (byte_to_Z my <? byte_to_Z mx).
    + by right.
    + by left.
  - cbn [flat_map]. rewrite Hl, <- app_assoc. exact Hnd.
  - cbn [flat_map]. by rewrite Hl, <- app_assoc.
Qed.

Lemma queue_ok_tail x h : queue_ok (x :: h) → queue_ok h.
Proof.
  intros (Hwf & Hmin & Hnd).
  apply Forall_cons in Hwf as [_ Hwf]. apply Forall_cons in Hmin as [_ Hmin].
  simpl in Hnd. apply NoDup_app in Hnd as (_ & _ & Hnd). done.
Qed.

(** The loop ends with one tree, the same for every arrangement of the
    same nodes in the heap. *)
Lemma merge_loop_perm fuel1 : ∀ fuel2 h1 h2,
  queue_ok h1 → is_heap h1 → is_heap h2 → h1 ≡ₚ h2 → h1 ≠ [] →
  (length h1 ≤ fuel1)%nat → (length h2 ≤ fuel2)%nat →
  ∃ t, merge_loop fuel1 h1 = Ret [t] ∧ merge_loop fuel2 h2 = Ret [t] ∧
       wf_tree t ∧ leaves t ≡ₚ flat_map leaves h1.
Proof.
  induction fuel1 as [|fuel1 IH]; intros fuel2 h1 h2 Hok Hh1 Hh2 Hp Hne Hf1 Hf2.
  { destruct h1; [done|simpl in Hf1; lia]. }
  rewrite !merge_loop_eq. unfold PriorityQueue.Len.
  pose proof (Permutation_length Hp) as Hlen.
  destruct (Nat.leb_spec (length h1) 1) as [Hl|Hl].
  - rewrite <- Hlen. destruct (Nat.leb_spec (length h1) 1); [|lia].
    destruct h1 as [|t [|]]; [done| |simpl in Hl; lia].
    apply Permutation_singleton_l in Hp. subst h2.
    exists t. split; [done|]. split; [done|].
    destruct Hok as (Hwf & _ & _). apply Forall_cons in Hwf as [Hwf _].
    split; [done|]. simpl. by rewrite app_nil_r.
  - rewrite <- Hlen. destruct (Nat.leb_spec (length h1) 1); [lia|].
    destruct fuel2 as [|fuel2]; [lia|].
    destruct (Pop_perm h1 h2 Hok Hh1 Hh2 Hp Hne)
      as (x & h1' & h2' & -> & -> & Hh1' & Hh2' & Hp' & Hpx).
    pose proof (queue_ok_perm _ _ Hpx Hok) as Hokx.
    pose proof (queue_ok_tail _ _ Hokx) as Hok'.
    pose proof (Permutation_length Hpx) as Hlx. simpl in Hlx.
    assert (h1' ≠ []) as Hne' by (intros ->; simpl in Hlx; lia).
    destruct (Pop_perm h1' h2' Hok' Hh1' Hh2' Hp' Hne')
      as (y & h1'' & h2'' & Hpop1 & Hpop2 & Hh1'' & Hh2'' & Hp'' & Hpy).
    cbn [mbind result_bind]. rewrite Hpop1, Hpop2. cbn [mbind result_bind].
    assert (queue_ok (x :: y :: h1'')) as Hokxy.
    { eapply queue_ok_perm; [|exact Hokx]. by rewrite Hpy. }
    destruct (wf_tree_is_node x) as (cx & fx & mx & lx & rx & Ex).
    { destruct Hokxy as (Hwf & _). by apply Forall_cons in Hwf as [? _]. }
    destruct (wf_tree_is_node y) as (cy & fy & my & ly & ry & Ey).
    { destruct Hokxy as (Hwf & _). apply Forall_cons in Hwf as [_ Hwf].
      by apply Forall_cons in Hwf as [? _]. }
    rewrite Ex, Ey in Hokxy.
    destruct (merged_ok _ _ _ _ _ _ _ _ _ _ _ Hokxy) as (Hokm & Hleaves).
    rewrite <- Ex, <- Ey in Hokm, Hleaves.
    set (merged := mkNode x00 (wrap_int (fx + fy))
                     (if byte_to_Z my <? byte_to_Z mx then my else mx) x y) in *.
    assert (∀ k : Node → result (list Node),
      (lm ← MinChar x; rm ← MinChar y;
       let minChar := if byte_to_Z rm <? byte_to_Z lm then rm else lm in
       lf ← Freq x; rf ← Freq y;
       let merged := mkNode x00 (wrap_int (lf + rf)) minChar x y in
       k merged) = k merged) as Hk.
    { intros k. unfold merged. rewrite Ex, Ey. reflexivity. }
    rewrite (Hk (λ m, pq ← heap.Push h1'' m; merge_loop fuel1 pq)).
    rewrite (Hk (λ m, pq ← heap.Push h2'' m; merge_loop fuel2 pq)).
    pose proof (queue_ok_tail _ _ Hokm) as Hok''.
    assert (is_nil merged = false) as Hnil.
    { destruct Hokm as (Hwf & _). apply Forall_cons in Hwf as [Hwf _].
      by apply wf_tree_not_nil. }
    destruct (Push_spec h1'' merged (queue_ok_no_nil _ Hok'') Hnil Hh1'')
      as (g1 & -> & Hg1 & Hpg1).
    assert (queue_ok h2'') as Hok2'' by (by eapply queue_ok_perm).
    destruct (Push_spec h2'' merged (queue_ok_no_nil _ Hok2'') Hnil Hh2'')
      as (g2 & -> & Hg2 & Hpg2).
    cbn [mbind result_bind].
    pose proof (Permutation_length Hpy) as Hly. simpl in Hly.
    pose proof (Permutation_length Hpg1) as Hlg1. simpl in Hlg1.
    pose proof (Permutation_length Hpg2) as Hlg2. simpl in Hlg2.
    pose proof (Permutation_length Hp'') as Hl''.
    destruct (IH fuel2 g1 g2) as (t & Hm1 & Hm2 & Hwt & Hlt).
    + eapply queue_ok_perm; [symmetry; exact Hpg1|done].
    + done.
    + done.
    + by rewrite Hpg1, Hpg2, Hp''.
    + intros ->. simpl in Hlg1. lia.
    + lia.
    + lia.
    + exists t. split; [done|]. split; [done|]. split; [done|].
      rewrite Hlt, (flat_map_leaves_perm _ _ Hpg1), Hleaves.
      symmetry. apply flat_map_leaves_perm. by rewrite Hpx, Hpy.
Qed.

(** ** Pushing the leaves *)

Lemma push_leaves_spec entries : ∀ pq,
  no_nil pq → is_heap pq →
  ∃ pq', push_leaves entries pq = Ret pq' ∧ is_heap pq' ∧
         pq' ≡ₚ map leaf_of entries ++ pq.
Proof.
  induction entries as [|[b f] entries IH]; intros pq Hnn Hh.
  - exists pq. by repeat split.
  - cbn [push_leaves].
    destruct (Push_spec pq (mkNode b f b Nil Nil) Hnn eq_refl Hh)
      as (pq1 & -> & Hh1 & Hp1).
    cbn [mbind result_bind].
    destruct (IH pq1) as (pq' & Hpush & Hh' & Hp').
    + eapply no_nil_perm; [symmetry; exact Hp1|]. by constructor.
    + done.
    + exists pq'. split; [done|]. split; [done|].
      rewrite Hp', Hp1. cbn [map].
      change (leaf_of (b, f)) with (mkNode b f b Nil Nil).
      symmetry. apply Permutation_middle.
Qed.

Lemma flat_map_leaves_leaf_of (l : list (byte * Z)) :
  flat_map leaves (map leaf_of l) = l.*1.
Proof. induction l as [|[b f] l IH]; [done|]. simpl. by rewrite IH. Qed.

Lemma queue_ok_leaves (l : list (byte * Z)) :
  NoDup l.*1 → queue_ok (map leaf_of l).
Proof.
  intros Hnd. repeat split.
  - apply Forall_forall. intros t Ht. apply list_elem_of_fmap in Ht as ([b f] & -> & _).
    constructor.
  - apply Forall_forall. intros t Ht. apply list_elem_of_fmap in Ht as ([b f] & -> & _).
    simpl. by left.
  - by rewrite flat_map_leaves_leaf_of.
Qed.

(** ** [buildHuffmanTree] *)

(** The tree does not depend on the order in which the map is ranged
    over; it is well formed and its leaves are the keys of the map. *)
Lemma buildHuffmanTree_spec rng1 rng2 (freq : gmap byte Z) :
  range_ok rng1 → range_ok rng2 → freq ≠ ∅ →
  ∃ t, buildHuffmanTree rng1 freq = Ret t ∧ buildHuffmanTree rng2 freq = Ret t ∧
       wf_tree t ∧ leaves t ≡ₚ (map_to_list freq).*1.
Proof.
  intros Hr1 Hr2 Hne. unfold buildHuffmanTree.
  destruct (Nat.eqb_spec (size freq) 0) as [E|_].
  { apply map_size_empty_iff in E. done. }
  rewrite Init_nil. cbn [mbind result_bind].
  destruct (push_leaves_spec (rng1 freq) [] (Forall_nil_2 _) is_heap_nil)
    as (h1 & -> & Hh1 & Hp1).
  destruct (push_leaves_spec (rng2 freq) [] (Forall_nil_2 _) is_heap_nil)
    as (h2 & -> & Hh2 & Hp2).
  cbn [mbind result_bind]. rewrite app_nil_r in Hp1, Hp2.
  assert (h1 ≡ₚ map leaf_of (map_to_list freq)) as Hp1'.
  { rewrite Hp1. apply Permutation_map, Hr1. }
  assert (h2 ≡ₚ map leaf_of (map_to_list freq)) as Hp2'.
  { rewrite Hp2. apply Permutation_map, Hr2. }
  assert (queue_ok h1) as Hok1.
  { eapply queue_ok_perm; [symmetry; exact Hp1'|].
    apply queue_ok_leaves, NoDup_fst_map_to_list. }
  assert (h1 ≠ []) as Hne1.
  { intros ->. apply Permutation_nil_l in Hp1'. symmetry in Hp1'.
    apply map_eq_nil in Hp1'. apply map_to_list_empty_iff in Hp1'. done. }
  unfold PriorityQueue.Len.
  destruct (merge_loop_perm (length h1) (length h2) h1 h2) as (t & -> & -> & Hwt & Hlt);
    try done.
  { by rewrite Hp1', Hp2'. }
  cbn [mbind result_bind].
  assert (heap.Pop [t] = Ret (t, [])) as ->.
  { destruct (Pop_spec [t]) as (x & h' & Hpop & _ & Hp & _).
    - constructor; [by apply wf_tree_not_nil|constructor].
    - intros p c Hc. simpl in Hc. intros He. apply edge_lt in He. lia.
    - done.
    - rewrite Hpop. pose proof (Permutation_length Hp) as Hl.
      destruct h'; [|simpl in Hl; lia].
      apply Permutation_singleton_inj in Hp. by subst. }
  cbn [mbind result_bind].
  exists t. split; [done|]. split; [done|]. split; [done|].
  by rewrite Hlt, (flat_map_leaves_perm _ _ Hp1'), flat_map_leaves_leaf_of.
Qed.

(** ** Strings *)

Lemma append_cons x (a b : string) : String x a +:+ b = String x (a +:+ b).
Proof. reflexivity. Qed.

Lemma append_nil_l (b : string) : "" +:+ b = b.
Proof. reflexivity. Qed.

Lemma append_assoc (a b c : string) : (a +:+ b) +:+ c = a +:+ (b +:+ c).
Proof. induction a as [|x a IH]; [done|]. rewrite !append_cons. by rewrite IH. Qed.

Lemma append_nil_r (a : string) : a +:+ "" = a.
Proof. induction a as [|x a IH]; [done|]. rewrite append_cons. by rewrite IH. Qed.

Lemma prefix_cons a s1 b s2 :
  String.prefix (String a s1) (String b s2) = true → a = b ∧ String.prefix s1 s2 = true.
Proof. simpl. destruct (ascii_dec a b); [done|discriminate]. Qed.

(** ** Paths *)

Lemma paths_internal c f m l r :
  wf_tree l →
  paths (mkNode c f m l r) =
    map (λ e, (e.1, String "0" e.2)) (paths l)
    ++ map (λ e, (e.1, String "1" e.2)) (paths r).
Proof. intros Hl. by destruct Hl. Qed.

Lemma paths_fst t : wf_tree t → (paths t).*1 = leaves t.
Proof.
  induction 1 as [c f|c f m l r Hl IHl Hr IHr]; [done|].
  rewrite paths_internal, leaves_internal by done.
  rewrite fmap_app, <- IHl, <- IHr.
  f_equal; rewrite <- list_fmap_compose; by apply list_fmap_ext.
Qed.

Lemma paths_elem_leaves t c s : wf_tree t → (c, s) ∈ paths t → c ∈ leaves t.
Proof.
  intros Hwf Hin. rewrite <- paths_fst by done.
  apply list_elem_of_fmap. by exists (c, s).
Qed.

Lemma leaves_elem_paths t c : wf_tree t → c ∈ leaves t → ∃ s, (c, s) ∈ paths t.
Proof.
  intros Hwf Hin. rewrite <- paths_fst in Hin by done.
  apply list_elem_of_fmap in Hin as ([c' s] & -> & Hin). by exists s.
Qed.

Lemma paths_internal_elem c f m l r b s :
  wf_tree l → (b, s) ∈ paths (mkNode c f m l r) →
  (∃ s', s = String "0" s' ∧ (b, s') ∈ paths l) ∨
  (∃ s', s = String "1" s' ∧ (b, s') ∈ paths r).
Proof.
  intros Hl. rewrite paths_internal by done.
  intros [Hin|Hin]%elem_of_app; [left|right];
    apply list_elem_of_fmap in Hin as ([b' s'] & [= -> ->] & Hin); eauto.
Qed.

(** A code is shorter than the number of leaves. *)
Lemma paths_length t c s :
  wf_tree t → (c, s) ∈ paths t → (String.length s < length (leaves t))%nat.
Proof.
  intros Hwf. revert c s.
  induction Hwf as [c' f|c' f m l r Hl IHl Hr IHr]; intros c s Hin.
  - apply list_elem_of_singleton in Hin as [= -> ->]. simpl. lia.
  - rewrite leaves_internal, length_app by done.
    pose proof (leaves_nonempty l Hl). pose proof (leaves_nonempty r Hr).
    assert (0 < length (leaves l))%nat by (destruct (leaves l); [done|simpl; lia]).
    assert (0 < length (leaves r))%nat by (destruct (leaves r); [done|simpl; lia]).
    apply paths_internal_elem in Hin as [(s' & -> & Hin)|(s' & -> & Hin)]; [| |done].
    + specialize (IHl _ _ Hin). simpl. lia.
    + specialize (IHr _ _ Hin). simpl. lia.
Qed.

(** The labels to two different leaves: neither is a prefix of the other. *)
Lemma paths_prefix_free t :
  wf_tree t → NoDup (leaves t) →
  ∀ c1 s1 c2 s2, (c1, s1) ∈ paths t → (c2, s2) ∈ paths t →
    String.prefix s1 s2 = true → c1 = c2 ∧ s1 = s2.
Proof.
  induction 1 as [c f|c f m l r Hl IHl Hr IHr]; intros Hnd c1 s1 c2 s2 H1 H2 Hpre.
  - apply list_elem_of_singleton in H1 as [= -> ->].
    apply list_elem_of_singleton in H2 as [= -> ->]. done.
  - rewrite leaves_internal in Hnd by done.
    apply NoDup_app in Hnd as (Hndl & _ & Hndr).
    apply paths_internal_elem in H1 as [(s1' & -> & H1)|(s1' & -> & H1)]; [| |done];
    apply paths_internal_elem in H2 as [(s2' & -> & H2)|(s2' & -> & H2)]; try done;
    apply prefix_cons in Hpre as [Hab Hpre]; try discriminate.
    + destruct (IHl Hndl _ _ _ _ H1 H2 Hpre) as [-> ->]. done.
    + destruct (IHr Hndr _ _ _ _ H1 H2 Hpre) as [-> ->]. done.
Qed.

(** A symbol is at one leaf only. *)
Lemma paths_functional t c s1 s2 :
  wf_tree t → NoDup (leaves t) → (c, s1) ∈ paths t → (c, s2) ∈ paths t → s1 = s2.
Proof.
  intros Hwf. revert s1 s2.
  induction Hwf as [c' f|c' f m l r Hl IHl Hr IHr]; intros s1 s2 Hnd H1 H2.
  - apply list_elem_of_singleton in H1 as [= -> ->].
    apply list_elem_of_singleton in H2 as [= ->]. done.
  - rewrite leaves_internal in Hnd by done.
    apply NoDup_app in Hnd as (Hndl & Hdisj & Hndr).
    apply paths_internal_elem in H1 as [(s1' & -> & H1)|(s1' & -> & H1)]; [| |done];
    apply paths_internal_elem in H2 as [(s2' & -> & H2)|(s2' & -> & H2)]; try done.
    + f_equal. by apply IHl.
    + exfalso. eapply Hdisj; eapply paths_elem_leaves; eauto.
    + exfalso. eapply Hdisj; eapply paths_elem_leaves; eauto.
    + f_equal. by apply IHr.
Qed.

(** ** [generateCodes] *)

Lemma generateCodes_internal c f m l r p cm :
  wf_tree l →
  generateCodes (mkNode c f m l r) p cm =
    generateCodes r (p +:+ "1") (generateCodes l (p +:+ "0") cm).
Proof. intros Hl. by destruct Hl. Qed.

Lemma generateCodes_other t : wf_tree t → ∀ p cm b,
  b ∉ leaves t → generateCodes t p cm !! b = cm !! b.
Proof.
  induction 1 as [c f|c f m l r Hl IHl Hr IHr]; intros p cm b Hb.
  - simpl. apply lookup_insert_ne. intros ->. apply Hb. by left.
  - rewrite generateCodes_internal by done.
    rewrite leaves_internal in Hb by done.
    rewrite IHr, IHl; [done| |]; intros ?; apply Hb, elem_of_app; auto.
Qed.

Lemma generateCodes_path t : wf_tree t → ∀ p cm b s,
  NoDup (leaves t) → (b, s) ∈ paths t →
  generateCodes t p cm !! b = Some (p +:+ s).
Proof.
  induction 1 as [c f|c f m l r Hl IHl Hr IHr]; intros p cm b s Hnd Hin.
  - apply list_elem_of_singleton in Hin as [= -> ->]. simpl.
    rewrite append_nil_r. apply lookup_insert_eq.
  - rewrite generateCodes_internal by done.
    rewrite leaves_internal in Hnd by done.
    apply NoDup_app in Hnd as (Hndl & Hdisj & Hndr).
    apply paths_internal_elem in Hin as [(s' & -> & Hin)|(s' & -> & Hin)]; [| |done].
    + rewrite generateCodes_other; [|done|].
      * rewrite (IHl _ _ _ _ Hndl Hin). by rewrite append_assoc.
      * apply Hdisj. by eapply paths_elem_leaves.
    + rewrite (IHr _ _ _ _ Hndr Hin). by rewrite append_assoc.
Qed.

(** The code table of a tree: its entries are the paths. *)
Lemma generateCodes_lookup t b s :
  wf_tree t → NoDup (leaves t) →
  generateCodes t EmptyString ∅ !! b = Some s ↔ (b, s) ∈ paths t.
Proof.
  intros Hwf Hnd. split.
  - intros Hb. destruct (decide (b ∈ leaves t)) as [Hin|Hin].
    + apply leaves_elem_paths in Hin as [s' Hin]; [|done].
      rewrite (generateCodes_path t Hwf _ _ _ _ Hnd Hin) in Hb.
      simpl in Hb. by injection Hb as <-.
    + rewrite generateCodes_other in Hb by done. by rewrite lookup_empty in Hb.
  - intros Hin. by rewrite (generateCodes_path t Hwf _ _ _ _ Hnd Hin).
Qed.

Lemma length_bits_from v j k : length (bits_from v j k) = k.
Proof. revert j. induction k as [|k IH]; intros j; simpl; [done|]. by rewrite IH. Qed.

Lemma length_byte_bits v : length (byte_bits v) = 8%nat.
Proof. apply length_bits_from. Qed.

Lemma length_unpack bs : length (unpack bs) = (8 * length bs)%nat.
Proof.
  induction bs as [|v bs IH]; [done|].
  unfold unpack in *. cbn [flat_map]. rewrite length_app, length_byte_bits, IH.
  simpl. lia.
Qed.

Lemma walk_app root node bs1 bs2 out :
  walk root node (bs1 ++ bs2) out =
  '(node, out) ← walk root node bs1 out; walk root node bs2 out.
Proof.
  revert node out. induction bs1 as [|b bs1 IH]; intros node out; [done|].
  cbn [app walk]. destruct (step root node b out) as [[node' out']| | |]; try done.
  cbn [mbind result_bind]. apply IH.
Qed.

(** The walk returns or panics. *)
Lemma step_outcome root node b out :
  (∃ r, step root node b out = Ret r) ∨ step root node b out = Panic NilDereference.
Proof.
  unfold step. destruct node as [|c f m l r]; [destruct b; by right|].
  destruct b; simpl.
  - destruct r as [|c' f' m' l' r']; [by right|]. simpl.
    destruct (is_nil l' && is_nil r'); eauto.
  - destruct l as [|c' f' m' l' r']; [by right|]. simpl.
    destruct (is_nil l' && is_nil r'); eauto.
Qed.

Lemma walk_outcome root node bs out :
  (∃ r, walk root node bs out = Ret r) ∨ walk root node bs out = Panic NilDereference.
Proof.
  revert node out. induction bs as [|b bs IH]; intros node out; [eauto|].
  cbn [walk]. destruct (step_outcome root node b out) as [[[n o] ->]| ->]; [|by right].
  cbn [mbind result_bind]. apply IH.
Qed.

(** ** The inner loop *)

Lemma decode_bits_walk k : ∀ j root node bitsRead totalBits out v,
  0 ≤ bitsRead → totalBits < 2 ^ 64 →
  decode_bits k j root node bitsRead totalBits out v =
    let m := Nat.min k (Z.to_nat (totalBits - bitsRead)) in
    '(node, out) ← walk root node (take m (bits_from v j k)) out;
    Ret (node, bitsRead + Z.of_nat m, out).
Proof.
  induction k as [|k IH]; intros j root node bitsRead totalBits out v Hb Ht.
  - cbn. by rewrite Z.add_0_r.
  - cbn [decode_bits bits_from].
    destruct (Z.ltb_spec bitsRead totalBits) as [Hlt|Hge].
    2:{ replace (Z.to_nat (totalBits - bitsRead)) with 0%nat by lia.
        rewrite Nat.min_0_r. cbn. by rewrite Z.add_0_r. }
    assert (wrap_u64 (bitsRead + 1) = bitsRead + 1) as ->.
    { unfold wrap_u64. apply Z.mod_small. lia. }
    cbv zeta.
    assert (Nat.min (S k) (Z.to_nat (totalBits - bitsRead))
            = S (Nat.min k (Z.to_nat (totalBits - (bitsRead + 1))))) as -> by lia.
    cbn [take walk]. unfold step at 1, byte_bit at 1.
    destruct (Z.land (Z.shiftr (byte_to_Z v) (7 - j)) 1 =? 0); cbn [negb].
    + destruct (Left node) as [n1| | |]; try done. cbn [mbind result_bind].
      destruct (Left n1) as [l1| | |]; try done. cbn [mbind result_bind].
      destruct (Right n1) as [r1| | |]; try done. cbn [mbind result_bind].
      destruct (is_nil l1 && is_nil r1).
      * destruct (Char n1) as [c| | |]; try done. cbn [mbind result_bind].
        rewrite IH by lia. cbv zeta.
        destruct (walk _ _ _ _) as [[n o]| | |]; try done.
        cbn [mbind result_bind]. do 2 f_equal. f_equal. lia.
      * cbn [mbind result_bind]. rewrite IH by lia. cbv zeta.
        destruct (walk _ _ _ _) as [[n o]| | |]; try done.
        cbn [mbind result_bind]. do 2 f_equal. f_equal. lia.
    + destruct (Right node) as [n1| | |]; try done. cbn [mbind result_bind].
      destruct (Left n1) as [l1| | |]; try done. cbn [mbind result_bind].
      destruct (Right n1) as [r1| | |]; try done. cbn [mbind result_bind].
      destruct (is_nil l1 && is_nil r1).
      * destruct (Char n1) as [c| | |]; try done. cbn [mbind result_bind].
        rewrite IH by lia. cbv zeta.
        destruct (walk _ _ _ _) as [[n o]| | |]; try done.
        cbn [mbind result_bind]. do 2 f_equal. f_equal. lia.
      * cbn [mbind result_bind]. rewrite IH by lia. cbv zeta.
        destruct (walk _ _ _ _) as [[n o]| | |]; try done.
        cbn [mbind result_bind]. do 2 f_equal. f_equal. lia.
Qed.

(** ** The outer loop *)

(** [decode_loop] walks the tree on the first [totalBits - bitsRead] bits
    of the data; when the data has fewer bits, it walks on all of them and
    then indexes past the end of [bitData]. *)
Lemma decode_loop_walk bitData : ∀ root node bitsRead totalBits out,
  0 ≤ bitsRead → totalBits < 2 ^ 64 →
  decode_loop root node bitsRead totalBits out bitData =
    let n := Z.to_nat (totalBits - bitsRead) in
    if decide (n ≤ 8 * length bitData)%nat
    then '(_, out) ← walk root node (take n (unpack bitData)) out; Ret out
    else '(_, _) ← walk root node (unpack bitData) out; Panic IndexOutOfRange.
Proof.
  induction bitData as [|v bitData IH]; intros root node bitsRead totalBits out Hb Ht;
    cbn [decode_loop]; cbv zeta.
  - destruct (Z.ltb_spec bitsRead totalBits) as [Hlt|Hge].
    + rewrite decide_False by (simpl; lia). done.
    + rewrite decide_True by (simpl; lia).
      replace (Z.to_nat (totalBits - bitsRead)) with 0%nat by lia. done.
  - destruct (Z.ltb_spec bitsRead totalBits) as [Hlt|Hge].
    2:{ rewrite decide_True by (simpl; lia).
        replace (Z.to_nat (totalBits - bitsRead)) with 0%nat by lia. done. }
    unfold decode_byte. rewrite decode_bits_walk by done. cbv zeta.
    set (n := Z.to_nat (totalBits - bitsRead)).
    change (bits_from v 0 8) with (byte_bits v).
    unfold unpack. cbn [flat_map]. fold (unpack bitData).
    destruct (decide (n ≤ 8)%nat) as [Hn8|Hn8].
    + rewrite Nat.min_r by done.
      rewrite decide_True by (simpl; lia).
      rewrite take_app_le by (rewrite length_byte_bits; lia).
      destruct (walk root node (take n (byte_bits v)) out) as [[n1 o1]| | |]; try done.
      cbn [mbind result_bind].
      rewrite IH by lia. cbv zeta.
      replace (Z.to_nat (totalBits - (bitsRead + Z.of_nat n))) with 0%nat by lia.
      rewrite decide_True by lia. done.
    + rewrite Nat.min_l by lia.
      rewrite (take_ge (byte_bits v)) by (rewrite length_byte_bits; lia).
      rewrite walk_app.
      destruct (walk root node (byte_bits v) out) as [[n1 o1]| | |] eqn:Hw.
      2-4: (destruct (decide _);
            [ rewrite take_app_ge by (rewrite length_byte_bits; lia);
              rewrite walk_app, Hw; done | done ]).
      cbn [mbind result_bind].
      rewrite IH by lia. cbv zeta.
      replace (Z.to_nat (totalBits - (bitsRead + Z.of_nat 8))) with (n - 8)%nat by lia.
      destruct (decide (n - 8 ≤ 8 * length bitData)%nat).
      * rewrite decide_True by (simpl; lia).
        rewrite take_app_ge by (rewrite length_byte_bits; lia).
        rewrite length_byte_bits, walk_app, Hw. done.
      * rewrite decide_False by (simpl; lia). done.
Qed.

(** ** Walking along a code *)

Lemma paths_internal_nonempty c f m l r b s :
  wf_tree l → (b, s) ∈ paths (mkNode c f m l r) → s ≠ EmptyString.
Proof.
  intros Hl Hin.
  apply paths_internal_elem in Hin as [(s' & -> & _)|(s' & -> & _)]; done.
Qed.

Lemma step_child root c f m l r (b : bool) out child :
  child = (if b then r else l) → wf_tree child →
  step root (mkNode c f m l r) b out =
    match child with
    | mkNode c' _ _ Nil Nil => Ret (root, out ++ [c'])
    | _ => Ret (child, out)
    end.
Proof.
  intros -> Hc. unfold step.
  destruct b; cbn [Left Right mbind result_bind].
  - destruct Hc as [c' f'|c' f' m' l' r' Hl' Hr']; cbn. 1: done. by destruct Hl'.
  - destruct Hc as [c' f'|c' f' m' l' r' Hl' Hr']; cbn. 1: done. by destruct Hl'.
Qed.

Lemma walk_code root t : wf_tree t → ∀ c s rest out,
  (c, s) ∈ paths t → s ≠ EmptyString →
  walk root t (bits_of_string s ++ rest) out = walk root root rest (out ++ [c]).
Proof.
  induction 1 as [c' f|c' f m l r Hl IHl Hr IHr]; intros c s rest out Hin Hs.
  - apply list_elem_of_singleton in Hin as [= -> ->]. done.
  - apply paths_internal_elem in Hin as [(s' & -> & Hin)|(s' & -> & Hin)]; [| |done].
    + change (bits_of_string (String "0" s')) with (false :: bits_of_string s').
      cbn [app walk]. rewrite (step_child root c' f m l r false out l eq_refl Hl).
      destruct Hl as [cl fl|cl fl ml ll rl Hll Hrl].
      * apply list_elem_of_singleton in Hin as [= -> ->]. done.
      * assert (s' ≠ EmptyString)
          by exact (paths_internal_nonempty _ _ _ _ _ _ _ Hll Hin).
        destruct Hll; cbn [mbind result_bind]; by apply IHl.
    + change (bits_of_string (String "1" s')) with (true :: bits_of_string s').
      cbn [app walk]. rewrite (step_child root c' f m l r true out r eq_refl Hr).
      destruct Hr as [cr fr|cr fr mr lr rr Hlr Hrr].
      * apply list_elem_of_singleton in Hin as [= -> ->]. done.
      * assert (s' ≠ EmptyString)
          by exact (paths_internal_nonempty _ _ _ _ _ _ _ Hlr Hin).
        destruct Hlr; cbn [mbind result_bind]; by apply IHr.
Qed.

(** Decoding the bits of [data] gives [data] back. *)
Lemma walk_data root codeMap data :
  wf_tree root →
  (∀ b, b ∈ data → ∃ s, codeMap !! b = Some s ∧ (b, s) ∈ paths root ∧ s ≠ EmptyString) →
  ∀ rest out,
    walk root root (all_bits codeMap data ++ rest) out
    = walk root root rest (out ++ data).
Proof.
  intros Hwf. induction data as [|b data IH]; intros Hall rest out.
  - by rewrite app_nil_r.
  - unfold all_bits. cbn [flat_map]. fold (all_bits codeMap data).
    destruct (Hall b ltac:(by left)) as (s & Hs & Hin & Hne).
    unfold code_of at 1. rewrite Hs. cbn [default].
    rewrite <- app_assoc, (walk_code root root Hwf b s _ out Hin Hne).
    rewrite IH.
    + by rewrite <- app_assoc.
    + intros b' Hb'. apply Hall. by right.
Qed.

(** ** Bits of a byte *)

Lemma byte_bit_testbit v j :
  0 ≤ j ≤ 7 → byte_bit v j = Z.testbit (byte_to_Z v) (7 - j).
Proof.
  intros Hj. unfold byte_bit.
  rewrite Z.testbit_eqb by lia. rewrite Z.shiftr_div_pow2 by lia.
  change 1 with (Z.ones 1) at 1. rewrite Z.land_ones by lia.
  change (2 ^ 1) with 2.
  pose proof (Z.mod_pos_bound (byte_to_Z v / 2 ^ (7 - j)) 2 eq_refl).
  destruct (Z.eqb_spec ((byte_to_Z v / 2 ^ (7 - j)) mod 2) 0) as [->|];
    destruct (Z.eqb_spec ((byte_to_Z v / 2 ^ (7 - j)) mod 2) 1); simpl; lia || done.
Qed.

Lemma byte_bit_of_Z z j :
  0 ≤ j ≤ 7 → byte_bit (byte_of_Z z) j = Z.testbit z (7 - j).
Proof.
  intros Hj. rewrite byte_bit_testbit by done. rewrite byte_to_of_Z.
  change 256 with (2 ^ 8). apply Z.mod_pow2_bits_low. lia.
Qed.

Lemma nth_bits_from v k : ∀ j i,
  (i < k)%nat → nth i (bits_from v j k) false = byte_bit v (j + Z.of_nat i).
Proof.
  induction k as [|k IH]; intros j i Hi; [lia|].
  cbn [bits_from]. destruct i as [|i].
  - simpl. by rewrite Z.add_0_r.
  - cbn [nth]. rewrite IH by lia. f_equal. lia.
Qed.

(** The byte the encoder writes for an accumulator holds its bits. *)
Lemma byte_bits_of_Z z (bs : list bool) :
  length bs = 8%nat →
  (∀ j, (j < 8)%nat → Z.testbit z (7 - Z.of_nat j) = nth j bs false) →
  byte_bits (byte_of_Z z) = bs.
Proof.
  intros Hlen Hbits. apply (nth_ext _ _ false false).
  - by rewrite length_byte_bits.
  - intros j Hj. rewrite length_byte_bits in Hj.
    unfold byte_bits. rewrite nth_bits_from by done.
    rewrite byte_bit_of_Z by lia. rewrite Z.add_0_l. by apply Hbits.
Qed.

Lemma unpack_app a b : unpack (a ++ b) = unpack a ++ unpack b.
Proof. unfold unpack. by rewrite flat_map_app. Qed.

Lemma unpack_singleton v : unpack [v] = byte_bits v.
Proof. unfold unpack. cbn [flat_map]. apply app_nil_r. Qed.

(** ** One bit *)

Lemma encode_bit_inv e full tail a :
  enc_inv e full tail →
  Z.of_nat (length full + length tail) + 1 < 2 ^ 63 →
  ∃ full' tail',
    enc_inv (encode_bit e a) full' tail' ∧
    full' ++ tail' = full ++ tail ++ [Ascii.eqb a "1"].
Proof.
  intros (Hbuf & Hcnt & Hr & Hacc & Htot) Hbound.
  set (b := Ascii.eqb a "1"). set (r := length tail) in *.
  (* the accumulator after the bit *)
  set (acc := if b then Z.lor (bitBuf e) (wrap_u8 (Z.shiftl 1 (wrap_u8 (7 - bitCount e))))
              else bitBuf e).
  assert (∀ j, (j < 8)%nat →
            Z.testbit acc (7 - Z.of_nat j) = nth j (tail ++ [b]) false) as Hacc'.
  { intros j Hj. unfold acc.
    assert (nth j (tail ++ [b]) false
            = if decide (j = r) then b else nth j tail false) as ->.
    { destruct (decide (j = r)) as [->|Hne].
      - rewrite app_nth2 by (fold r; lia). fold r. by rewrite Nat.sub_diag.
      - destruct (decide (j < r)%nat).
        + by rewrite app_nth1 by (fold r; lia).
        + rewrite !nth_overflow; [done|fold r; lia|].
          rewrite length_app. fold r. simpl. lia. }
    destruct b.
    - rewrite Hcnt. unfold wrap_u8.
      rewrite (Z.mod_small (7 - Z.of_nat r)) by lia.
      rewrite Z.shiftl_1_l.
      assert (2 ^ (7 - Z.of_nat r) ≤ 2 ^ 7) by (apply Z.pow_le_mono_r; lia).
      assert (0 < 2 ^ (7 - Z.of_nat r)) by (apply Z.pow_pos_nonneg; lia).
      rewrite Z.mod_small by lia.
      rewrite Z.lor_spec, Z.pow2_bits_eqb by lia.
      rewrite Hacc by done.
      destruct (decide (j = r)) as [->|Hne].
      + rewrite Z.eqb_refl. by rewrite orb_true_r.
      + destruct (Z.eqb_spec (7 - Z.of_nat r) (7 - Z.of_nat j)); [lia|].
        by rewrite orb_false_r.
    - rewrite Hacc by done.
      destruct (decide (j = r)) as [->|Hne]; [|done].
      apply nth_overflow. fold r. lia. }
  unfold encode_bit. fold b. fold acc. rewrite Hcnt, Htot.
  assert (wrap_u8 (Z.of_nat r + 1) = Z.of_nat r + 1) as ->
    by (unfold wrap_u8; apply Z.mod_small; lia).
  assert (wrap_int (Z.of_nat (length full + r) + 1) = Z.of_nat (length full + r) + 1) as ->
    by (unfold wrap_int; rewrite Z.mod_small by lia; lia).
  destruct (Z.eqb_spec (Z.of_nat r + 1) 8) as [E|E].
  - exists (full ++ tail ++ [b]), []. split; [|by rewrite app_nil_r].
    repeat split; cbn [buf bitBuf bitCount totalBits length].
    + rewrite unpack_app, unpack_singleton, Hbuf. f_equal.
      apply byte_bits_of_Z; [|done]. rewrite length_app. fold r. simpl. lia.
    + lia.
    + intros j Hj. rewrite Z.testbit_0_l. by destruct j.
    + rewrite !length_app. fold r. simpl. lia.
  - exists full, (tail ++ [b]). split; [|done].
    repeat split; cbn [buf bitBuf bitCount totalBits].
    + done.
    + rewrite length_app. fold r. simpl. lia.
    + rewrite length_app. fold r. simpl. lia.
    + done.
    + rewrite length_app. fold r. simpl. lia.
Qed.

(** ** A run of bits *)

Lemma encode_bits_inv chars : ∀ e full tail,
  enc_inv e full tail →
  Z.of_nat (length full + length tail + length chars) < 2 ^ 63 →
  ∃ full' tail',
    enc_inv (foldl encode_bit e chars) full' tail' ∧
    full' ++ tail' = full ++ tail ++ map (λ a, Ascii.eqb a "1") chars.
Proof.
  induction chars as [|a chars IH]; intros e full tail Hinv Hbound.
  - exists full, tail. by rewrite app_nil_r.
  - cbn [foldl]. cbn [length] in Hbound.
    destruct (encode_bit_inv e full tail a Hinv ltac:(lia)) as (f1 & t1 & Hinv1 & E1).
    assert (length f1 + length t1 = length full + length tail + 1)%nat as Hl.
    { rewrite <- length_app, E1, !length_app. simpl. lia. }
    destruct (IH _ f1 t1 Hinv1 ltac:(lia)) as (f2 & t2 & Hinv2 & E2).
    exists f2, t2. split; [done|].
    rewrite E2, app_assoc, E1. cbn [map]. by rewrite <- !app_assoc.
Qed.

(** ** [encodeDataWithCount] *)

Lemma foldl_encode_byte codeMap data : ∀ e,
  foldl (encode_byte codeMap) e data
  = foldl encode_bit e
      (flat_map (λ b, list_ascii_of_string (code_of codeMap b)) data).
Proof.
  induction data as [|b data IH]; intros e; [done|].
  cbn [foldl flat_map]. rewrite foldl_app, IH. done.
Qed.

Lemma all_bits_chars codeMap data :
  all_bits codeMap data
  = map (λ a, Ascii.eqb a "1")
      (flat_map (λ b, list_ascii_of_string (code_of codeMap b)) data).
Proof.
  induction data as [|b data IH]; [done|].
  unfold all_bits in *. cbn [flat_map]. rewrite map_app, IH. done.
Qed.

(** The packed bytes hold the bits of the codes, most significant bit
    first, followed by fewer than 8 zero bits; the count is the number of
    bits of the codes. *)
Lemma encodeDataWithCount_spec data codeMap :
  let bits := all_bits codeMap data in
  Z.of_nat (length bits) < 2 ^ 63 →
  ∃ pad, (pad < 8)%nat ∧
    unpack (encodeDataWithCount data codeMap).1 = bits ++ repeat false pad ∧
    (encodeDataWithCount data codeMap).2 = Z.of_nat (length bits).
Proof.
  intros bits Hbound. unfold encodeDataWithCount.
  rewrite foldl_encode_byte.
  set (chars := flat_map (λ b, list_ascii_of_string (code_of codeMap b)) data).
  assert (bits = map (λ a, Ascii.eqb a "1") chars) as Hbits
    by apply all_bits_chars.
  destruct (encode_bits_inv chars (mkEncoder [] 0 0 0) [] [])
    as (full & tail & (Hbuf & Hcnt & Hr & Hacc & Htot) & E).
  { repeat split; cbn; try done; try lia.
    intros j Hj. rewrite Z.testbit_0_l. by destruct j. }
  { cbn [length]. rewrite Hbits, length_map in Hbound. lia. }
  cbn [app] in E. rewrite <- Hbits in E.
  set (e := foldl encode_bit (mkEncoder [] 0 0 0) chars) in *.
  cbv zeta. cbn [fst snd]. rewrite Htot, <- length_app, E.
  destruct (Z.ltb_spec 0 (bitCount e)) as [Hpos|Hzero].
  - exists (8 - length tail)%nat. split; [lia|]. split; [|done].
    rewrite unpack_app, unpack_singleton, Hbuf, <- E, <- app_assoc. f_equal.
    apply byte_bits_of_Z.
    + rewrite length_app, repeat_length. lia.
    + intros j Hj. rewrite Hacc by done.
      destruct (decide (j < length tail)%nat).
      * by rewrite app_nth1.
      * rewrite app_nth2 by lia. rewrite nth_overflow by lia.
        symmetry. apply nth_repeat.
  - exists 0%nat. split; [lia|]. split; [|done].
    assert (tail = []) as -> by (destruct tail; [done|simpl in Hcnt; lia]).
    cbn [repeat]. rewrite app_nil_r in *. congruence.
Qed.

(** ** The frequency table *)

Lemma buildFrequencyTable_snoc data x :
  buildFrequencyTable (data ++ [x]) =
    <[x := wrap_int (default 0 (buildFrequencyTable data !! x) + 1)]>
      (buildFrequencyTable data).
Proof. unfold buildFrequencyTable. by rewrite foldl_app. Qed.

(** The keys of the table are the bytes of the data. *)
Lemma buildFrequencyTable_dom data b :
  is_Some (buildFrequencyTable data !! b) ↔ b ∈ data.
Proof.
  induction data as [|x data IH] using rev_ind.
  - unfold buildFrequencyTable. simpl. rewrite lookup_empty.
    split; [by intros [? ?]|by intros ?%elem_of_nil].
  - rewrite buildFrequencyTable_snoc, elem_of_app, list_elem_of_singleton.
    destruct (decide (b = x)) as [->|Hne].
    + rewrite lookup_insert_eq. split; eauto.
    + rewrite lookup_insert_ne by done. rewrite IH. tauto.
Qed.

Lemma buildFrequencyTable_nonempty data :
  data ≠ [] → buildFrequencyTable data ≠ ∅.
Proof.
  destruct data as [|x data]; [done|]. intros _ E.
  assert (is_Some (buildFrequencyTable (x :: data) !! x)) as [? H].
  { apply buildFrequencyTable_dom. by left. }
  rewrite E in H. by rewrite lookup_empty in H.
Qed.

(** Without overflow of [int], the values are the numbers of occurrences. *)
Lemma buildFrequencyTable_lookup data :
  (∀ b, Z.of_nat (occurrences data b) < 2 ^ 63) →
  ∀ b, buildFrequencyTable data !! b =
       if (occurrences data b =? 0)%nat then None
       else Some (Z.of_nat (occurrences data b)).
Proof.
  unfold occurrences.
  induction data as [|x data IH] using rev_ind; intros Hbound b.
  - unfold buildFrequencyTable. simpl. by rewrite lookup_empty.
  - assert (∀ b, Z.of_nat (count_occ byte_eq_dec data b) < 2 ^ 63) as Hbound'.
    { intros b'. specialize (Hbound b'). rewrite count_occ_app in Hbound. lia. }
    specialize (IH Hbound').
    rewrite buildFrequencyTable_snoc, count_occ_app. cbn [count_occ].
    destruct (decide (b = x)) as [->|Hne].
    + rewrite lookup_insert_eq. destruct (byte_eq_dec x x) as [_|]; [|done].
      specialize (Hbound x). rewrite count_occ_app in Hbound. cbn [count_occ] in Hbound.
      destruct (byte_eq_dec x x) as [_|]; [|done].
      rewrite IH.
      destruct (Nat.eqb_spec (count_occ byte_eq_dec data x) 0) as [E|E];
        (destruct (Nat.eqb_spec (count_occ byte_eq_dec data x + 1) 0); [lia|]);
        cbn [default from_option id]; f_equal; unfold wrap_int;
        rewrite Z.mod_small by lia; lia.
    + rewrite lookup_insert_ne by done.
      destruct (byte_eq_dec x b) as [->|_]; [done|].
      rewrite Nat.add_0_r. apply IH.
Qed.

(** ** Counting bytes *)

Lemma elem_of_all_bytes b : b ∈ all_bytes.
Proof.
  unfold all_bytes. apply list_elem_of_fmap.
  exists (Z.to_nat (byte_to_Z b)). pose proof (byte_to_Z_range b). split.
  - rewrite Z2Nat.id by lia. by rewrite byte_of_to_Z.
  - apply elem_of_seq. lia.
Qed.

Lemma length_all_bytes : length all_bytes = 256%nat.
Proof. unfold all_bytes. by rewrite length_map, length_seq. Qed.

Lemma NoDup_bytes_length (l : list byte) : NoDup l → (length l ≤ 256)%nat.
Proof.
  intros Hnd. rewrite <- length_all_bytes. apply submseteq_length.
  apply NoDup_submseteq; [done|]. intros x _. apply elem_of_all_bytes.
Qed.

Lemma size_byte_map {A} (m : gmap byte A) : (size m ≤ 256)%nat.
Proof.
  rewrite <- length_map_to_list.
  rewrite <- (length_fmap fst). apply NoDup_bytes_length, NoDup_fst_map_to_list.
Qed.

Lemma occurrences_cons x data b :
  occurrences (x :: data) b
  = ((if decide (x = b) then 1 else 0) + occurrences data b)%nat.
Proof.
  unfold occurrences. cbn [count_occ].
  destruct (byte_eq_dec x b) as [->|Hne].
  - by rewrite decide_True.
  - by rewrite decide_False.
Qed.

Lemma length_le_sum_occurrences (S data : list byte) :
  (∀ x, x ∈ data → x ∈ S) →
  (length data ≤ list_sum (map (occurrences data) S))%nat.
Proof.
  induction data as [|x data IH]; intros Hin; [simpl; lia|].
  assert (list_sum (map (occurrences (x :: data)) S)
          = (occurrences S x + list_sum (map (occurrences data) S))%nat) as ->.
  { clear. induction S as [|s S IHS]; [done|].
    rewrite !map_cons. change (list_sum (?a :: ?l)) with (a + list_sum l)%nat.
    rewrite IHS, !occurrences_cons.
    destruct (decide (x = s)) as [->|Hne].
    - rewrite decide_True by done. lia.
    - rewrite decide_False by done. lia. }
  assert (occurrences S x > 0)%nat.
  { apply count_occ_In, list_elem_of_In, Hin. by left. }
  specialize (IH ltac:(intros y Hy; apply Hin; by right)).
  simpl. lia.
Qed.

Lemma list_sum_le_bound {A} (f : A → nat) (l : list A) (M : nat) :
  (∀ x, f x ≤ M)%nat → (list_sum (map f l) ≤ length l * M)%nat.
Proof.
  intros Hf. induction l as [|x l IH]; [simpl; lia|].
  rewrite map_cons. change (list_sum (?a :: ?l)) with (a + list_sum l)%nat.
  cbn [length]. specialize (Hf x). lia.
Qed.

(** A byte sequence in which no byte occurs more than [M] times has at
    most [256 * M] bytes. *)
Lemma length_le_occurrences data (M : nat) :
  (∀ b, occurrences data b ≤ M)%nat → (length data ≤ 256 * M)%nat.
Proof.
  intros HM.
  pose proof (length_le_sum_occurrences all_bytes data
                (λ x _, elem_of_all_bytes x)) as H1.
  pose proof (list_sum_le_bound (occurrences data) all_bytes M HM) as H2.
  rewrite length_all_bytes in H2. lia.
Qed.

(** ** The header *)

Lemma writeHeader_eq rng freq :
  writeHeader rng freq =
    le_bytes 2 (wrap_u16 (Z.of_nat (size freq))) ++ concat (map entry_bytes (rng freq)).
Proof.
  unfold writeHeader. do 2 f_equal. apply map_ext. by intros [b f].
Qed.

Lemma read_entries_app (l : list (byte * Z)) : ∀ freq rest,
  read_entries (length l) freq (concat (map entry_bytes l) ++ rest)
  = Ret (foldl (λ m e, <[e.1 := wrap_u32 e.2]> m) freq l, rest).
Proof.
  induction l as [|[b f] l IH]; intros freq rest; [done|].
  cbn [length read_entries map concat entry_bytes fst snd app].
  rewrite <- !app_assoc, binary_Read_le_bytes.
  change (256 ^ Z.of_nat 4) with (2 ^ 32).
  unfold wrap_u32 at 1. rewrite Z.mod_mod by done.
  rewrite IH. done.
Qed.

Lemma foldl_insert_list_to_map {A B} (g : A → B) (l : list (byte * A)) :
  foldl (λ (m : gmap byte B) e, <[e.1 := g e.2]> m) ∅ l
  = list_to_map (reverse (prod_map id g <$> l)).
Proof.
  induction l as [|[b a] l IH] using rev_ind; [done|].
  rewrite foldl_app, fmap_app, reverse_app. cbn. by rewrite IH.
Qed.

Lemma foldl_insert_range {A B} (g : A → B) (l : list (byte * A)) (m : gmap byte A) :
  l ≡ₚ map_to_list m →
  foldl (λ (m : gmap byte B) e, <[e.1 := g e.2]> m) ∅ l = g <$> m.
Proof.
  intros Hp. rewrite foldl_insert_list_to_map.
  symmetry. apply list_to_map_flip.
  rewrite map_to_list_fmap, reverse_Permutation. by rewrite Hp.
Qed.

(** Reading back a header gives the table with every count reduced
    modulo [2^32]. *)
Lemma read_header_writeHeader rng (freq : gmap byte Z) rest :
  range_ok rng →
  read_header (writeHeader rng freq ++ rest) = Ret (wrap_u32 <$> freq, rest).
Proof.
  intros Hr. unfold read_header. rewrite writeHeader_eq, <- app_assoc.
  rewrite binary_Read_le_bytes.
  pose proof (size_byte_map freq) as Hsz.
  assert (Z.to_nat (wrap_u16 (Z.of_nat (size freq)) mod 256 ^ Z.of_nat 2)
          = length (rng freq)) as ->.
  { rewrite (Permutation_length (Hr freq)), length_map_to_list.
    unfold wrap_u16. change (256 ^ Z.of_nat 2) with (2 ^ 16).
    rewrite Z.mod_mod by done. rewrite Z.mod_small; lia. }
  rewrite read_entries_app. by rewrite (foldl_insert_range wrap_u32 _ freq (Hr freq)).
Qed.

Lemma fmap_wrap_u32_id (freq : gmap byte Z) :
  map_Forall (λ _ f, 0 ≤ f < 2 ^ 32) freq → wrap_u32 <$> freq = freq.
Proof.
  intros Hall. apply map_eq. intros b. rewrite lookup_fmap.
  destruct (freq !! b) as [f|] eqn:E; [|done]. simpl. f_equal.
  unfold wrap_u32. apply Z.mod_small. exact (Hall b f E).
Qed.

(** ** The two entry points *)

(** What [HuffmanCompress] returns on a non-empty file. *)
Lemma HuffmanCompress_Ret fs rngT rngH path B :
  range_ok rngT → fs path = Some B → B ≠ [] →
  ∃ root,
    buildHuffmanTree rngT (buildFrequencyTable B) = Ret root ∧
    wf_tree root ∧
    leaves root ≡ₚ (map_to_list (buildFrequencyTable B)).*1 ∧
    HuffmanCompress fs rngT rngH path =
      let enc := encodeDataWithCount B (generateCodes root EmptyString ∅) in
      Ret (writeHeader rngH (buildFrequencyTable B)
           ++ le_bytes 8 (wrap_u64 enc.2) ++ enc.1).
Proof.
  intros Hr Hfs HB.
  destruct (buildHuffmanTree_spec rngT rngT (buildFrequencyTable B) Hr Hr
              (buildFrequencyTable_nonempty B HB)) as (root & Hroot & _ & Hwf & Hl).
  exists root. split; [done|]. split; [done|]. split; [done|].
  unfold HuffmanCompress. rewrite Hfs.
  destruct (Nat.eqb_spec (length B) 0) as [E|_].
  { destruct B; [done|simpl in E; lia]. }
  rewrite Hroot. cbn [mbind result_bind].
  by destruct (encodeDataWithCount B (generateCodes root EmptyString ∅)).
Qed.

(** What [HuffmanDecompress] does on a well-framed blob. *)
Lemma HuffmanDecompress_framed rngH rngD (freq : gmap byte Z) tb encoded :
  range_ok rngH → 0 ≤ tb < 2 ^ 64 →
  HuffmanDecompress rngD (writeHeader rngH freq ++ le_bytes 8 tb ++ encoded) =
    root ← buildHuffmanTree rngD (wrap_u32 <$> freq);
    if is_nil root then Err InvalidTree
    else decode_loop root root 0 tb [] encoded.
Proof.
  intros Hr Htb. unfold HuffmanDecompress.
  rewrite read_header_writeHeader by done. cbn [mbind result_bind].
  rewrite binary_Read_le_bytes.
  change (256 ^ Z.of_nat 8) with (2 ^ 64). rewrite Z.mod_small by done. done.
Qed.

(** A tree with two leaves is not a leaf: no code is empty. *)
Lemma paths_nonempty t b1 b2 c s :
  wf_tree t → b1 ∈ leaves t → b2 ∈ leaves t → b1 ≠ b2 →
  (c, s) ∈ paths t → s ≠ EmptyString.
Proof.
  intros Hwf H1 H2 Hne Hin. destruct Hwf as [c' f|c' f m l r Hl Hr].
  - apply list_elem_of_singleton in H1, H2. congruence.
  - exact (paths_internal_nonempty _ _ _ _ _ _ _ Hl Hin).
Qed.

Lemma length_bits_of_string s : length (bits_of_string s) = String.length s.
Proof.
  unfold bits_of_string. rewrite length_map.
  induction s as [|a s IH]; [done|]. simpl. by rewrite IH.
Qed.

Lemma length_all_bits codeMap data (L : nat) :
  (∀ b, b ∈ data → String.length (code_of codeMap b) ≤ L)%nat →
  (length (all_bits codeMap data) ≤ length data * L)%nat.
Proof.
  induction data as [|b data IH]; intros Hall; [simpl; lia|].
  unfold all_bits. cbn [flat_map]. fold (all_bits codeMap data).
  rewrite length_app, length_bits_of_string. cbn [length].
  specialize (Hall b ltac:(by left)) as Hb.
  specialize (IH ltac:(intros b' Hb'; apply Hall; by right)). lia.
Qed.

(** The values of the table of a file that has fewer than [2^32]
    occurrences of every byte fit the header field. *)
Lemma buildFrequencyTable_u32 B :
  (∀ b, Z.of_nat (occurrences B b) < 2 ^ 32) →
  map_Forall (λ _ f, 0 ≤ f < 2 ^ 32) (buildFrequencyTable B).
Proof.
  intros Hocc b f Hf.
  rewrite buildFrequencyTable_lookup in Hf by (intros b'; specialize (Hocc b'); lia).
  destruct (occurrences B b =? 0)%nat; [done|].
  injection Hf as <-. specialize (Hocc b). lia.
Qed.

(** The round trip, from the tree on. *)
Lemma decode_encoded root B :
  wf_tree root → NoDup (leaves root) →
  (∃ b1 b2, b1 ∈ leaves root ∧ b2 ∈ leaves root ∧ b1 ≠ b2) →
  (∀ b, b ∈ B → b ∈ leaves root) →
  Z.of_nat (length B) * 256 < 2 ^ 63 →
  let enc := encodeDataWithCount B (generateCodes root EmptyString ∅) in
  0 ≤ enc.2 < 2 ^ 63 ∧
  decode_loop root root 0 enc.2 [] enc.1 = Ret B.
Proof.
  intros Hwf Hnd (b1 & b2 & H1 & H2 & Hne) HB Hlen.
  set (cm := generateCodes root EmptyString ∅).
  assert (∀ b, b ∈ B → ∃ s, cm !! b = Some s ∧ (b, s) ∈ paths root ∧ s ≠ EmptyString)
    as Hcodes.
  { intros b Hb. destruct (leaves_elem_paths root b Hwf (HB b Hb)) as [s Hs].
    exists s. split; [by apply generateCodes_lookup|]. split; [done|].
    exact (paths_nonempty root b1 b2 b s Hwf H1 H2 Hne Hs). }
  assert (length (leaves root) ≤ 256)%nat as Hleaves by (by apply NoDup_bytes_length).
  assert (length (all_bits cm B) ≤ length B * 256)%nat as Hbits.
  { apply length_all_bits. intros b Hb.
    destruct (Hcodes b Hb) as (s & Hs & Hin & _).
    unfold code_of. rewrite Hs. cbn [default from_option id].
    pose proof (paths_length root b s Hwf Hin). lia. }
  destruct (encodeDataWithCount_spec B cm ltac:(cbv zeta; lia))
    as (pad & Hpad & Hunpack & Htb).
  cbv zeta. rewrite Htb. split; [lia|].
  rewrite decode_loop_walk by lia. cbv zeta.
  rewrite Z.sub_0_r, Nat2Z.id.
  pose proof (length_unpack (encodeDataWithCount B cm).1) as Hlu.
  rewrite Hunpack, length_app, repeat_length in Hlu.
  rewrite decide_True by lia.
  rewrite Hunpack, take_app_length.
  pose proof (walk_data root cm B Hwf Hcodes [] []) as Hw.
  rewrite app_nil_r in Hw. rewrite Hw. done.
Qed.

Lemma range_fwd_ok : range_ok range_fwd.
Proof. intros m. reflexivity. Qed.

Lemma range_bwd_ok : range_ok range_bwd.
Proof. intros m. apply reverse_Permutation. Qed.

Lemma occurrences_le_length data b : (occurrences data b ≤ length data)%nat.
Proof. apply count_occ_bound. Qed.

Lemma elem_of_leaves_of_data rngT B root :
  buildHuffmanTree rngT (buildFrequencyTable B) = Ret root →
  leaves root ≡ₚ (map_to_list (buildFrequencyTable B)).*1 →
  ∀ b, b ∈ B → b ∈ leaves root.
Proof.
  intros _ Hl b Hb. rewrite Hl.
  apply buildFrequencyTable_dom in Hb as [f Hf].
  apply list_elem_of_fmap. exists (b, f). split; [done|].
  by apply elem_of_map_to_list.
Qed.

(** C1 (amended). For every byte sequence B that has at least two distinct
    byte values and in which every byte value occurs fewer than 2^32
    times, whatever the orders in which the three [range] loops visit the
    frequency table, [HuffmanCompress] returns a blob and
    [HuffmanDecompress] of that blob returns exactly B. *)
Theorem roundtrip fs rngT rngH rngD path B :
  range_ok rngT → range_ok rngH → range_ok rngD →
  fs path = Some B →
  (∃ b1 b2, b1 ∈ B ∧ b2 ∈ B ∧ b1 ≠ b2) →
  (∀ b, Z.of_nat (occurrences B b) < 2 ^ 32) →
  ∃ blob, HuffmanCompress fs rngT rngH path = Ret blob ∧
          HuffmanDecompress rngD blob = Ret B.
Proof.
  intros HrT HrH HrD Hfs (b1 & b2 & H1 & H2 & Hne) Hocc.
  assert (B ≠ []) as HB by (intros ->; by apply elem_of_nil in H1).
  destruct (HuffmanCompress_Ret fs rngT rngH path B HrT Hfs HB)
    as (root & Hroot & Hwf & Hl & Hc).
  pose proof (elem_of_leaves_of_data rngT B root Hroot Hl) as Hin.
  assert (NoDup (leaves root)) as Hnd.
  { rewrite Hl. apply NoDup_fst_map_to_list. }
  assert (Z.of_nat (length B) * 256 < 2 ^ 63) as Hlen.
  { pose proof (length_le_occurrences B (Z.to_nat (2 ^ 32 - 1))) as Hle.
    assert (length B ≤ 256 * Z.to_nat (2 ^ 32 - 1))%nat as Hle'.
    { apply Hle. intros b. specialize (Hocc b). lia. }
    lia. }
  destruct (decode_encoded root B Hwf Hnd
              ltac:(exists b1, b2; auto) Hin Hlen) as [Htb Hdec].
  cbv zeta in Hc, Htb, Hdec.
  eexists. split; [exact Hc|].
  assert (wrap_u64 (encodeDataWithCount B (generateCodes root EmptyString ∅)).2
          = (encodeDataWithCount B (generateCodes root EmptyString ∅)).2) as ->
    by (unfold wrap_u64; apply Z.mod_small; lia).
  rewrite HuffmanDecompress_framed by (done || lia).
  rewrite fmap_wrap_u32_id by (by apply buildFrequencyTable_u32).
  destruct (buildHuffmanTree_spec rngT rngD (buildFrequencyTable B) HrT HrD
              (buildFrequencyTable_nonempty B HB)) as (t & Ht1 & Ht2 & _).
  assert (t = root) as -> by congruence.
  rewrite Ht2. cbn [mbind result_bind].
  rewrite (wf_tree_not_nil root Hwf). exact Hdec.
Qed.

(** C4 (amended). Two invocations of compress on the same non-empty B
    return blobs that differ at most in the order of the header entries:
    the entry count, the bytes after the entries (totalBitCount and
    packed bits) and the entries themselves are the same, the entries of
    each blob being listed in the order in which that invocation's
    [writeHeader] ranged over the table. *)
Theorem determinism_up_to_header_order fs rngT rngH rngT' rngH' path B :
  range_ok rngT → range_ok rngH → range_ok rngT' → range_ok rngH' →
  fs path = Some B → B ≠ [] →
  ∃ count tail,
    HuffmanCompress fs rngT rngH path =
      Ret (count ++ concat (map entry_bytes (rngH (buildFrequencyTable B))) ++ tail) ∧
    HuffmanCompress fs rngT' rngH' path =
      Ret (count ++ concat (map entry_bytes (rngH' (buildFrequencyTable B))) ++ tail) ∧
    rngH (buildFrequencyTable B) ≡ₚ rngH' (buildFrequencyTable B).
Proof.
  intros HrT HrH HrT' HrH' Hfs HB.
  destruct (HuffmanCompress_Ret fs rngT rngH path B HrT Hfs HB)
    as (root & Hroot & _ & _ & Hc).
  destruct (HuffmanCompress_Ret fs rngT' rngH' path B HrT' Hfs HB)
    as (root' & Hroot' & _ & _ & Hc').
  destruct (buildHuffmanTree_spec rngT rngT' (buildFrequencyTable B) HrT HrT'
              (buildFrequencyTable_nonempty B HB)) as (t & Ht1 & Ht2 & _).
  assert (root = t) as -> by congruence.
  assert (root' = t) as -> by congruence.
  cbv zeta in Hc, Hc'. rewrite writeHeader_eq, <- app_assoc in Hc, Hc'.
  eexists _, _. split; [exact Hc|]. split; [exact Hc'|].
  by rewrite (HrH _), (HrH' _).
Qed.

(** C6. For every non-empty frequency table, whatever the order in which
    the table is ranged over, the tree is built and in the code table
    generated from it no code is a prefix of the code of another symbol,
    nor of any other code. *)
Theorem prefix_code_validity rng (freq : gmap byte Z) :
  range_ok rng → freq ≠ ∅ →
  ∃ root, buildHuffmanTree rng freq = Ret root ∧
    ∀ b1 b2 c1 c2,
      generateCodes root EmptyString ∅ !! b1 = Some c1 →
      generateCodes root EmptyString ∅ !! b2 = Some c2 →
      b1 ≠ b2 ∨ c1 ≠ c2 →
      String.prefix c1 c2 = false.
Proof.
  intros Hr Hne.
  destruct (buildHuffmanTree_spec rng rng freq Hr Hr Hne) as (root & Hroot & _ & Hwf & Hl).
  assert (NoDup (leaves root)) as Hnd.
  { rewrite Hl. apply NoDup_fst_map_to_list. }
  exists root. split; [done|].
  intros b1 b2 c1 c2 H1 H2 Hdiff.
  apply generateCodes_lookup in H1, H2; try done.
  destruct (String.prefix c1 c2) eqn:Hpre; [|done].
  destruct (paths_prefix_free root Hwf Hnd b1 c1 b2 c2 H1 H2 Hpre) as [-> ->].
  by destruct Hdiff.
Qed.

(** C7. [HuffmanCompress] on a file of zero length returns the error
    "cannot compress empty file" and no blob. *)
Theorem empty_rejection fs rngT rngH path :
  fs path = Some [] →
  HuffmanCompress fs rngT rngH path = Err EmptyFile.
Proof. intros Hfs. unfold HuffmanCompress. by rewrite Hfs. Qed.

(** ** Truncated headers *)

Lemma read_entries_outcome n : ∀ freq r,
  (∃ freq' r', read_entries n freq r = Ret (freq', r') ∧
               length r = (5 * n + length r')%nat) ∨
  (∃ e, read_entries n freq r = Err e ∧ FramingError e = true ∧
        (length r < 5 * n)%nat).
Proof.
  induction n as [|n IH]; intros freq r.
  - left. exists freq, r. split; [done|]. simpl. lia.
  - cbn [read_entries]. destruct r as [|b r].
    { right. exists ReadHeaderByteFailed. repeat split. simpl. lia. }
    destruct (binary_Read 4 r) as [[count r2]|] eqn:Hrd.
    + apply binary_Read_Some in Hrd as (Hr & Hlen & _ & _).
      assert (length r = 4 + length r2)%nat as Hl.
      { rewrite Hr at 1. rewrite length_app, Hlen. done. }
      destruct (IH (<[b := count]> freq) r2)
        as [(freq' & r' & -> & Hl2)|(e & -> & He & Hl2)].
      * left. exists freq', r'. split; [done|]. cbn [length]. lia.
      * right. exists e. repeat split; [done|]. cbn [length]. lia.
    + right. exists ReadHeaderFreqFailed. repeat split. cbn [length].
      unfold binary_Read in Hrd.
      destruct (Nat.ltb_spec (length r) 4); [lia|done].
Qed.

(** A blob that ends before the end of its bit-length field. *)
Lemma HuffmanDecompress_short rng blob :
  match binary_Read 2 blob with
  | None => True
  | Some (n, r) => (length r < 5 * Z.to_nat n + 8)%nat
  end →
  ∃ e, HuffmanDecompress rng blob = Err e ∧ FramingError e = true.
Proof.
  unfold HuffmanDecompress, read_header.
  destruct (binary_Read 2 blob) as [[n r]|]; [|by eexists].
  intros Hlen.
  destruct (read_entries_outcome (Z.to_nat n) ∅ r)
    as [(freq' & r' & -> & Hl)|(e & -> & He & _)]; [|by exists e].
  cbn [mbind result_bind].
  rewrite binary_Read_short by lia. by eexists.
Qed.

(** The size of a header that parses. *)
Lemma header_length full freq r tb bitData :
  read_header full = Ret (freq, r) → binary_Read 8 r = Some (tb, bitData) →
  ∃ n r0, binary_Read 2 full = Some (n, r0) ∧
          length r0 = (5 * Z.to_nat n + 8 + length bitData)%nat.
Proof.
  unfold read_header. intros Hh Hb.
  destruct (binary_Read 2 full) as [[n r0]|] eqn:Hrd; [|done].
  exists n, r0. split; [done|].
  destruct (read_entries_outcome (Z.to_nat n) ∅ r0)
    as [(freq' & r' & He & Hl)|(e & He & _)]; [|congruence].
  assert (r' = r) as -> by congruence.
  apply binary_Read_Some in Hb as (Hr & Hlen & _ & _).
  rewrite Hr, length_app, Hlen in Hl. lia.
Qed.

(** C8. A blob cut anywhere before the end of its header (inside or at
    the boundary of the entry count, a symbol byte, a frequency or the
    totalBitCount field) makes [HuffmanDecompress] return one of its four
    framing errors; it does not panic and returns no output. *)
Theorem truncated_header_is_framing_error rng full freq r tb bitData k :
  read_header full = Ret (freq, r) → binary_Read 8 r = Some (tb, bitData) →
  (k < length full - length bitData)%nat →
  ∃ e, HuffmanDecompress rng (take k full) = Err e ∧ FramingError e = true.
Proof.
  intros Hh Hb Hk.
  destruct (header_length full freq r tb bitData Hh Hb) as (n & r0 & Hrd & Hl).
  apply binary_Read_Some in Hrd as (Hfull & Hlen2 & Hn & _).
  apply HuffmanDecompress_short.
  destruct (decide (k < 2)%nat) as [Hk2|Hk2].
  { rewrite binary_Read_short; [done|]. rewrite length_take. lia. }
  assert (take k full = take 2 full ++ take (k - 2) r0) as ->.
  { rewrite Hfull at 1. rewrite take_app, Hlen2.
    rewrite take_ge by lia. done. }
  rewrite binary_Read_app by done. rewrite <- Hn.
  rewrite length_take.
  assert (length full = 2 + length r0)%nat.
  { rewrite Hfull at 1. rewrite length_app, Hlen2. done. }
  lia.
Qed.

(** ** Padding bits *)

Lemma decode_loop_padding root node tb out (d1 d2 : list byte) :
  0 ≤ tb < 2 ^ 64 → length d1 = length d2 →
  (∀ k : nat, Z.of_nat k < tb → unpack d1 !! k = unpack d2 !! k) →
  decode_loop root node 0 tb out d1 = decode_loop root node 0 tb out d2.
Proof.
  intros Htb Hlen Hbits. rewrite !decode_loop_walk by lia. cbv zeta.
  rewrite Z.sub_0_r, <- Hlen.
  destruct (decide (Z.to_nat tb ≤ 8 * length d1)%nat) as [Hn|Hn].
  - assert (take (Z.to_nat tb) (unpack d1) = take (Z.to_nat tb) (unpack d2)) as ->; [|done].
    apply list_eq. intros k. rewrite !lookup_take.
    destruct (decide (k < Z.to_nat tb)%nat); [|done]. apply Hbits. lia.
  - assert (unpack d1 = unpack d2) as ->; [|done].
    apply list_eq. intros k.
    destruct (decide (k < 8 * length d1)%nat) as [Hk|Hk].
    + apply Hbits. lia.
    + rewrite !lookup_ge_None_2; [done| |]; rewrite length_unpack; lia.
Qed.

Lemma read_entries_frame n : ∀ freq r freq' r',
  read_entries n freq r = Ret (freq', r') →
  ∃ x, r = x ++ r' ∧ ∀ r'', read_entries n freq (x ++ r'') = Ret (freq', r'').
Proof.
  induction n as [|n IH]; intros freq r freq' r' Hrd.
  - injection Hrd as <- <-. by exists [].
  - cbn [read_entries] in Hrd. destruct r as [|b r]; [done|].
    destruct (binary_Read 4 r) as [[count r2]|] eqn:Hb; [|done].
    apply binary_Read_Some in Hb as (Hr & Hlen & Hv & _).
    destruct (IH _ _ _ _ Hrd) as (x & Hx & Hframe).
    exists (b :: take 4 r ++ x). split.
    + cbn [app]. f_equal. rewrite <- app_assoc, <- Hx. exact Hr.
    + intros r''. cbn [app read_entries]. rewrite <- app_assoc.
      rewrite binary_Read_app by done. rewrite <- Hv. apply Hframe.
Qed.

(** The header of a blob is read the same way whatever follows it. *)
Lemma header_frame blob freq r tb d :
  read_header blob = Ret (freq, r) → binary_Read 8 r = Some (tb, d) →
  0 ≤ tb < 2 ^ 64 ∧
  ∃ h, blob = h ++ d ∧
    ∀ rng d', HuffmanDecompress rng (h ++ d') =
      root ← buildHuffmanTree rng freq;
      if is_nil root then Err InvalidTree
      else decode_loop root root 0 tb [] d'.
Proof.
  unfold read_header. intros Hh Hb.
  destruct (binary_Read 2 blob) as [[n r0]|] eqn:Hrd; [|done].
  apply binary_Read_Some in Hrd as (Hblob & Hlen2 & Hn & _).
  destruct (read_entries_frame _ _ _ _ _ Hh) as (x & Hx & Hframe).
  apply binary_Read_Some in Hb as (Hr & Hlen8 & Htb & Hrange).
  split; [exact Hrange|].
  exists (take 2 blob ++ x ++ take 8 r). split.
  - rewrite <- !app_assoc, <- Hr, <- Hx. exact Hblob.
  - intros rng d'. unfold HuffmanDecompress, read_header.
    rewrite <- !app_assoc. rewrite binary_Read_app by done.
    rewrite <- Hn, Hframe. cbn [mbind result_bind].
    rewrite binary_Read_app by done. by rewrite <- Htb.
Qed.

(** C9. Two blobs with the same header and bit count, whose packed
    sections have the same length and the same first totalBitCount bits,
    decompress to the same result: the bits at positions totalBitCount
    and beyond are not read. *)
Theorem padding_bits_ignored rng hdr d1 d2 freq r1 tb :
  read_header (hdr ++ d1) = Ret (freq, r1) → binary_Read 8 r1 = Some (tb, d1) →
  length d1 = length d2 →
  (∀ k : nat, Z.of_nat k < tb → unpack d1 !! k = unpack d2 !! k) →
  HuffmanDecompress rng (hdr ++ d1) = HuffmanDecompress rng (hdr ++ d2).
Proof.
  intros Hh Hb Hlen Hbits.
  destruct (header_frame _ _ _ _ _ Hh Hb) as (Htb & h & Hsplit & Hdec).
  apply app_inv_tail in Hsplit as ->.
  rewrite !Hdec.
  destruct (buildHuffmanTree rng freq) as [root| | |]; try done.
  cbn [mbind result_bind]. destruct (is_nil root); [done|].
  by apply decode_loop_padding.
Qed.

(** ** A table with one entry *)

Lemma buildHuffmanTree_singleton rng b f :
  range_ok rng → buildHuffmanTree rng {[b := f]} = Ret (mkNode b f b Nil Nil).
Proof.
  intros Hr. unfold buildHuffmanTree. rewrite map_size_singleton.
  pose proof (Hr {[b := f]}) as Hp. rewrite map_to_list_singleton in Hp.
  apply Permutation_singleton_r in Hp. rewrite Hp. reflexivity.
Qed.

Lemma buildHuffmanTree_empty rng : buildHuffmanTree rng ∅ = Ret Nil.
Proof. unfold buildHuffmanTree. by rewrite map_size_empty. Qed.

(** The table of a file that repeats one byte has one entry. *)
Lemma buildFrequencyTable_single B b :
  B ≠ [] → (∀ x, x ∈ B → x = b) →
  ∃ f, buildFrequencyTable B = {[b := f]}.
Proof.
  intros HB Hall.
  assert (is_Some (buildFrequencyTable B !! b)) as [f Hf].
  { apply buildFrequencyTable_dom. destruct B as [|x B]; [done|].
    rewrite <- (Hall x) by (by left). by left. }
  exists f. apply map_eq. intros k.
  destruct (decide (k = b)) as [->|Hne].
  - by rewrite lookup_singleton_eq.
  - rewrite lookup_singleton_ne by done.
    destruct (buildFrequencyTable B !! k) as [g|] eqn:E; [|done].
    exfalso. apply Hne, Hall, buildFrequencyTable_dom. by eexists.
Qed.

Lemma encode_empty_codes codeMap B :
  (∀ x, x ∈ B → code_of codeMap x = EmptyString) →
  encodeDataWithCount B codeMap = ([], 0).
Proof.
  intros Hall. unfold encodeDataWithCount.
  assert (∀ e, foldl (encode_byte codeMap) e B = e) as ->; [|done].
  induction B as [|x B IH]; intros e; [done|].
  cbn [foldl]. unfold encode_byte at 2. fold (code_of codeMap x).
  rewrite (Hall x) by (by left). cbn [list_ascii_of_string foldl].
  apply IH. intros y Hy. apply Hall. by right.
Qed.

(** For a file that repeats one byte, the tree is a single leaf, the code
    of the byte is the empty string, no bit is written, and decompressing
    the blob returns no byte at all. *)
Lemma single_symbol_lost fs rngT rngH rngD path B b :
  range_ok rngT → range_ok rngH → range_ok rngD →
  fs path = Some B → B ≠ [] → (∀ x, x ∈ B → x = b) →
  ∃ f blob,
    buildHuffmanTree rngT (buildFrequencyTable B) = Ret (mkNode b f b Nil Nil) ∧
    generateCodes (mkNode b f b Nil Nil) EmptyString ∅ !! b = Some EmptyString ∧
    HuffmanCompress fs rngT rngH path = Ret blob ∧
    HuffmanDecompress rngD blob = Ret [].
Proof.
  intros HrT HrH HrD Hfs HB Hall.
  destruct (buildFrequencyTable_single B b HB Hall) as [f Hf].
  destruct (HuffmanCompress_Ret fs rngT rngH path B HrT Hfs HB)
    as (root & Hroot & _ & _ & Hc).
  rewrite Hf in Hroot, Hc. rewrite buildHuffmanTree_singleton in Hroot by done.
  injection Hroot as <-.
  exists f. eexists. split; [by rewrite Hf; apply buildHuffmanTree_singleton|].
  split; [apply lookup_insert_eq|]. split; [exact Hc|].
  cbv zeta. rewrite encode_empty_codes.
  2:{ intros x Hx. rewrite (Hall x Hx). unfold code_of. cbn [generateCodes].
      by rewrite lookup_insert_eq. }
  cbn [fst snd]. change (wrap_u64 0) with 0.
  rewrite HuffmanDecompress_framed by (done || lia).
  rewrite map_fmap_singleton, buildHuffmanTree_singleton by done.
  reflexivity.
Qed.

(** A blob whose table has one entry and whose bit count is not zero:
    the walk starts at the leaf, steps to a nil child and dereferences it
    (or, with no packed byte at all, indexes the empty [bitData]). *)
Lemma single_entry_decode_panics rng blob b f r tb d :
  range_ok rng →
  read_header blob = Ret ({[b := f]}, r) → binary_Read 8 r = Some (tb, d) →
  0 < tb →
  HuffmanDecompress rng blob =
    Panic (match d with [] => IndexOutOfRange | _ => NilDereference end).
Proof.
  intros Hr Hh Hb Htb.
  destruct (header_frame _ _ _ _ _ Hh Hb) as (_ & h & -> & Hdec).
  rewrite Hdec, buildHuffmanTree_singleton by done.
  cbn [mbind result_bind is_nil]. destruct d as [|v d]; cbn [decode_loop].
  - destruct (Z.ltb_spec 0 tb); [done|lia].
  - destruct (Z.ltb_spec 0 tb); [|lia].
    unfold decode_byte. cbn [decode_bits].
    destruct (Z.ltb_spec 0 tb); [|lia].
    by destruct (Z.land (Z.shiftr (byte_to_Z v) (7 - 0)) 1 =? 0).
Qed.

(** ** A bit count larger than the packed section *)

(** When the bit count of a blob exceeds the bits of its packed section
    the decoder panics: it indexes [bitData] past its end (or, before
    that, dereferences a nil child). *)
Lemma decode_past_end_panics rng blob (freq : gmap byte Z) r tb d :
  range_ok rng →
  read_header blob = Ret (freq, r) → binary_Read 8 r = Some (tb, d) →
  freq ≠ ∅ → 8 * Z.of_nat (length d) < tb →
  is_panic (HuffmanDecompress rng blob) = true.
Proof.
  intros Hr Hh Hb Hne Hlen.
  destruct (header_frame _ _ _ _ _ Hh Hb) as (Htb & h & -> & Hdec).
  destruct (buildHuffmanTree_spec rng rng freq Hr Hr Hne) as (root & Hroot & _ & Hwf & _).
  rewrite Hdec, Hroot. cbn [mbind result_bind].
  rewrite (wf_tree_not_nil root Hwf).
  rewrite decode_loop_walk by lia. cbv zeta.
  rewrite decide_False by lia.
  by destruct (walk_outcome root root (unpack d) []) as [[[n o] ->]| ->].
Qed.

(** The same blob with an empty table: the error "invalid tree". *)
Lemma empty_table_invalid_tree rng blob r tb d :
  read_header blob = Ret (∅, r) → binary_Read 8 r = Some (tb, d) →
  HuffmanDecompress rng blob = Err InvalidTree.
Proof.
  intros Hh Hb.
  destruct (header_frame _ _ _ _ _ Hh Hb) as (_ & h & -> & Hdec).
  by rewrite Hdec, buildHuffmanTree_empty.
Qed.

(** ** Header fidelity *)

(** The table read back from the header of a blob is the table used to
    produce it with every count reduced modulo 2^32. *)
Lemma header_read_back fs rngT rngH path B :
  range_ok rngT → range_ok rngH → fs path = Some B → B ≠ [] →
  ∃ blob r, HuffmanCompress fs rngT rngH path = Ret blob ∧
            read_header blob = Ret (wrap_u32 <$> buildFrequencyTable B, r).
Proof.
  intros HrT HrH Hfs HB.
  destruct (HuffmanCompress_Ret fs rngT rngH path B HrT Hfs HB)
    as (root & _ & _ & _ & Hc).
  cbv zeta in Hc. eexists _, _. split; [exact Hc|].
  by apply read_header_writeHeader.
Qed.

(** C5 (amended). For every non-empty B in which every byte value occurs
    fewer than 2^32 times, parsing the header of the blob compress
    produces recovers a frequency table equal to the one compress used. *)
Theorem header_fidelity fs rngT rngH path B :
  range_ok rngT → range_ok rngH → fs path = Some B → B ≠ [] →
  (∀ b, Z.of_nat (occurrences B b) < 2 ^ 32) →
  ∃ blob r, HuffmanCompress fs rngT rngH path = Ret blob ∧
            read_header blob = Ret (buildFrequencyTable B, r).
Proof.
  intros HrT HrH Hfs HB Hocc.
  destruct (header_read_back fs rngT rngH path B HrT HrH Hfs HB)
    as (blob & r & Hc & Hh).
  exists blob, r. split; [done|].
  by rewrite fmap_wrap_u32_id in Hh by (by apply buildFrequencyTable_u32).
Qed.

Example compress_sample :
  HuffmanCompress (one_file sample) range_fwd range_fwd "in" = Ret sample_blob.
Proof. vm_compute. reflexivity. Qed.

Example decompress_sample : HuffmanDecompress range_bwd sample_blob = Ret sample.
Proof. vm_compute. reflexivity. Qed.

(** ** The cases of [TestHuffmanCompressDecompress] *)

Example test_empty_file :
  HuffmanCompress (one_file []) range_fwd range_fwd "Empty file" = Err EmptyFile.
Proof. reflexivity. Qed.

Example test_simple_ascii :
  round_trip range_fwd range_bwd range_fwd sample = Ret sample.
Proof. vm_compute. reflexivity. Qed.

Example test_binary_data :
  round_trip range_bwd range_fwd range_fwd [x00; xff; xab; xab; xab; x01; x02; x03]
  = Ret [x00; xff; xab; xab; xab; x01; x02; x03].
Proof. vm_compute. reflexivity. Qed.

Example test_long_repetitive :
  round_trip range_fwd range_fwd range_bwd
    (list_byte_of_string "hello world! hello world! hello world! hello world!")
  = Ret (list_byte_of_string "hello world! hello world! hello world! hello world!").
Proof. vm_compute. reflexivity. Qed.

(** ** Files with 2^32 occurrences of a byte *)

Lemma walk_out_prefix root bits : ∀ node out node' out',
  walk root node bits out = Ret (node', out') → ∃ suffix, out' = out ++ suffix.
Proof.
  induction bits as [|b bits IH]; intros node out node' out' Hw.
  - injection Hw as <- <-. exists []. by rewrite app_nil_r.
  - cbn [walk] in Hw.
    destruct (step root node b out) as [[n1 o1]| | |] eqn:Hs; try done.
    cbn [mbind result_bind] in Hw. destruct (IH _ _ _ _ Hw) as [suffix ->].
    unfold step in Hs.
    destruct (if b then Right node else Left node) as [n2| | |]; try done.
    cbn [mbind result_bind] in Hs.
    destruct (Left n2) as [l2| | |]; try done. cbn [mbind result_bind] in Hs.
    destruct (Right n2) as [r2| | |]; try done. cbn [mbind result_bind] in Hs.
    destruct (is_nil l2 && is_nil r2).
    + destruct (Char n2) as [c| | |]; try done. cbn [mbind result_bind] in Hs.
      injection Hs as <- <-. exists ([c] ++ suffix). by rewrite app_assoc.
    + injection Hs as <- <-. by exists suffix.
Qed.

Lemma occurrences_repeat b n x :
  occurrences (repeat b n) x = if decide (x = b) then n else 0%nat.
Proof.
  unfold occurrences. destruct (decide (x = b)) as [->|Hne].
  - by apply count_occ_repeat_eq.
  - by apply count_occ_repeat_neq.
Qed.

(** The table of [n] copies of a byte. *)
Lemma buildFrequencyTable_repeat b (n : nat) :
  (0 < n)%nat → Z.of_nat n < 2 ^ 63 →
  buildFrequencyTable (repeat b n) = {[b := Z.of_nat n]}.
Proof.
  intros Hn Hlt. apply map_eq. intros k.
  rewrite buildFrequencyTable_lookup.
  2:{ intros x. rewrite occurrences_repeat. destruct (decide (x = b)); lia. }
  rewrite occurrences_repeat.
  destruct (decide (k = b)) as [->|Hne].
  - rewrite lookup_singleton_eq. destruct (Nat.eqb_spec n 0); [lia|done].
  - by rewrite lookup_singleton_ne.
Qed.

(** The table of one byte followed by [n] copies of another. *)
Lemma buildFrequencyTable_cons_repeat a b (n : nat) :
  a ≠ b → (0 < n)%nat → Z.of_nat n + 1 < 2 ^ 63 →
  buildFrequencyTable (a :: repeat b n) = <[a := 1]> {[b := Z.of_nat n]}.
Proof.
  intros Hab Hn Hlt. apply map_eq. intros k.
  assert (∀ x, occurrences (a :: repeat b n) x
               = ((if decide (a = x) then 1 else 0)
                  + (if decide (x = b) then n else 0))%nat) as Hocc.
  { intros x. by rewrite occurrences_cons, occurrences_repeat. }
  rewrite buildFrequencyTable_lookup.
  2:{ intros x. rewrite Hocc. destruct (decide (a = x)), (decide (x = b)); lia. }
  rewrite Hocc.
  destruct (decide (a = k)) as [<-|Hak].
  - rewrite lookup_insert_eq. rewrite decide_False by done. done.
  - rewrite lookup_insert_ne by done.
    destruct (decide (k = b)) as [->|Hkb].
    + rewrite lookup_singleton_eq. destruct (Nat.eqb_spec (0 + n) 0); [lia|].
      by rewrite Nat.add_0_l.
    + by rewrite lookup_singleton_ne.
Qed.

(** With 2^32 occurrences of a byte, the header stores the count 0. *)
Lemma count_wraps_in_header (n : nat) :
  Z.of_nat n = 2 ^ 32 →
  buildFrequencyTable (repeat x41 n) = {[x41 := 2 ^ 32]} ∧
  ∃ blob r,
    HuffmanCompress (one_file (repeat x41 n)) range_fwd range_fwd "in" = Ret blob ∧
    read_header blob = Ret ({[x41 := 0]}, r).
Proof.
  intros Hn.
  assert (buildFrequencyTable (repeat x41 n) = {[x41 := 2 ^ 32]}) as Hf.
  { rewrite <- Hn. apply buildFrequencyTable_repeat; lia. }
  split; [exact Hf|].
  assert (repeat x41 n ≠ []) as Hne.
  { destruct n; [lia|]. discriminate. }
  destruct (header_read_back (one_file (repeat x41 n)) range_fwd range_fwd "in"
              (repeat x41 n) range_fwd_ok range_fwd_ok eq_refl Hne)
    as (blob & r & Hc & Hh).
  exists blob, r. split; [exact Hc|].
  rewrite Hf, map_fmap_singleton in Hh. exact Hh.
Qed.

(** With 2^32 occurrences of a byte, the decoder builds another tree than
    the encoder and the first byte it returns is wrong. *)
Lemma count_wraps_breaks_round_trip (n : nat) :
  Z.of_nat n = 2 ^ 32 →
  ∃ blob,
    HuffmanCompress (one_file (x42 :: repeat x41 n)) range_fwd range_fwd "in" = Ret blob ∧
    HuffmanDecompress range_fwd blob ≠ Ret (x42 :: repeat x41 n).
Proof.
  intros Hn. set (B := x42 :: repeat x41 n).
  assert (buildFrequencyTable B = <[x42 := 1]> {[x41 := 2 ^ 32]}) as Hf.
  { rewrite <- Hn. apply buildFrequencyTable_cons_repeat; [done|lia|lia]. }
  destruct (HuffmanCompress_Ret (one_file B) range_fwd range_fwd "in" B
              range_fwd_ok eq_refl ltac:(done)) as (root & Hroot & _ & _ & Hc).
  rewrite Hf in Hroot, Hc.
  assert (root = mkNode x00 (2 ^ 32 + 1) x41
                   (mkNode x42 1 x42 Nil Nil) (mkNode x41 (2 ^ 32) x41 Nil Nil)) as ->.
  { assert (buildHuffmanTree range_fwd (<[x42 := 1]> {[x41 := 2 ^ 32]})
            = Ret (mkNode x00 (2 ^ 32 + 1) x41
                     (mkNode x42 1 x42 Nil Nil) (mkNode x41 (2 ^ 32) x41 Nil Nil))) as E
      by (vm_compute; reflexivity).
    congruence. }
  set (T := mkNode x00 (2 ^ 32 + 1) x41
              (mkNode x42 1 x42 Nil Nil) (mkNode x41 (2 ^ 32) x41 Nil Nil)) in *.
  set (cm := generateCodes T EmptyString ∅) in *.
  assert (code_of cm x42 = "0"%string) as Hc42 by (vm_compute; reflexivity).
  assert (code_of cm x41 = "1"%string) as Hc41 by (vm_compute; reflexivity).
  assert (∀ b, b ∈ B → String.length (code_of cm b) ≤ 1)%nat as Hcodes.
  { intros b [->|Hb%list_elem_of_In%repeat_spec]%elem_of_cons.
    - by rewrite Hc42.
    - subst b. by rewrite Hc41. }
  pose proof (length_all_bits cm B 1 Hcodes) as Hbits.
  assert (length B = S n) as HlenB by (unfold B; cbn [length]; by rewrite repeat_length).
  destruct (encodeDataWithCount_spec B cm ltac:(cbv zeta; lia))
    as (pad & Hpad & Hunpack & Htb).
  cbv zeta in Hc. eexists. split; [exact Hc|].
  rewrite Htb.
  assert (wrap_u64 (Z.of_nat (length (all_bits cm B))) = Z.of_nat (length (all_bits cm B)))
    as -> by (unfold wrap_u64; apply Z.mod_small; lia).
  rewrite HuffmanDecompress_framed by (apply range_fwd_ok || lia).
  assert (buildHuffmanTree range_fwd (wrap_u32 <$> <[x42 := 1]> {[x41 := 2 ^ 32]})
          = Ret (mkNode x00 1 x41
                   (mkNode x41 0 x41 Nil Nil) (mkNode x42 1 x42 Nil Nil))) as ->
    by (vm_compute; reflexivity).
  cbn [mbind result_bind is_nil].
  rewrite decode_loop_walk by lia. cbv zeta.
  rewrite Z.sub_0_r, Nat2Z.id.
  pose proof (length_unpack (encodeDataWithCount B cm).1) as Hlu.
  rewrite Hunpack, length_app, repeat_length in Hlu.
  rewrite decide_True by lia.
  rewrite Hunpack, take_app_length.
  assert (all_bits cm B = false :: all_bits cm (repeat x41 n)) as ->.
  { unfold B, all_bits. cbn [flat_map]. by rewrite Hc42. }
  cbn [walk step Left Right mbind result_bind is_nil andb Char].
  destruct (walk _ _ _ _) as [[node' out']| | |] eqn:Hw; try done.
  apply walk_out_prefix in Hw as [suffix ->].
  cbn [mbind result_bind]. unfold B. cbn [app]. intros E.
  injection E as E _. discriminate E.
Qed.

Lemma big_count_eq : Z.of_nat big_count = 2 ^ 32.
Proof. unfold big_count. apply Z2Nat.id. lia. Qed.

(** C1, as stated, fails: for the file made of one "B" followed by 2^32
    "A", compress returns a blob and decompress of that blob does not
    return the file (the header stores the count of "A" as 0). *)
Lemma roundtrip_counterexample :
  ∃ blob,
    HuffmanCompress (one_file (x42 :: repeat x41 big_count))
      range_fwd range_fwd "in" = Ret blob ∧
    HuffmanDecompress range_fwd blob ≠ Ret (x42 :: repeat x41 big_count).
Proof. exact (count_wraps_breaks_round_trip big_count big_count_eq). Qed.

(** The round trip on [sample], with three different iteration orders. *)
Lemma roundtrip_witness :
  ∃ blob, HuffmanCompress (one_file sample) range_fwd range_bwd "in" = Ret blob ∧
          HuffmanDecompress range_fwd blob = Ret sample.
Proof.
  apply (roundtrip (one_file sample) range_fwd range_bwd range_fwd "in" sample).
  - exact range_fwd_ok.
  - exact range_bwd_ok.
  - exact range_fwd_ok.
  - reflexivity.
  - exists "a"%byte, "b"%byte. split; [|split].
    + apply list_elem_of_In. vm_compute. tauto.
    + apply list_elem_of_In. vm_compute. tauto.
    + discriminate.
  - intros b. pose proof (occurrences_le_length sample b) as H.
    change (length sample) with 15%nat in H. lia.
Defined.

(** C2: the code fails the claim. For ten copies of 0x41 the tree is a
    single leaf, [generateCodes] gives the byte the empty code, the blob
    has a bit count of 0 and no packed byte, and decompressing it returns
    no byte. *)
Theorem single_symbol_code_is_empty :
  buildHuffmanTree range_fwd (buildFrequencyTable (repeat x41 10))
    = Ret (mkNode x41 10 x41 Nil Nil) ∧
  generateCodes (mkNode x41 10 x41 Nil Nil) EmptyString ∅ !! x41 = Some EmptyString ∧
  HuffmanCompress (one_file (repeat x41 10)) range_fwd range_fwd "in"
    = Ret [x01; x00; x41; x0a; x00; x00; x00;
           x00; x00; x00; x00; x00; x00; x00; x00] ∧
  HuffmanDecompress range_fwd
    [x01; x00; x41; x0a; x00; x00; x00; x00; x00; x00; x00; x00; x00; x00; x00]
    = Ret [].
Proof. repeat split; vm_compute; reflexivity. Qed.

(** C3: the code fails the claim. A blob with two entries, a bit count of
    9 and one packed byte: [HuffmanDecompress] returns no error, it
    panics on [bitData[1]]. *)
Theorem bitstream_exhausted_panic :
  HuffmanDecompress range_fwd
    [x02; x00; x41; x01; x00; x00; x00; x42; x01; x00; x00; x00;
     x09; x00; x00; x00; x00; x00; x00; x00; x55]
    = Panic IndexOutOfRange.
Proof. vm_compute. reflexivity. Qed.

(** The claim of C4 as stated fails: the two orders of ranging over the
    table of the file 0x00 0x01 give two different blobs. *)
Lemma determinism_counterexample :
  range_ok range_fwd ∧ range_ok range_bwd ∧
  HuffmanCompress (one_file [x00; x01]) range_fwd range_fwd "in"
  ≠ HuffmanCompress (one_file [x00; x01]) range_fwd range_bwd "in".
Proof.
  split; [exact range_fwd_ok|]. split; [exact range_bwd_ok|].
  vm_compute. discriminate.
Qed.

(** The two blobs of [sample] for the two iteration orders. *)
Lemma determinism_up_to_header_order_witness :
  ∃ count tail,
    HuffmanCompress (one_file sample) range_fwd range_fwd "in" =
      Ret (count ++ concat (map entry_bytes (range_fwd (buildFrequencyTable sample))) ++ tail) ∧
    HuffmanCompress (one_file sample) range_bwd range_bwd "in" =
      Ret (count ++ concat (map entry_bytes (range_bwd (buildFrequencyTable sample))) ++ tail) ∧
    range_fwd (buildFrequencyTable sample) ≡ₚ range_bwd (buildFrequencyTable sample).
Proof.
  apply (determinism_up_to_header_order (one_file sample)
           range_fwd range_fwd range_bwd range_bwd "in" sample).
  - exact range_fwd_ok.
  - exact range_fwd_ok.
  - exact range_bwd_ok.
  - exact range_bwd_ok.
  - reflexivity.
  - discriminate.
Defined.

(** C5, as stated, fails: for the file made of 2^32 "A" the table
    compress uses maps "A" to 2^32 and the table read back from the
    header of the blob maps "A" to 0. *)
Lemma header_fidelity_counterexample :
  buildFrequencyTable (repeat x41 big_count) = {[x41 := 2 ^ 32]} ∧
  ∃ blob r,
    HuffmanCompress (one_file (repeat x41 big_count)) range_fwd range_fwd "in" = Ret blob ∧
    read_header blob = Ret ({[x41 := 0]}, r).
Proof. exact (count_wraps_in_header big_count big_count_eq). Qed.

(** The header of the blob of [sample]. *)
Lemma header_fidelity_witness :
  ∃ blob r, HuffmanCompress (one_file sample) range_fwd range_bwd "in" = Ret blob ∧
            read_header blob = Ret (buildFrequencyTable sample, r).
Proof.
  apply (header_fidelity (one_file sample) range_fwd range_bwd "in" sample).
  - exact range_fwd_ok.
  - exact range_bwd_ok.
  - reflexivity.
  - discriminate.
  - intros b. pose proof (occurrences_le_length sample b) as H.
    change (length sample) with 15%nat in H. lia.
Defined.

(** The code table of [sample]. *)
Lemma prefix_code_validity_witness :
  ∃ root, buildHuffmanTree range_bwd (buildFrequencyTable sample) = Ret root ∧
    ∀ b1 b2 c1 c2,
      generateCodes root EmptyString ∅ !! b1 = Some c1 →
      generateCodes root EmptyString ∅ !! b2 = Some c2 →
      b1 ≠ b2 ∨ c1 ≠ c2 →
      String.prefix c1 c2 = false.
Proof.
  apply (prefix_code_validity range_bwd (buildFrequencyTable sample)).
  - exact range_bwd_ok.
  - apply buildFrequencyTable_nonempty. discriminate.
Defined.

(** The empty file. *)
Lemma empty_rejection_witness :
  HuffmanCompress (one_file []) range_fwd range_fwd "in" = Err EmptyFile.
Proof. apply (empty_rejection (one_file []) range_fwd range_fwd "in"). reflexivity. Defined.

(** The scenario of the specification: the header of [sample_blob] claims
    5 entries and the buffer ends after 2. *)
Lemma truncated_header_is_framing_error_witness :
  ∃ e, HuffmanDecompress range_fwd (take 12 sample_blob) = Err e ∧
       FramingError e = true.
Proof.
  apply (truncated_header_is_framing_error range_fwd sample_blob
           (buildFrequencyTable sample) (drop 27 sample_blob) 33
           (drop 35 sample_blob) 12).
  - reflexivity.
  - reflexivity.
  - vm_compute. lia.
Defined.

Example truncated_after_two_entries :
  HuffmanDecompress range_fwd (take 12 sample_blob) = Err ReadHeaderByteFailed.
Proof. vm_compute. reflexivity. Qed.

(** The last packed byte of [sample_blob] holds bit 32 and seven padding
    bits; setting the padding bits changes nothing. *)
Lemma padding_bits_ignored_witness :
  HuffmanDecompress range_fwd (take 35 sample_blob ++ [xff; xea; x80; x6d; x00])
  = HuffmanDecompress range_fwd (take 35 sample_blob ++ [xff; xea; x80; x6d; x7f]).
Proof.
  apply (padding_bits_ignored range_fwd (take 35 sample_blob)
           [xff; xea; x80; x6d; x00] [xff; xea; x80; x6d; x7f]
           (buildFrequencyTable sample) (drop 27 sample_blob) 33).
  - reflexivity.
  - reflexivity.
  - reflexivity.
  - intros k Hk.
    do 33 (destruct k as [|k]; [vm_compute; reflexivity|]). lia.
Defined.

(** C10: the code fails the claim. A blob with one entry, a bit count of
    1 and one packed byte: the walk starts at the leaf, the first bit
    moves to its nil child, and [node.Left] panics. *)
Theorem single_entry_nil_dereference :
  HuffmanDecompress range_fwd
    [x01; x00; x41; x01; x00; x00; x00;
     x01; x00; x00; x00; x00; x00; x00; x00; x00]
    = Panic NilDereference.
Proof. vm_compute. reflexivity. Qed.

(** ** More on the frequency table *)

Lemma sum_perm (l1 l2 : list Z) : l1 ≡ₚ l2 → foldr Z.add 0 l1 = foldr Z.add 0 l2.
Proof.
  induction 1 as [|x l l' _ IH|x y l|l l' l'' _ IH1 _ IH2]; simpl; lia.
Qed.

Lemma table_total_empty : table_total ∅ = 0.
Proof. unfold table_total. by rewrite map_to_list_empty. Qed.

Lemma table_total_insert_fresh (m : gmap byte Z) i y :
  m !! i = None → table_total (<[i := y]> m) = y + table_total m.
Proof.
  intros Hi. unfold table_total.
  rewrite (sum_perm _ (y :: (map_to_list m).*2)); [done|].
  by rewrite map_to_list_insert.
Qed.

Lemma table_total_insert (m : gmap byte Z) i y :
  table_total (<[i := y]> m) = y + table_total m - default 0 (m !! i).
Proof.
  destruct (m !! i) as [v|] eqn:Hi.
  - rewrite <- (insert_delete_eq m i y).
    rewrite table_total_insert_fresh by apply lookup_delete_eq.
    rewrite <- (insert_delete_id m i v Hi) at 2.
    rewrite table_total_insert_fresh by apply lookup_delete_eq.
    cbn [default from_option id]. lia.
  - rewrite table_total_insert_fresh by done. cbn [default from_option id]. lia.
Qed.

Lemma buildFrequencyTable_total_aux data :
  Z.of_nat (length data) < 2 ^ 63 →
  table_total (buildFrequencyTable data) = Z.of_nat (length data) ∧
  map_Forall (λ _ v, 0 < v ≤ Z.of_nat (length data)) (buildFrequencyTable data).
Proof.
  induction data as [|x data IH] using rev_ind; intros Hlen.
  - split; [apply table_total_empty|]. intros b v Hv.
    unfold buildFrequencyTable in Hv. simpl in Hv. by rewrite lookup_empty in Hv.
  - rewrite length_app in *. cbn [length] in *.
    destruct (IH ltac:(lia)) as [Htot Hall].
    rewrite buildFrequencyTable_snoc.
    assert (0 ≤ default 0 (buildFrequencyTable data !! x) ≤ Z.of_nat (length data)) as Hx.
    { destruct (buildFrequencyTable data !! x) as [v|] eqn:E; cbn [default from_option id].
      - specialize (Hall x v E). simpl in Hall. lia.
      - lia. }
    assert (wrap_int (default 0 (buildFrequencyTable data !! x) + 1)
            = default 0 (buildFrequencyTable data !! x) + 1) as ->.
    { unfold wrap_int. rewrite Z.mod_small by lia. lia. }
    split.
    + rewrite table_total_insert, Htot. lia.
    + intros b v Hv. destruct (decide (b = x)) as [->|Hne].
      * rewrite lookup_insert_eq in Hv. injection Hv as <-. lia.
      * rewrite lookup_insert_ne in Hv by done. specialize (Hall b v Hv).
        simpl in Hall. lia.
Qed.

(** X1. For a file of fewer than 2^63 bytes, the frequency table maps
    every byte that occurs in the file to its number of occurrences and
    has no entry for a byte that does not occur. *)
Theorem frequency_table_counts data b :
  Z.of_nat (length data) < 2 ^ 63 →
  buildFrequencyTable data !! b =
    if (occurrences data b =? 0)%nat then None
    else Some (Z.of_nat (occurrences data b)).
Proof.
  intros Hlen. apply buildFrequencyTable_lookup.
  intros b'. pose proof (occurrences_le_length data b'). lia.
Qed.

Lemma frequency_table_counts_witness :
  buildFrequencyTable sample !! "c"%byte =
    if (occurrences sample "c" =? 0)%nat then None
    else Some (Z.of_nat (occurrences sample "c")).
Proof. apply (frequency_table_counts sample "c"). vm_compute. reflexivity. Defined.

(** X2. For a file of fewer than 2^63 bytes, the counts of the frequency
    table add up to the length of the file. *)
Theorem frequency_table_total data :
  Z.of_nat (length data) < 2 ^ 63 →
  table_total (buildFrequencyTable data) = Z.of_nat (length data).
Proof. intros Hlen. by apply buildFrequencyTable_total_aux. Qed.

Lemma frequency_table_total_witness :
  table_total (buildFrequencyTable sample) = Z.of_nat (length sample).
Proof. apply (frequency_table_total sample). vm_compute. reflexivity. Defined.

(** ** The order of [Less] *)

(** X3. On a queue without nil entries and at indices in range, [Less]
    returns without panic and is a strict order: irreflexive, asymmetric
    and transitive; two nodes neither of which is less than the other
    have the same Freq and the same MinChar. *)
Theorem Less_strict_order pq i j k :
  no_nil pq → (i < length pq)%nat → (j < length pq)%nat → (k < length pq)%nat →
  (∃ r, PriorityQueue.Less pq i j = Ret r) ∧
  PriorityQueue.Less pq i i = Ret false ∧
  (PriorityQueue.Less pq i j = Ret true → PriorityQueue.Less pq j i = Ret false) ∧
  (PriorityQueue.Less pq i j = Ret true → PriorityQueue.Less pq j k = Ret true →
   PriorityQueue.Less pq i k = Ret true) ∧
  (PriorityQueue.Less pq i j = Ret false → PriorityQueue.Less pq j i = Ret false →
   (a ← index pq i; Freq a) = (b ← index pq j; Freq b) ∧
   (a ← index pq i; MinChar a) = (b ← index pq j; MinChar b)).
Proof.
  intros Hnn Hi Hj Hk.
  destruct (lookup_lt_is_Some_2 pq i Hi) as [a Ha].
  destruct (lookup_lt_is_Some_2 pq j Hj) as [b Hb].
  destruct (lookup_lt_is_Some_2 pq k Hk) as [c Hc].
  pose proof (no_nil_lookup _ _ _ Hnn Ha) as Hna.
  pose proof (no_nil_lookup _ _ _ Hnn Hb) as Hnb.
  pose proof (no_nil_lookup _ _ _ Hnn Hc) as Hnc.
  rewrite (Less_Ret pq i j a b), (Less_Ret pq i i a a), (Less_Ret pq j i b a),
    (Less_Ret pq j k b c), (Less_Ret pq i k a c) by done.
  split; [eauto|]. split; [by rewrite lessb_irrefl|].
  split; [intros [= H]; by rewrite (lessb_asym _ _ H)|].
  split; [intros [= H1] [= H2]; by rewrite (lessb_trans _ _ _ H1 H2)|].
  intros [= H1] [= H2]. unfold index. rewrite Ha, Hb. cbn [mbind result_bind].
  destruct a as [|ca fa ma la ra]; [done|]. destruct b as [|cb fb mb lb rb]; [done|].
  apply lessb_false in H1, H2. cbn in H1, H2. cbn.
  split; f_equal; [lia|apply byte_to_Z_inj; lia].
Qed.

Lemma Less_strict_order_witness :
  (∃ r, PriorityQueue.Less [mkNode x61 5 x61 Nil Nil; mkNode x62 4 x62 Nil Nil] 0 1 = Ret r) ∧
  PriorityQueue.Less [mkNode x61 5 x61 Nil Nil; mkNode x62 4 x62 Nil Nil] 0 0 = Ret false.
Proof.
  pose proof (Less_strict_order [mkNode x61 5 x61 Nil Nil; mkNode x62 4 x62 Nil Nil]
                0 1 0 ltac:(by repeat constructor)
                ltac:(simpl; lia) ltac:(simpl; lia) ltac:(simpl; lia)) as (H1 & H2 & _).
  exact (conj H1 H2).
Defined.

(** ** Pushing and popping *)

Lemma not_after_lessb a b :
  is_nil a = false → is_nil b = false → lessb b a = false → not_after a b.
Proof.
  intros Ha Hb H. unfold not_after.
  by rewrite (Less_Ret [a; b] 1 0 b a eq_refl eq_refl Hb Ha), H.
Qed.

Lemma pop_all_spec n : ∀ h,
  no_nil h → is_heap h → length h = n →
  ∃ out, pop_all n h = Ret (out, []) ∧ out ≡ₚ h ∧ StronglySorted not_after out.
Proof.
  induction n as [|n IH]; intros h Hnn Hh Hlen.
  - destruct h; [|done]. exists []. repeat split; [done|constructor].
  - assert (h ≠ []) as Hne by (intros ->; done).
    destruct (Pop_spec h Hnn Hh Hne) as (x & h' & Hpop & Hh' & Hp & Hmin).
    pose proof (Permutation_length Hp) as Hl. cbn [length] in Hl.
    assert (no_nil (x :: h')) as Hnn' by (by eapply no_nil_perm).
    apply Forall_cons in Hnn' as [Hx Hnn'].
    destruct (IH h' Hnn' Hh' ltac:(lia)) as (out & Hout & Hpo & Hsorted).
    exists (x :: out). cbn [pop_all]. rewrite Hpop. cbn [mbind result_bind].
    rewrite Hout. cbn [mbind result_bind]. split; [done|]. split.
    + by rewrite Hp, Hpo.
    + constructor; [done|]. apply List.Forall_forall. intros y Hy.
      apply list_elem_of_In in Hy. rewrite Hpo in Hy.
      apply not_after_lessb; [done| |].
      * exact (proj1 (Forall_forall _ _) Hnn' y Hy).
      * exact (proj1 (Forall_forall _ _) Hmin y Hy).
Qed.

(** X4. Pushing the leaves of any list of (symbol, count) entries on an
    empty queue with [heap.Push], then calling [heap.Pop] as many times,
    returns without panic, empties the queue and gives the same leaves
    sorted by ascending Freq, then ascending MinChar. *)
Theorem push_then_pop_sorts (entries : list (byte * Z)) :
  ∃ h out,
    push_leaves entries [] = Ret h ∧
    pop_all (length entries) h = Ret (out, []) ∧
    out ≡ₚ map leaf_of entries ∧
    StronglySorted not_after out.
Proof.
  destruct (push_leaves_spec entries [] (Forall_nil_2 _) is_heap_nil)
    as (h & Hpush & Hh & Hp).
  rewrite app_nil_r in Hp.
  assert (no_nil h) as Hnn.
  { eapply no_nil_perm; [symmetry; exact Hp|].
    apply Forall_forall. intros t Ht.
    apply list_elem_of_fmap in Ht as ([b f] & -> & _). done. }
  destruct (pop_all_spec (length entries) h Hnn Hh) as (out & Hout & Hpo & Hs).
  { by rewrite (Permutation_length Hp), length_map. }
  exists h, out. repeat split; try done. by rewrite Hpo.
Qed.

(** ** The annotations of the tree *)

Lemma built_not_nil t : built t → is_nil t = false.
Proof. by intros []. Qed.

Lemma built_wf t : built t → wf_tree t.
Proof. induction 1; by constructor. Qed.

Lemma leaf_entries_merged c f m l r :
  built l → built r →
  leaf_entries (mkNode c f m l r) = leaf_entries l ++ leaf_entries r.
Proof. intros Hl Hr. destruct Hl; destruct Hr; reflexivity. Qed.

Lemma leaf_entries_leaves t : (leaf_entries t).*1 = leaves t.
Proof.
  induction t as [|c f m l IHl r IHr]; [done|].
  destruct l as [|cl fl ml ll rl].
  - destruct r as [|cr fr mr lr rr]; [done|].
    change ((leaf_entries (mkNode cr fr mr lr rr)).*1 = leaves (mkNode cr fr mr lr rr)).
    exact IHr.
  - change ((leaf_entries (mkNode cl fl ml ll rl) ++ leaf_entries r).*1
            = leaves (mkNode cl fl ml ll rl) ++ leaves r).
    by rewrite fmap_app, IHl, IHr.
Qed.

Lemma flat_map_leaf_entries_perm (h1 h2 : list Node) :
  h1 ≡ₚ h2 → flat_map leaf_entries h1 ≡ₚ flat_map leaf_entries h2.
Proof.
  induction 1 as [|x l1 l2 _ IH|x y l|l1 l2 l3 _ IH1 _ IH2]; simpl.
  - done.
  - by rewrite IH.
  - rewrite !app_assoc. f_equiv. apply Permutation_app_comm.
  - by rewrite IH1.
Qed.

Lemma flat_map_leaf_entries_leaf_of (l : list (byte * Z)) :
  flat_map leaf_entries (map leaf_of l) = l.
Proof. induction l as [|[b f] l IH]; [done|]. simpl. by rewrite IH. Qed.

Lemma built_no_nil h : Forall built h → no_nil h.
Proof. intros H. eapply Forall_impl; [exact H|]. apply built_not_nil. Qed.

(** The second loop of [buildHuffmanTree], on any heap of built trees. *)
Lemma merge_loop_built fuel : ∀ h,
  Forall built h → is_heap h → h ≠ [] → (length h ≤ fuel)%nat →
  ∃ t, merge_loop fuel h = Ret [t] ∧ built t ∧
       leaf_entries t ≡ₚ flat_map leaf_entries h.
Proof.
  induction fuel as [|fuel IH]; intros h Hb Hh Hne Hf.
  { destruct h; [done|simpl in Hf; lia]. }
  rewrite merge_loop_eq. unfold PriorityQueue.Len.
  destruct (Nat.leb_spec (length h) 1) as [Hl|Hl].
  - destruct h as [|t [|]]; [done| |simpl in Hl; lia].
    exists t. split; [done|]. apply Forall_cons in Hb as [Hb _].
    split; [done|]. simpl. by rewrite app_nil_r.
  - destruct (Pop_spec h (built_no_nil _ Hb) Hh Hne) as (x & h' & -> & Hh' & Hpx & _).
    assert (Forall built (x :: h')) as Hbx by (by rewrite <- Hpx).
    apply Forall_cons in Hbx as [Hx Hb'].
    pose proof (Permutation_length Hpx) as Hlx. simpl in Hlx.
    assert (h' ≠ []) as Hne' by (intros ->; simpl in Hlx; lia).
    destruct (Pop_spec h' (built_no_nil _ Hb') Hh' Hne') as (y & h'' & Hpop & Hh'' & Hpy & _).
    cbn [mbind result_bind]. rewrite Hpop. cbn [mbind result_bind].
    assert (Forall built (y :: h'')) as Hby by (by rewrite <- Hpy).
    apply Forall_cons in Hby as [Hy Hb''].
    set (merged := mkNode x00 (wrap_int (freq_of x + freq_of y))
                     (min_byte (min_char x) (min_char y)) x y).
    assert (∀ k : Node → result (list Node),
      (lm ← MinChar x; rm ← MinChar y;
       let minChar := if byte_to_Z rm <? byte_to_Z lm then rm else lm in
       lf ← Freq x; rf ← Freq y;
       let merged := mkNode x00 (wrap_int (lf + rf)) minChar x y in
       k merged) = k merged) as Hk.
    { intros k. unfold merged. destruct Hx; destruct Hy; reflexivity. }
    rewrite (Hk (λ m, pq ← heap.Push h'' m; merge_loop fuel pq)).
    assert (built merged) as Hm by (by constructor).
    destruct (Push_spec h'' merged (built_no_nil _ Hb'') (built_not_nil _ Hm) Hh'')
      as (g & -> & Hg & Hpg).
    cbn [mbind result_bind].
    pose proof (Permutation_length Hpy) as Hly. simpl in Hly.
    pose proof (Permutation_length Hpg) as Hlg. simpl in Hlg.
    destruct (IH g) as (t & Hml & Hbt & Hlt).
    + rewrite Hpg. by constructor.
    + done.
    + intros ->. simpl in Hlg. lia.
    + lia.
    + exists t. split; [done|]. split; [done|].
      rewrite Hlt, (flat_map_leaf_entries_perm _ _ Hpg).
      rewrite (flat_map_leaf_entries_perm _ _ Hpx).
      cbn [flat_map]. rewrite (flat_map_leaf_entries_perm _ _ Hpy).
      cbn [flat_map]. unfold merged. rewrite leaf_entries_merged by done.
      by rewrite app_assoc.
Qed.

Lemma Pop_singleton t : is_nil t = false → heap.Pop [t] = Ret (t, []).
Proof.
  intros Ht. destruct (Pop_spec [t]) as (x & h' & Hpop & _ & Hp & _).
  - by constructor.
  - intros p c Hc. simpl in Hc. intros He. apply edge_lt in He. lia.
  - done.
  - rewrite Hpop. pose proof (Permutation_length Hp) as Hl.
    destruct h'; [|simpl in Hl; lia].
    apply Permutation_singleton_inj in Hp. by subst.
Qed.

Lemma buildHuffmanTree_built rng (freq : gmap byte Z) :
  range_ok rng → freq ≠ ∅ →
  ∃ t, buildHuffmanTree rng freq = Ret t ∧ built t ∧
       leaf_entries t ≡ₚ map_to_list freq.
Proof.
  intros Hr Hne. unfold buildHuffmanTree.
  destruct (Nat.eqb_spec (size freq) 0) as [E|_].
  { apply map_size_empty_iff in E. done. }
  rewrite Init_nil. cbn [mbind result_bind].
  destruct (push_leaves_spec (rng freq) [] (Forall_nil_2 _) is_heap_nil)
    as (h & -> & Hh & Hp).
  cbn [mbind result_bind]. rewrite app_nil_r in Hp.
  assert (Forall built h) as Hb.
  { rewrite Hp. apply Forall_forall. intros t Ht.
    apply list_elem_of_fmap in Ht as ([b f] & -> & _). constructor. }
  assert (h ≠ []) as Hne1.
  { intros ->. apply Permutation_nil_l in Hp. symmetry in Hp.
    apply map_eq_nil in Hp. pose proof (Hr freq) as Hp'. rewrite Hp in Hp'.
    apply Permutation_nil_l in Hp'. symmetry in Hp'.
    apply map_to_list_empty_iff in Hp'. done. }
  unfold PriorityQueue.Len.
  destruct (merge_loop_built (length h) h Hb Hh Hne1 (le_n _)) as (t & -> & Hbt & Hlt).
  cbn [mbind result_bind]. rewrite (Pop_singleton t (built_not_nil _ Hbt)).
  cbn [mbind result_bind]. exists t. split; [done|]. split; [done|].
  by rewrite Hlt, (flat_map_leaf_entries_perm _ _ Hp), flat_map_leaf_entries_leaf_of, (Hr freq).
Qed.

(** X5. For a table that is not empty there is one tree that
    [buildHuffmanTree] returns for every order in which the map is
    ranged over. Its leaves carry exactly the (symbol, count) entries of
    the table, each once, with MinChar the symbol; every internal node has
    Char 0, Freq the 64-bit sum of the Freqs of its two children and
    MinChar the smaller of their MinChars. *)
Theorem buildHuffmanTree_shape (freq : gmap byte Z) :
  freq ≠ ∅ →
  ∃ t, (∀ rng, range_ok rng → buildHuffmanTree rng freq = Ret t) ∧
       built t ∧ leaf_entries t ≡ₚ map_to_list freq.
Proof.
  intros Hne.
  destruct (buildHuffmanTree_built range_fwd freq range_fwd_ok Hne) as (t & Ht & Hb & Hl).
  exists t. split; [|done]. intros rng Hr.
  destruct (buildHuffmanTree_spec rng range_fwd freq Hr range_fwd_ok Hne)
    as (t' & H1 & H2 & _).
  congruence.
Qed.

Lemma buildHuffmanTree_shape_witness :
  ∃ t, (∀ rng, range_ok rng → buildHuffmanTree rng (buildFrequencyTable sample) = Ret t) ∧
       built t ∧ leaf_entries t ≡ₚ map_to_list (buildFrequencyTable sample).
Proof.
  apply (buildHuffmanTree_shape (buildFrequencyTable sample)).
  apply buildFrequencyTable_nonempty. discriminate.
Defined.

(** X6. [buildHuffmanTree] returns the nil tree exactly for the empty
    table, whatever the order of iteration. *)
Theorem buildHuffmanTree_nil_iff rng (freq : gmap byte Z) :
  range_ok rng →
  buildHuffmanTree rng freq = Ret Nil ↔ freq = ∅.
Proof.
  intros Hr. split.
  - intros H. destruct (decide (freq = ∅)) as [|Hne]; [done|].
    destruct (buildHuffmanTree_built rng freq Hr Hne) as (t & Ht & Hb & _).
    rewrite Ht in H. injection H as ->. inversion Hb.
  - intros ->. reflexivity.
Qed.

Lemma buildHuffmanTree_nil_iff_witness :
  buildHuffmanTree range_bwd ∅ = Ret Nil ↔ (∅ : gmap byte Z) = ∅.
Proof. apply (buildHuffmanTree_nil_iff range_bwd ∅). exact range_bwd_ok. Defined.

(** ** MinChar *)

Lemma built_min_char t :
  built t →
  min_char t ∈ leaves t ∧
  ∀ b, b ∈ leaves t → byte_to_Z (min_char t) ≤ byte_to_Z b.
Proof.
  induction 1 as [b f|l r Hl [IHl1 IHl2] Hr [IHr1 IHr2]].
  - simpl. split; [by left|]. intros b' Hb'. apply list_elem_of_singleton in Hb'. by subst.
  - rewrite leaves_internal by (by apply built_wf).
    cbn [min_char]. unfold min_byte.
    destruct (Z.ltb_spec (byte_to_Z (min_char r)) (byte_to_Z (min_char l))) as [Hlt|Hge].
    + split; [apply elem_of_app; by right|].
      intros b Hb. apply elem_of_app in Hb as [Hb|Hb].
      * specialize (IHl2 b Hb). lia.
      * by apply IHr2.
    + split; [apply elem_of_app; by left|].
      intros b Hb. apply elem_of_app in Hb as [Hb|Hb].
      * by apply IHl2.
      * specialize (IHr2 b Hb). lia.
Qed.

(** X7. The MinChar of the root of the tree [buildHuffmanTree] returns
    for a table that is not empty is the smallest symbol of the table. *)
Theorem root_MinChar_is_smallest rng (freq : gmap byte Z) :
  range_ok rng → freq ≠ ∅ →
  ∃ t m, buildHuffmanTree rng freq = Ret t ∧ MinChar t = Ret m ∧
         is_Some (freq !! m) ∧
         ∀ b, is_Some (freq !! b) → byte_to_Z m ≤ byte_to_Z b.
Proof.
  intros Hr Hne.
  destruct (buildHuffmanTree_built rng freq Hr Hne) as (t & Ht & Hb & Hl).
  destruct (built_min_char t Hb) as [H1 H2].
  assert (∀ b, b ∈ leaves t ↔ is_Some (freq !! b)) as Hiff.
  { intros b. rewrite <- leaf_entries_leaves, Hl. split.
    - intros Hin. apply list_elem_of_fmap in Hin as ([b' f] & -> & Hin).
      apply elem_of_map_to_list in Hin. eauto.
    - intros [f Hf]. apply list_elem_of_fmap. exists (b, f).
      split; [done|]. by apply elem_of_map_to_list. }
  exists t, (min_char t). split; [done|]. split.
  { destruct Hb; reflexivity. }
  split; [by apply Hiff|]. intros b Hb'. apply H2. by apply Hiff.
Qed.

Lemma root_MinChar_is_smallest_witness :
  ∃ t m, buildHuffmanTree range_fwd (buildFrequencyTable sample) = Ret t ∧ MinChar t = Ret m ∧
         is_Some (buildFrequencyTable sample !! m) ∧
         ∀ b, is_Some (buildFrequencyTable sample !! b) → byte_to_Z m ≤ byte_to_Z b.
Proof.
  apply (root_MinChar_is_smallest range_fwd (buildFrequencyTable sample)).
  - exact range_fwd_ok.
  - apply buildFrequencyTable_nonempty. discriminate.
Defined.

(** ** Freq *)

Lemma built_freq t :
  built t →
  Forall (λ e, 0 ≤ e.2) (leaf_entries t) →
  foldr Z.add 0 (leaf_entries t).*2 < 2 ^ 63 →
  freq_of t = foldr Z.add 0 (leaf_entries t).*2.
Proof.
  assert (∀ l : list (byte * Z), Forall (λ e, 0 ≤ e.2) l → 0 ≤ foldr Z.add 0 l.*2) as Hpos.
  { induction 1 as [|[b f] l He _ IH]; csimpl in *; lia. }
  assert (∀ l1 l2 : list (byte * Z),
    foldr Z.add 0 (l1 ++ l2).*2 = foldr Z.add 0 l1.*2 + foldr Z.add 0 l2.*2) as Happ.
  { intros l1 l2. induction l1 as [|[b f] l1 IH]; csimpl in *; [done|]. rewrite IH. lia. }
  induction 1 as [b f|l r Hl IHl Hr IHr]; intros Hnn Hlt.
  - simpl. lia.
  - rewrite leaf_entries_merged in Hnn, Hlt |- * by done.
    apply Forall_app in Hnn as [Hnl Hnr].
    rewrite Happ in Hlt |- *.
    pose proof (Hpos _ Hnl). pose proof (Hpos _ Hnr).
    cbn [freq_of]. rewrite IHl, IHr by (done || lia).
    unfold wrap_int.
    set (s := foldr Z.add 0 (leaf_entries l).*2 + foldr Z.add 0 (leaf_entries r).*2) in *.
    assert (0 ≤ s) by (unfold s; lia).
    rewrite (Z.mod_small (s + 2 ^ 63) (2 ^ 64)) by lia. lia.
Qed.

(** X8. When no count of the table is negative and the counts add up to
    less than 2^63, the Freq of the root of the tree is the sum of all the
    counts of the table. *)
Theorem root_Freq_is_total rng (freq : gmap byte Z) :
  range_ok rng → freq ≠ ∅ →
  map_Forall (λ _ f, 0 ≤ f) freq → table_total freq < 2 ^ 63 →
  ∃ t, buildHuffmanTree rng freq = Ret t ∧ Freq t = Ret (table_total freq).
Proof.
  intros Hr Hne Hnn Hlt.
  destruct (buildHuffmanTree_built rng freq Hr Hne) as (t & Ht & Hb & Hl).
  exists t. split; [done|].
  assert (foldr Z.add 0 (leaf_entries t).*2 = table_total freq) as Hsum.
  { unfold table_total. apply sum_perm. by rewrite Hl. }
  assert (Freq t = Ret (freq_of t)) as -> by (destruct Hb; reflexivity).
  f_equal. rewrite <- Hsum. apply built_freq; [done| |by rewrite Hsum].
  rewrite Hl. apply Forall_forall. intros [b f] Hin.
  apply elem_of_map_to_list in Hin. exact (Hnn b f Hin).
Qed.

Lemma root_Freq_is_total_witness :
  ∃ t, buildHuffmanTree range_fwd (<[x62 := 2]> {[x61 := 3]}) = Ret t ∧
       Freq t = Ret (table_total (<[x62 := 2]> {[x61 := 3]})).
Proof.
  apply (root_Freq_is_total range_fwd (<[x62 := 2]> {[x61 := 3]})).
  - exact range_fwd_ok.
  - apply insert_non_empty.
  - apply map_Forall_insert_2; [lia|]. apply map_Forall_singleton. lia.
  - reflexivity.
Defined.

(** ** The code table *)

Lemma paths_alphabet t : wf_tree t → ∀ c s,
  (c, s) ∈ paths t →
  Forall (λ a, a = "0"%char ∨ a = "1"%char) (list_ascii_of_string s).
Proof.
  induction 1 as [c f|c f m l r Hl IHl Hr IHr]; intros b s Hin.
  - apply list_elem_of_singleton in Hin. injection Hin as _ ->. constructor.
  - rewrite paths_internal in Hin by done.
    apply elem_of_app in Hin as [Hin|Hin];
      apply list_elem_of_fmap in Hin as ([b' s'] & [= -> ->] & Hin); cbn [fst snd];
      (constructor; [auto|eauto]).
Qed.

Lemma two_leaves (l : list byte) :
  NoDup l → (1 < length l)%nat → ∃ b1 b2, b1 ∈ l ∧ b2 ∈ l ∧ b1 ≠ b2.
Proof.
  intros Hnd Hlen. destruct l as [|b1 [|b2 l]]; [simpl in Hlen; lia..|].
  exists b1, b2. split; [by left|]. split; [right; by left|].
  apply NoDup_cons in Hnd as [Hn _]. intros ->. apply Hn. by left.
Qed.

(** The code table of a well-formed tree with distinct leaves. *)
Lemma codes_of_tree t :
  wf_tree t → NoDup (leaves t) →
  (∀ b, is_Some (generateCodes t EmptyString ∅ !! b) ↔ b ∈ leaves t) ∧
  ∀ b s, generateCodes t EmptyString ∅ !! b = Some s →
    Forall (λ a, a = "0"%char ∨ a = "1"%char) (list_ascii_of_string s) ∧
    (String.length s < length (leaves t))%nat ∧
    ((1 < length (leaves t))%nat → s ≠ EmptyString).
Proof.
  intros Hwf Hnd. split.
  - intros b. split.
    + intros [s Hs]. apply generateCodes_lookup in Hs; [|done..].
      by eapply paths_elem_leaves.
    + intros Hb. destruct (leaves_elem_paths t b Hwf Hb) as [s Hs].
      exists s. by apply generateCodes_lookup.
  - intros b s Hs. apply generateCodes_lookup in Hs; [|done..].
    split; [by eapply paths_alphabet|]. split.
    + by eapply paths_length.
    + intros Hlt. destruct (two_leaves _ Hnd Hlt) as (b1 & b2 & H1 & H2 & Hd).
      by eapply (paths_nonempty t b1 b2).
Qed.

(** X9. For a table that is not empty, the code table [generateCodes]
    fills from the tree of [buildHuffmanTree] has a code for exactly the
    symbols of the table; every code is made of the characters 0 and 1
    only, is shorter than the number of symbols, and is not empty when the
    table has two symbols or more. *)
Theorem code_table_shape rng (freq : gmap byte Z) :
  range_ok rng → freq ≠ ∅ →
  ∃ root, buildHuffmanTree rng freq = Ret root ∧
    (∀ b, is_Some (generateCodes root EmptyString ∅ !! b) ↔ is_Some (freq !! b)) ∧
    ∀ b s, generateCodes root EmptyString ∅ !! b = Some s →
      Forall (λ a, a = "0"%char ∨ a = "1"%char) (list_ascii_of_string s) ∧
      (String.length s < size freq)%nat ∧
      ((1 < size freq)%nat → s ≠ EmptyString).
Proof.
  intros Hr Hne.
  destruct (buildHuffmanTree_spec rng rng freq Hr Hr Hne) as (t & Ht & _ & Hwf & Hl).
  assert (NoDup (leaves t)) as Hnd.
  { rewrite Hl. apply NoDup_fst_map_to_list. }
  assert (length (leaves t) = size freq) as Hsize.
  { by rewrite Hl, length_fmap, length_map_to_list. }
  assert (∀ b, b ∈ leaves t ↔ is_Some (freq !! b)) as Hkeys.
  { intros b. rewrite Hl. split.
    - intros Hin. apply list_elem_of_fmap in Hin as ([b' f] & -> & Hin).
      apply elem_of_map_to_list in Hin. eauto.
    - intros [f Hf]. apply list_elem_of_fmap. exists (b, f).
      split; [done|]. by apply elem_of_map_to_list. }
  destruct (codes_of_tree t Hwf Hnd) as [Hdom Hcodes].
  exists t. split; [done|]. split.
  - intros b. by rewrite Hdom, Hkeys.
  - intros b s Hs. rewrite <- Hsize. exact (Hcodes b s Hs).
Qed.

Lemma code_table_shape_witness :
  ∃ root, buildHuffmanTree range_bwd (buildFrequencyTable sample) = Ret root ∧
    (∀ b, is_Some (generateCodes root EmptyString ∅ !! b)
          ↔ is_Some (buildFrequencyTable sample !! b)) ∧
    ∀ b s, generateCodes root EmptyString ∅ !! b = Some s →
      Forall (λ a, a = "0"%char ∨ a = "1"%char) (list_ascii_of_string s) ∧
      (String.length s < size (buildFrequencyTable sample))%nat ∧
      ((1 < size (buildFrequencyTable sample))%nat → s ≠ EmptyString).
Proof.
  apply (code_table_shape range_bwd (buildFrequencyTable sample)).
  - exact range_bwd_ok.
  - apply buildFrequencyTable_nonempty. discriminate.
Defined.

(** ** The packed bits *)

Lemma length_all_bits_sum codeMap data :
  length (all_bits codeMap data) = code_lengths codeMap data.
Proof.
  unfold all_bits, code_lengths. induction data as [|b data IH]; [done|].
  cbn [flat_map]. rewrite length_app, length_bits_of_string, IH. reflexivity.
Qed.

Lemma encode_total_length data (codeMap : gmap byte string) :
  Z.of_nat (code_lengths codeMap data) < 2 ^ 63 →
  (encodeDataWithCount data codeMap).2 = Z.of_nat (code_lengths codeMap data) ∧
  length (encodeDataWithCount data codeMap).1 = ((code_lengths codeMap data + 7) / 8)%nat.
Proof.
  intros Hlt. rewrite <- length_all_bits_sum in Hlt |- *.
  destruct (encodeDataWithCount_spec data codeMap Hlt) as (pad & Hpad & Hu & Ht).
  pose proof (f_equal length Hu) as Hlen.
  rewrite length_unpack, length_app, repeat_length in Hlen.
  split; [done|]. apply (Nat.div_unique _ 8 _ (7 - pad)%nat); lia.
Qed.



(** ** [HuffmanCompress] *)

(** X11. [HuffmanCompress] never panics: it returns the error of
    [os.ReadFile] when the file cannot be read, the empty-file error
    when the file has no bytes, and a blob in every other case. *)
Theorem HuffmanCompress_outcome fs rngT rngH path :
  range_ok rngT →
  match fs path with
  | None => HuffmanCompress fs rngT rngH path = Err ReadFileError
  | Some [] => HuffmanCompress fs rngT rngH path = Err EmptyFile
  | Some (_ :: _) => ∃ blob, HuffmanCompress fs rngT rngH path = Ret blob
  end.
Proof.
  intros Hr. destruct (fs path) as [[|b data]|] eqn:E.
  - unfold HuffmanCompress. by rewrite E.
  - destruct (HuffmanCompress_Ret fs rngT rngH path (b :: data) Hr E ltac:(done))
      as (root & _ & _ & _ & ->). eauto.
  - unfold HuffmanCompress. by rewrite E.
Qed.

Lemma HuffmanCompress_outcome_witness :
  ∃ blob, HuffmanCompress (one_file [x61; x62]) range_fwd range_bwd "in" = Ret blob.
Proof.
  exact (HuffmanCompress_outcome (one_file [x61; x62]) range_fwd range_bwd "in" range_fwd_ok).
Defined.

Lemma length_concat_entries (l : list (byte * Z)) :
  length (concat (map entry_bytes l)) = (5 * length l)%nat.
Proof.
  induction l as [|e l IH]; [done|].
  cbn [map concat]. rewrite length_app, IH. unfold entry_bytes.
  cbn [length]. rewrite length_le_bytes. lia.
Qed.

Lemma length_writeHeader rng (freq : gmap byte Z) :
  range_ok rng → length (writeHeader rng freq) = (2 + 5 * size freq)%nat.
Proof.
  intros Hr. rewrite writeHeader_eq, length_app, length_le_bytes, length_concat_entries.
  by rewrite (Permutation_length (Hr freq)), length_map_to_list.
Qed.

Lemma code_lengths_le codeMap data (L : nat) :
  (∀ b, b ∈ data → String.length (default EmptyString (codeMap !! b)) ≤ L)%nat →
  (code_lengths codeMap data ≤ length data * L)%nat.
Proof.
  unfold code_lengths. induction data as [|b data IH]; intros H; [simpl; lia|].
  rewrite map_cons.
  match goal with |- context [list_sum (?a :: ?l)] =>
    change (list_sum (a :: l)) with (a + list_sum l)%nat end.
  cbn [length].
  pose proof (H b ltac:(by left)).
  assert (list_sum (map (λ b, String.length (default EmptyString (codeMap !! b))) data)
          ≤ length data * L)%nat by (apply IH; intros b' Hb'; apply H; by right).
  lia.
Qed.

Lemma code_lengths_ge codeMap data :
  (∀ b, b ∈ data → 1 ≤ String.length (default EmptyString (codeMap !! b)))%nat →
  (length data ≤ code_lengths codeMap data)%nat.
Proof.
  unfold code_lengths. induction data as [|b data IH]; intros H; [simpl; lia|].
  rewrite map_cons.
  match goal with |- context [list_sum (?a :: ?l)] =>
    change (list_sum (a :: l)) with (a + list_sum l)%nat end.
  cbn [length].
  pose proof (H b ltac:(by left)).
  assert (length data
          ≤ list_sum (map (λ b, String.length (default EmptyString (codeMap !! b))) data))%nat
    by (apply IH; intros b' Hb'; apply H; by right).
  lia.
Qed.

(** X12. The size of the blob of a file of less than 2^55 bytes: 2
    bytes of entry count, 5 bytes for each distinct byte of the file, 8
    bytes of bit count, and the bits of the codes rounded up to whole
    bytes. The number of those bits is at most the length of the file
    times the number of distinct bytes less one, and at least the length
    of the file when it has two distinct bytes or more. *)
Theorem compressed_size fs rngT rngH path data :
  range_ok rngT → range_ok rngH → fs path = Some data → data ≠ [] →
  Z.of_nat (length data) * 256 < 2 ^ 63 →
  ∃ root blob,
    buildHuffmanTree rngT (buildFrequencyTable data) = Ret root ∧
    HuffmanCompress fs rngT rngH path = Ret blob ∧
    let m := size (buildFrequencyTable data) in
    let n := code_lengths (generateCodes root EmptyString ∅) data in
    (length blob = 2 + 5 * m + 8 + (n + 7) / 8)%nat ∧
    (n ≤ length data * (m - 1))%nat ∧
    ((1 < m)%nat → (length data ≤ n)%nat).
Proof.
  intros HrT HrH Hfs Hne Hlen.
  destruct (HuffmanCompress_Ret fs rngT rngH path data HrT Hfs Hne)
    as (root & Hroot & Hwf & Hl & Hc).
  assert (NoDup (leaves root)) as Hnd.
  { rewrite Hl. apply NoDup_fst_map_to_list. }
  destruct (codes_of_tree root Hwf Hnd) as [Hdom Hcodes].
  set (codeMap := generateCodes root EmptyString ∅) in *.
  set (m := size (buildFrequencyTable data)).
  assert (length (leaves root) = m) as Hsize.
  { by rewrite Hl, length_fmap, length_map_to_list. }
  assert (∀ b, b ∈ data → ∃ s, codeMap !! b = Some s ∧ (String.length s ≤ m - 1)%nat
                                ∧ ((1 < m)%nat → (1 ≤ String.length s)%nat)) as Hcode.
  { intros b Hb. apply (elem_of_leaves_of_data rngT data root Hroot Hl), Hdom in Hb as [s Hs].
    exists s. split; [done|]. destruct (Hcodes b s Hs) as (_ & Hlen' & Hn).
    split; [lia|]. intros Hm. rewrite <- Hsize in Hm. specialize (Hn Hm).
    destruct s; [done|simpl; lia]. }
  assert (code_lengths codeMap data ≤ length data * (m - 1))%nat as Hub.
  { apply code_lengths_le. intros b Hb.
    destruct (Hcode b Hb) as (s & -> & Hs & _). exact Hs. }
  assert ((1 < m)%nat → (length data ≤ code_lengths codeMap data)%nat) as Hlb.
  { intros Hm. apply code_lengths_ge. intros b Hb.
    destruct (Hcode b Hb) as (s & -> & _ & Hs). exact (Hs Hm). }
  pose proof (size_byte_map (buildFrequencyTable data)) as Hm. fold m in Hm.
  assert (Z.of_nat (code_lengths codeMap data) < 2 ^ 63) as Hbits by nia.
  destruct (encode_total_length data codeMap Hbits) as (_ & Hpl).
  exists root, (writeHeader rngH (buildFrequencyTable data)
                ++ le_bytes 8 (wrap_u64 (encodeDataWithCount data codeMap).2)
                ++ (encodeDataWithCount data codeMap).1).
  split; [done|]. split; [exact Hc|]. cbv zeta. split; [|done].
  rewrite !length_app, length_writeHeader, length_le_bytes, Hpl by done. subst m codeMap. lia.
Qed.

Lemma compressed_size_witness :
  ∃ root blob,
    buildHuffmanTree range_fwd (buildFrequencyTable sample) = Ret root ∧
    HuffmanCompress (one_file sample) range_fwd range_bwd "in" = Ret blob ∧
    let m := size (buildFrequencyTable sample) in
    let n := code_lengths (generateCodes root EmptyString ∅) sample in
    (length blob = 2 + 5 * m + 8 + (n + 7) / 8)%nat ∧
    (n ≤ length sample * (m - 1))%nat ∧
    ((1 < m)%nat → (length sample ≤ n)%nat).
Proof.
  apply (compressed_size (one_file sample) range_fwd range_bwd "in" sample).
  - exact range_fwd_ok.
  - exact range_bwd_ok.
  - reflexivity.
  - discriminate.
  - vm_compute. reflexivity.
Defined.

(** ** The decoder on a tree with two leaves or more *)

Lemma wf_tree_cases t :
  wf_tree t → (∃ c f, t = mkNode c f c Nil Nil) ∨ internal t.
Proof. intros [c f|c f m l r Hl Hr]; [left; eauto|right; unfold internal; eauto 10]. Qed.

Lemma step_inside root node (b : bool) out :
  inside root root → inside root node → Forall (λ x, x ∈ leaves root) out →
  ∃ node' out', step root node b out = Ret (node', out') ∧
    inside root node' ∧ Forall (λ x, x ∈ leaves root) out' ∧
    (length out' ≤ length out + 1)%nat.
Proof.
  intros Hroot [(c & f & m & l & r & -> & Hl & Hr) Hsub] Hout.
  rewrite leaves_internal in Hsub by done.
  set (child := if b then r else l).
  assert (wf_tree child) as Hc by (unfold child; by destruct b).
  assert (∀ x, x ∈ leaves child → x ∈ leaves root) as Hcs.
  { intros x Hx. apply Hsub, elem_of_app. unfold child in Hx. destruct b; auto. }
  rewrite (step_child root c f m l r b out child eq_refl Hc).
  destruct (wf_tree_cases child Hc) as [(c' & f' & Ec)|Hi].
  - rewrite Ec. exists root, (out ++ [c']). split; [done|]. split; [done|]. split.
    + apply Forall_app. split; [done|]. constructor; [|done].
      apply Hcs. rewrite Ec. simpl. by left.
    + rewrite length_app. simpl. lia.
  - exists child, out. split.
    + destruct Hi as (c' & f' & m' & l' & r' & -> & Hl' & Hr').
      destruct l'; [inversion Hl'|done].
    + split; [done|]. split; [done|lia].
Qed.

Lemma walk_inside root bits : ∀ node out,
  inside root root → inside root node → Forall (λ x, x ∈ leaves root) out →
  ∃ node' out', walk root node bits out = Ret (node', out') ∧
    inside root node' ∧ Forall (λ x, x ∈ leaves root) out' ∧
    (length out' ≤ length out + length bits)%nat.
Proof.
  induction bits as [|b bits IH]; intros node out Hroot Hnode Hout.
  - exists node, out. split; [done|]. split; [done|]. split; [done|]. simpl. lia.
  - destruct (step_inside root node b out Hroot Hnode Hout)
      as (node1 & out1 & Hs & Hn1 & Ho1 & Hl1).
    destruct (IH node1 out1 Hroot Hn1 Ho1) as (node2 & out2 & Hw & Hn2 & Ho2 & Hl2).
    exists node2, out2. cbn [walk]. rewrite Hs. cbn [mbind result_bind].
    split; [done|]. split; [done|]. split; [done|]. simpl. lia.
Qed.

Lemma root_inside rng (freq : gmap byte Z) :
  range_ok rng → (1 < size freq)%nat →
  ∃ root, buildHuffmanTree rng freq = Ret root ∧ is_nil root = false ∧
    inside root root ∧ ∀ b, b ∈ leaves root ↔ is_Some (freq !! b).
Proof.
  intros Hr Hsz.
  assert (freq ≠ ∅) as Hne.
  { intros ->. rewrite map_size_empty in Hsz. lia. }
  destruct (buildHuffmanTree_spec rng rng freq Hr Hr Hne) as (t & Ht & _ & Hwf & Hl).
  exists t. split; [done|]. split; [by apply wf_tree_not_nil|]. split.
  - split; [|done]. destruct (wf_tree_cases t Hwf) as [(c & f & ->)|Hi]; [|done].
    apply Permutation_length in Hl.
    rewrite length_fmap, length_map_to_list in Hl. simpl in Hl. lia.
  - intros b. rewrite Hl. split.
    + intros Hin. apply list_elem_of_fmap in Hin as ([b' f] & -> & Hin).
      apply elem_of_map_to_list in Hin. eauto.
    + intros [f Hf]. apply list_elem_of_fmap. exists (b, f).
      split; [done|]. by apply elem_of_map_to_list.
Qed.

(** X13. A blob whose header parses to a table of two entries or more
    and whose bit count is at most the number of bits of its packed
    section is decoded without panic and without error; the output has at
    most as many bytes as the bit count says bits, and every byte of it
    is a symbol of the table. *)
Theorem decode_total rng blob (freq : gmap byte Z) r tb d :
  range_ok rng →
  read_header blob = Ret (freq, r) → binary_Read 8 r = Some (tb, d) →
  (1 < size freq)%nat → tb ≤ 8 * Z.of_nat (length d) →
  ∃ out, HuffmanDecompress rng blob = Ret out ∧
         Z.of_nat (length out) ≤ tb ∧
         ∀ b, b ∈ out → is_Some (freq !! b).
Proof.
  intros Hr Hh Hb Hsz Htb.
  destruct (header_frame blob freq r tb d Hh Hb) as (Hrange & h & -> & Hd).
  rewrite Hd.
  destruct (root_inside rng freq Hr Hsz) as (root & -> & Hnil & Hin & Hkeys).
  cbn [mbind result_bind]. rewrite Hnil.
  rewrite decode_loop_walk by lia. cbv zeta.
  rewrite Z.sub_0_r.
  destruct (decide (Z.to_nat tb ≤ 8 * length d)%nat) as [_|Hn]; [|lia].
  destruct (walk_inside root (take (Z.to_nat tb) (unpack d)) root [] Hin Hin (Forall_nil_2 _))
    as (node' & out' & -> & _ & Hout & Hlen).
  cbn [mbind result_bind]. exists out'. split; [done|]. split.
  - rewrite length_take in Hlen. simpl in Hlen. lia.
  - intros b Hb'. apply Hkeys. exact (proj1 (Forall_forall _ _) Hout b Hb').
Qed.

Lemma decode_total_witness :
  ∃ out, HuffmanDecompress range_bwd sample_blob = Ret out ∧
         Z.of_nat (length out) ≤ 33 ∧
         ∀ b, b ∈ out → is_Some (buildFrequencyTable sample !! b).
Proof.
  apply (decode_total range_bwd sample_blob (buildFrequencyTable sample)
           (drop 27 sample_blob) 33 (drop 35 sample_blob)).
  - exact range_bwd_ok.
  - reflexivity.
  - reflexivity.
  - vm_compute. lia.
  - vm_compute. discriminate.
Defined.

(** X14. A blob whose header parses to a table that is not empty and
    whose bit count is 0 is decoded to the empty output, whatever its
    packed section holds. *)
Theorem zero_bits_decode_to_nothing rng blob (freq : gmap byte Z) r d :
  range_ok rng →
  read_header blob = Ret (freq, r) → binary_Read 8 r = Some (0, d) →
  freq ≠ ∅ →
  HuffmanDecompress rng blob = Ret [].
Proof.
  intros Hr Hh Hb Hne.
  destruct (header_frame blob freq r 0 d Hh Hb) as (_ & h & -> & Hd).
  rewrite Hd.
  destruct (buildHuffmanTree_spec rng rng freq Hr Hr Hne) as (t & -> & _ & Hwf & _).
  cbn [mbind result_bind]. rewrite (wf_tree_not_nil _ Hwf).
  by destruct d.
Qed.

Lemma zero_bits_decode_to_nothing_witness :
  HuffmanDecompress range_fwd
    [x01; x00; x41; x03; x00; x00; x00;
     x00; x00; x00; x00; x00; x00; x00; x00; xff] = Ret [].
Proof.
  apply (zero_bits_decode_to_nothing range_fwd _ {[x41 := 3]} 
           [x00; x00; x00; x00; x00; x00; x00; x00; xff] [xff]).
  - exact range_fwd_ok.
  - reflexivity.
  - reflexivity.
  - apply map_non_empty_singleton.
Defined.

(** X15. A blob that announces no entry is never decoded: with fewer
    than 8 bytes after the entry count the bit count cannot be read, with
    8 bytes or more the tree is nil and the blob is rejected as an invalid
    tree. *)
Theorem zero_entries_rejected rng (r : list byte) :
  HuffmanDecompress rng (x00 :: x00 :: r) =
    if (length r <? 8)%nat then Err ReadBitLengthFailed else Err InvalidTree.
Proof.
  unfold HuffmanDecompress, read_header.
  change (x00 :: x00 :: r) with ([x00; x00] ++ r).
  rewrite (binary_Read_app 2 [x00; x00] r eq_refl).
  change (Z.to_nat (le_value [x00; x00])) with 0%nat.
  cbn [read_entries mbind result_bind].
  unfold binary_Read. destruct (length r <? 8)%nat; [done|].
  by rewrite buildHuffmanTree_empty.
Qed.

(** X16. Bytes after the packed bits the bit count asks for are never
    read: when the header of a blob parses and the bit count is at most
    the number of bits of the packed section, appending any bytes to the
    blob does not change the result. *)
Theorem trailing_bytes_ignored rng blob (freq : gmap byte Z) r tb d extra :
  read_header blob = Ret (freq, r) → binary_Read 8 r = Some (tb, d) →
  tb ≤ 8 * Z.of_nat (length d) →
  HuffmanDecompress rng (blob ++ extra) = HuffmanDecompress rng blob.
Proof.
  intros Hh Hb Htb.
  destruct (header_frame blob freq r tb d Hh Hb) as (Hrange & h & -> & Hd).
  rewrite <- app_assoc, !Hd.
  destruct (buildHuffmanTree rng freq) as [root| | |]; try done.
  cbn [mbind result_bind]. destruct (is_nil root); [done|].
  rewrite !decode_loop_walk by lia. cbv zeta. rewrite Z.sub_0_r.
  rewrite length_app.
  destruct (decide (Z.to_nat tb ≤ 8 * length d)%nat) as [Hn|Hn]; [|lia].
  destruct (decide (Z.to_nat tb ≤ 8 * (length d + length extra))%nat) as [_|Hn']; [|lia].
  rewrite unpack_app, take_app_le by (rewrite length_unpack; lia). done.
Qed.

Lemma trailing_bytes_ignored_witness :
  HuffmanDecompress range_fwd (sample_blob ++ [xde; xad])
  = HuffmanDecompress range_fwd sample_blob.
Proof.
  apply (trailing_bytes_ignored range_fwd sample_blob (buildFrequencyTable sample)
           (drop 27 sample_blob) 33 (drop 35 sample_blob) [xde; xad]).
  - reflexivity.
  - reflexivity.
  - vm_compute. discriminate.
Defined.

(** X17. [HuffmanDecompress] does not depend on the order in which
    [buildHuffmanTree] ranges over the table read from the header: for
    every blob, two orders give the same output, the same error or the
    same panic. *)
Theorem HuffmanDecompress_order_independent rng1 rng2 blob :
  range_ok rng1 → range_ok rng2 →
  HuffmanDecompress rng1 blob = HuffmanDecompress rng2 blob.
Proof.
  intros H1 H2. unfold HuffmanDecompress.
  destruct (read_header blob) as [[freq r]| | |]; try done.
  cbn [mbind result_bind].
  destruct (binary_Read 8 r) as [[tb d]|]; [|done].
  destruct (decide (freq = ∅)) as [->|Hne].
  - by rewrite !buildHuffmanTree_empty.
  - destruct (buildHuffmanTree_spec rng1 rng2 freq H1 H2 Hne) as (t & -> & -> & _).
    done.
Qed.

Lemma HuffmanDecompress_order_independent_witness :
  HuffmanDecompress range_fwd sample_blob = HuffmanDecompress range_bwd sample_blob.
Proof.
  exact (HuffmanDecompress_order_independent range_fwd range_bwd sample_blob
           range_fwd_ok range_bwd_ok).
Defined.



(** ** Reading any header *)

Lemma foldl_insert_lookup_notin (l : list (byte * Z)) : ∀ (m : gmap byte Z) b,
  b ∉ l.*1 →
  foldl (λ m e, <[e.1 := wrap_u32 e.2]> m) m l !! b = m !! b.
Proof.
  induction l as [|[b' f'] l IH]; intros m b Hb; [done|].
  cbn [foldl]. rewrite fmap_cons in Hb. apply not_elem_of_cons in Hb as [Hne Hb].
  rewrite IH by done. cbn [fst snd]. by rewrite lookup_insert_ne.
Qed.

(** X19. The header parser on any list of fewer than 65536 entries,
    written as an entry count of 2 bytes and 5 bytes for each entry: the
    whole header is consumed, the bytes after it are left unread, and the
    table holds for each symbol the count of its last entry (the 32 bits
    of it), so that a symbol repeated in the header is overwritten without
    an error. *)
Theorem read_header_entries (l : list (byte * Z)) rest :
  Z.of_nat (length l) < 65536 →
  ∃ freq,
    read_header (le_bytes 2 (Z.of_nat (length l)) ++ concat (map entry_bytes l) ++ rest)
      = Ret (freq, rest) ∧
    (∀ b, is_Some (freq !! b) ↔ b ∈ l.*1) ∧
    ∀ l1 b f l2, l = l1 ++ (b, f) :: l2 → b ∉ l2.*1 → freq !! b = Some (wrap_u32 f).
Proof.
  intros Hlen.
  exists (foldl (λ m e, <[e.1 := wrap_u32 e.2]> m) ∅ l). split; [|split].
  - unfold read_header. rewrite binary_Read_le_bytes.
    change (256 ^ Z.of_nat 2) with 65536.
    rewrite Z.mod_small by lia. rewrite Nat2Z.id.
    apply read_entries_app.
  - intros b. rewrite (foldl_insert_list_to_map wrap_u32 l).
    rewrite <- elem_of_dom, dom_list_to_map_L, elem_of_list_to_set.
    rewrite fmap_reverse, elem_of_reverse, <- list_fmap_compose.
    assert ((fst ∘ prod_map id wrap_u32 <$> l) = l.*1) as ->; [|done].
    apply list_fmap_ext. by intros i [? ?] _.
  - intros l1 b f l2 -> Hb. rewrite foldl_app. cbn [foldl fst snd].
    rewrite foldl_insert_lookup_notin by done. by rewrite lookup_insert_eq.
Qed.

Lemma read_header_entries_witness :
  ∃ freq,
    read_header (le_bytes 2 (Z.of_nat (length [(x41, 1); (x42, 2); (x41, 7)]))
                 ++ concat (map entry_bytes [(x41, 1); (x42, 2); (x41, 7)]) ++ [xff])
      = Ret (freq, [xff]) ∧
    (∀ b, is_Some (freq !! b) ↔ b ∈ [(x41, 1); (x42, 2); (x41, 7)].*1) ∧
    ∀ l1 b f l2, [(x41, 1); (x42, 2); (x41, 7)] = l1 ++ (b, f) :: l2 → b ∉ l2.*1 →
                 freq !! b = Some (wrap_u32 f).
Proof.
  apply (read_header_entries [(x41, 1); (x42, 2); (x41, 7)] [xff]).
  simpl. lia.
Defined.

(** ** The round trip with any table *)

(** X20. The round trip does not depend on the counts being the true
    frequencies: for any table of two entries or more with counts below
    2^32 that has an entry for every byte of the data, the blob made of
    [writeHeader] of the table, the bit count and the packed bits of
    [encodeDataWithCount] under the codes of the tree of the table is
    decoded by [HuffmanDecompress] to the data, for any three orders of
    iteration. *)
Theorem roundtrip_any_table rngT rngH rngD (freq : gmap byte Z) data :
  range_ok rngT → range_ok rngH → range_ok rngD →
  (1 < size freq)%nat →
  map_Forall (λ _ f, 0 ≤ f < 2 ^ 32) freq →
  (∀ b, b ∈ data → is_Some (freq !! b)) →
  Z.of_nat (length data) * 256 < 2 ^ 63 →
  ∃ root,
    buildHuffmanTree rngT freq = Ret root ∧
    HuffmanDecompress rngD
      (writeHeader rngH freq
       ++ le_bytes 8 (wrap_u64 (encodeDataWithCount data (generateCodes root EmptyString ∅)).2)
       ++ (encodeDataWithCount data (generateCodes root EmptyString ∅)).1)
    = Ret data.
Proof.
  intros HrT HrH HrD Hsz Hu32 Hcover Hlen.
  assert (freq ≠ ∅) as Hne.
  { intros ->. rewrite map_size_empty in Hsz. lia. }
  destruct (buildHuffmanTree_spec rngT rngD freq HrT HrD Hne) as (t & Ht & Ht' & Hwf & Hl).
  exists t. split; [done|].
  assert (NoDup (leaves t)) as Hnd.
  { rewrite Hl. apply NoDup_fst_map_to_list. }
  assert (1 < length (leaves t))%nat as Hlt.
  { by rewrite Hl, length_fmap, length_map_to_list. }
  assert (∀ b, b ∈ data → b ∈ leaves t) as Hin.
  { intros b Hb. destruct (Hcover b Hb) as [f Hf]. rewrite Hl.
    apply list_elem_of_fmap. exists (b, f). split; [done|].
    by apply elem_of_map_to_list. }
  destruct (decode_encoded t data Hwf Hnd (two_leaves _ Hnd Hlt) Hin Hlen) as [Hr Hd].
  cbv zeta in Hr, Hd.
  unfold wrap_u64. rewrite Z.mod_small by lia.
  rewrite HuffmanDecompress_framed by (done || lia).
  rewrite fmap_wrap_u32_id by done. rewrite Ht'.
  cbn [mbind result_bind]. by rewrite (wf_tree_not_nil _ Hwf).
Qed.

Lemma roundtrip_any_table_witness :
  ∃ root,
    buildHuffmanTree range_fwd (<[x62 := 0]> {[x61 := 0]}) = Ret root ∧
    HuffmanDecompress range_bwd
      (writeHeader range_fwd (<[x62 := 0]> {[x61 := 0]})
       ++ le_bytes 8 (wrap_u64 (encodeDataWithCount [x62; x61; x62]
                                  (generateCodes root EmptyString ∅)).2)
       ++ (encodeDataWithCount [x62; x61; x62] (generateCodes root EmptyString ∅)).1)
    = Ret [x62; x61; x62].
Proof.
  apply (roundtrip_any_table range_fwd range_fwd range_bwd
           (<[x62 := 0]> {[x61 := 0]}) [x62; x61; x62]).
  - exact range_fwd_ok.
  - exact range_fwd_ok.
  - exact range_bwd_ok.
  - vm_compute. lia.
  - apply map_Forall_insert_2; [lia|]. apply map_Forall_singleton. lia.
  - intros b Hb. 
    apply elem_of_cons in Hb as [->|Hb]; [by eexists|].
    apply elem_of_cons in Hb as [->|Hb]; [by eexists|].
    apply elem_of_cons in Hb as [->|Hb]; [by eexists|].
    by apply elem_of_nil in Hb.
  - vm_compute. reflexivity.
Defined.

(** ** Depth multisets *)

Lemma full_depths_perm D D2 : full_depths D → D ≡ₚ D2 → full_depths D2.
Proof.
  intros [|d D' D0 D1 H0 Hp1 Hp2] Hp.
  - apply Permutation_singleton_l in Hp. subst. constructor.
  - eapply full_split; [exact H0|exact Hp1|]. by rewrite <- Hp.
Qed.

Lemma full_depths_deepest D :
  full_depths D → (2 ≤ length D)%nat →
  ∃ m E, D ≡ₚ S m :: S m :: E ∧ (∀ d, d ∈ D → (d ≤ S m)%nat) ∧ full_depths (m :: E).
Proof.
  induction 1 as [|d D' D0 D H0 IH Hp1 Hp2]; intros Hlen; [simpl in Hlen; lia|].
  destruct (decide (length D0 = 1)%nat) as [H1|H1].
  - assert (D' = []) as ->.
    { apply Permutation_length in Hp1. simpl in Hp1. destruct D'; [done|simpl in Hp1; lia]. }
    exists d, []. split; [done|]. split.
    + intros d' Hd'. rewrite Hp2 in Hd'.
      apply elem_of_cons in Hd' as [->|Hd']; [done|].
      apply elem_of_cons in Hd' as [->|Hd']; [done|]. by apply elem_of_nil in Hd'.
    + exact (full_depths_perm _ _ H0 Hp1).
  - assert (2 ≤ length D0)%nat as H2.
    { apply Permutation_length in Hp1. simpl in Hp1. lia. }
    destruct (IH H2) as (m0 & E0 & Hp0 & Hmax & Hadm).
    assert (d ∈ D0) as Hd by (rewrite Hp1; by left).
    pose proof (Hmax d Hd) as Hdm.
    assert (∀ x, x ∈ D' → (x ≤ S m0)%nat) as HD'.
    { intros x Hx. apply Hmax. rewrite Hp1. by right. }
    destruct (decide (d = S m0)) as [->|Hne].
    + exists (S m0), D'. split; [done|]. split.
      * intros x Hx. rewrite Hp2 in Hx.
        apply elem_of_cons in Hx as [->|Hx]; [done|].
        apply elem_of_cons in Hx as [->|Hx]; [done|].
        specialize (HD' x Hx). lia.
      * exact (full_depths_perm _ _ H0 Hp1).
    + assert (d ∈ E0) as HdE.
      { rewrite Hp0 in Hd. apply elem_of_cons in Hd as [->|Hd]; [done|].
        apply elem_of_cons in Hd as [->|Hd]; [done|]. done. }
      apply elem_of_Permutation in HdE as [E1 HE1].
      assert (D' ≡ₚ S m0 :: S m0 :: E1) as HpD'.
      { apply Permutation_cons_inv with d.
        rewrite <- Hp1, Hp0, HE1.
        exact (Permutation_app_swap_app [S m0; S m0] [d] E1). }
      exists m0, (S d :: S d :: E1). split; [|split].
      * rewrite Hp2, HpD'.
        exact (Permutation_app_swap_app [S d; S d] [S m0; S m0] E1).
      * intros x Hx. rewrite Hp2 in Hx.
        apply elem_of_cons in Hx as [->|Hx]; [lia|].
        apply elem_of_cons in Hx as [->|Hx]; [lia|]. by apply HD'.
      * eapply (full_split d (m0 :: E1)); [exact Hadm| |].
        -- rewrite HE1. apply Permutation_swap.
        -- exact (Permutation_app_swap_app [m0] [S d; S d] E1).
Qed.

(** ** Cost *)

Lemma cost_cons w d P : cost ((w, d) :: P) = w * Z.of_nat d + cost P.
Proof. reflexivity. Qed.

Lemma cost_app P1 P2 : cost (P1 ++ P2) = cost P1 + cost P2.
Proof.
  induction P1 as [|[w d] P1 IH]; [done|].
  rewrite <- app_comm_cons, !cost_cons, IH. lia.
Qed.

Lemma cost_perm P1 P2 : P1 ≡ₚ P2 → cost P1 = cost P2.
Proof.
  induction 1 as [|[w d] l l' _ IH|[w1 d1] [w2 d2] l|l l' l'' _ IH1 _ IH2];
    rewrite ?cost_cons; lia.
Qed.

Lemma cost_nonneg P : Forall (λ w, 0 ≤ w) P.*1 → 0 ≤ cost P.
Proof.
  induction P as [|[w d] P IH]; intros H; [done|].
  rewrite fmap_cons in H. apply Forall_cons in H as [Hw H].
  rewrite cost_cons. specialize (IH H). cbn [fst] in Hw. nia.
Qed.

Lemma sumZ_perm (l1 l2 : list Z) : l1 ≡ₚ l2 → sumZ l1 = sumZ l2.
Proof. apply sum_perm. Qed.

Lemma sumZ_app (l1 l2 : list Z) : sumZ (l1 ++ l2) = sumZ l1 + sumZ l2.
Proof. induction l1 as [|x l1 IH]; simpl; [done|]. unfold sumZ in *. simpl. lia. Qed.

Lemma sumZ_cons x (l : list Z) : sumZ (x :: l) = x + sumZ l.
Proof. reflexivity. Qed.

(** An entry of depth [m] in a list. *)
Lemma pick_depth (P : list (Z * nat)) m E :
  P.*2 ≡ₚ m :: E → ∃ x Q, P ≡ₚ (x, m) :: Q ∧ Q.*2 ≡ₚ E.
Proof.
  intros Hp.
  assert (m ∈ P.*2) as Hm by (rewrite Hp; by left).
  apply list_elem_of_fmap in Hm as ([x m'] & -> & Hin).
  apply elem_of_Permutation in Hin as [Q HQ].
  exists x, Q. split; [done|].
  apply Permutation_cons_inv with m'.
  rewrite <- Hp, HQ. by rewrite fmap_cons.
Qed.

(** Giving the smallest count the largest depth does not raise the cost. *)
Lemma swap_smallest (P : list (Z * nat)) x m Q a :
  P ≡ₚ (x, m) :: Q →
  (∀ e, e ∈ P → (e.2 ≤ m)%nat) →
  a ∈ P.*1 → (∀ e, e ∈ P → a ≤ e.1) →
  ∃ Q', P.*1 ≡ₚ a :: Q'.*1 ∧ Q'.*2 ≡ₚ Q.*2 ∧ cost ((a, m) :: Q') ≤ cost P.
Proof.
  intros Hp Hmax Ha Hmin.
  destruct (decide (a = x)) as [->|Hne].
  { exists Q. split; [by rewrite Hp|]. split; [done|]. by rewrite (cost_perm _ _ Hp). }
  rewrite Hp, fmap_cons in Ha. apply elem_of_cons in Ha as [Ha|Ha]; [done|].
  apply list_elem_of_fmap in Ha as ([a' d] & -> & Hin).
  apply elem_of_Permutation in Hin as [Q3 HQ3].
  exists ((x, d) :: Q3). split; [|split].
  - rewrite Hp, HQ3, !fmap_cons. apply Permutation_swap.
  - by rewrite HQ3, !fmap_cons.
  - rewrite (cost_perm _ _ Hp), !cost_cons, (cost_perm _ _ HQ3), !cost_cons. cbn [fst].
    assert (a' ≤ x) as H1.
    { apply (Hmin (x, m)). rewrite Hp. by left. }
    assert (d ≤ m)%nat as H2.
    { apply (Hmax (a', d)). rewrite Hp, HQ3. right. by left. }
    nia.
Qed.

(** One step of the construction: from any assignment of depths to the
    counts, one for the counts with the two smallest merged that costs
    their sum less, or less than that. *)
Lemma merge_two_smallest (P : list (Z * nat)) a b (R : list Z) :
  full_depths P.*2 → P.*1 ≡ₚ a :: b :: R →
  (∀ w, w ∈ b :: R → a ≤ w) → (∀ w, w ∈ R → b ≤ w) →
  ∃ P', full_depths P'.*2 ∧ P'.*1 ≡ₚ (a + b) :: R ∧ cost P' + a + b ≤ cost P.
Proof.
  intros Hadm Hw Ha Hb.
  assert (2 ≤ length P.*2)%nat as Hlen.
  { rewrite length_fmap, <- (length_fmap fst), Hw. simpl. lia. }
  destruct (full_depths_deepest _ Hadm Hlen) as (m & E & Hp & Hmax & Hadm').
  destruct (pick_depth P (S m) (S m :: E) Hp) as (x & Q1 & HP & HQ1).
  assert (∀ e, e ∈ P → (e.2 ≤ S m)%nat) as HmaxP.
  { intros e He. apply Hmax. apply list_elem_of_fmap. eauto. }
  destruct (swap_smallest P x (S m) Q1 a HP HmaxP) as (Q1' & Hw1 & Hd1 & Hc1).
  { rewrite Hw. by left. }
  { intros e He. assert (e.1 ∈ a :: b :: R) as Hin.
    { rewrite <- Hw. apply list_elem_of_fmap. eauto. }
    apply elem_of_cons in Hin as [->|Hin]; [done|]. by apply Ha. }
  assert (Q1'.*1 ≡ₚ b :: R) as Hw1'.
  { apply Permutation_cons_inv with a. by rewrite <- Hw1. }
  destruct (pick_depth Q1' (S m) E) as (y & Q2 & HQ1' & HQ2).
  { by rewrite Hd1. }
  destruct (swap_smallest Q1' y (S m) Q2 b HQ1') as (Q2' & Hw2 & Hd2 & Hc2).
  { intros e He. apply Hmax. rewrite Hp, <- HQ1, <- Hd1.
    right. apply list_elem_of_fmap. eauto. }
  { rewrite Hw1'. by left. }
  { intros e He. assert (e.1 ∈ b :: R) as Hin.
    { rewrite <- Hw1'. apply list_elem_of_fmap. eauto. }
    apply elem_of_cons in Hin as [->|Hin]; [done|]. by apply Hb. }
  exists ((a + b, m) :: Q2'). split; [|split].
  - rewrite fmap_cons. cbn [snd]. eapply full_depths_perm; [exact Hadm'|].
    by rewrite Hd2, HQ2.
  - rewrite fmap_cons. cbn [fst]. f_equiv.
    apply Permutation_cons_inv with b. by rewrite <- Hw2.
  - rewrite !cost_cons in *. cbn [fst] in *. lia.
Qed.

(** ** The depths of the leaves of a tree *)

Lemma leaf_entries_node c f m l r :
  is_nil l = false ∨ is_nil r = false →
  leaf_entries (mkNode c f m l r) = leaf_entries l ++ leaf_entries r.
Proof. intros [H|H]; destruct l, r; done. Qed.

Lemma depths_node c f m l r d :
  is_nil l = false ∨ is_nil r = false →
  depths (mkNode c f m l r) d = depths l (S d) ++ depths r (S d).
Proof. intros [H|H]; destruct l, r; done. Qed.

Lemma depths_fst t : ∀ d, (depths t d).*1 = (leaf_entries t).*2.
Proof.
  induction t as [|c f m l IHl r IHr]; intros d; [done|].
  destruct (is_nil l) eqn:El; [destruct (is_nil r) eqn:Er|].
  - destruct l, r; done.
  - rewrite leaf_entries_node, depths_node by auto.
    by rewrite !fmap_app, IHl, IHr.
  - rewrite leaf_entries_node, depths_node by auto.
    by rewrite !fmap_app, IHl, IHr.
Qed.

Lemma cost_depths_S t : ∀ d,
  cost (depths t (S d)) = cost (depths t d) + sumZ (leaf_entries t).*2.
Proof.
  induction t as [|c f m l IHl r IHr]; intros d; [done|].
  destruct (is_nil l) eqn:El; [destruct (is_nil r) eqn:Er|].
  - destruct l, r; try done. cbn [depths leaf_entries]. rewrite !cost_cons.
    cbn [fst snd cost foldr fmap list_fmap sumZ]. lia.
  - rewrite leaf_entries_node, !depths_node by auto.
    rewrite fmap_app, sumZ_app, !cost_app, (IHl (S d)), (IHr (S d)). lia.
  - rewrite leaf_entries_node, !depths_node by auto.
    rewrite fmap_app, sumZ_app, !cost_app, (IHl (S d)), (IHr (S d)). lia.
Qed.

Lemma sumZ_nonneg (l : list Z) : Forall (λ w, 0 ≤ w) l → 0 ≤ sumZ l.
Proof. induction 1 as [|x l Hx _ IH]; [done|]. rewrite sumZ_cons. lia. Qed.

Lemma Forall_snd_nonneg (l : list (byte * Z)) :
  Forall (λ e, 0 ≤ e.2) l → Forall (λ w, 0 ≤ w) l.*2.
Proof. intros H. apply Forall_fmap. exact H. Qed.

Lemma weighted_length_merged c f m l r :
  built l → built r →
  weighted_length (mkNode c f m l r)
  = weighted_length l + weighted_length r
    + sumZ (leaf_entries l).*2 + sumZ (leaf_entries r).*2.
Proof.
  intros Hl Hr. unfold weighted_length.
  rewrite depths_node by (left; by apply built_not_nil).
  rewrite cost_app, !cost_depths_S. lia.
Qed.

(** Any tree that is not nil costs at least as much as some tree in which
    every node has no child or two, with the same counts at the leaves. *)
Lemma tree_full_depths t :
  is_nil t = false → Forall (λ e, 0 ≤ e.2) (leaf_entries t) →
  ∀ d, ∃ P, P.*1 ≡ₚ (leaf_entries t).*2 ∧ cost P ≤ cost (depths t d) ∧
            ∀ D', full_depths (d :: D') → full_depths (P.*2 ++ D').
Proof.
  induction t as [|c f m l IHl r IHr]; intros Hnil Hnn d; [done|].
  destruct (is_nil l) eqn:El; [destruct (is_nil r) eqn:Er|].
  - destruct l, r; try done. exists [(f, d)]. split; [done|]. split; [done|]. done.
  - rewrite leaf_entries_node in Hnn |- * by auto.
    rewrite depths_node by auto. destruct l; [|done].
    cbn [leaf_entries depths app] in *.
    destruct (IHr eq_refl Hnn d) as (P & H1 & H2 & H3).
    exists P. split; [done|]. split; [|done].
    rewrite cost_depths_S.
    pose proof (sumZ_nonneg _ (Forall_snd_nonneg _ Hnn)). lia.
  - rewrite leaf_entries_node in Hnn |- * by auto.
    rewrite depths_node by auto.
    apply Forall_app in Hnn as [Hnl Hnr].
    destruct (is_nil r) eqn:Er.
    + destruct r; [|done]. cbn [leaf_entries depths]. rewrite !app_nil_r.
      destruct (IHl eq_refl Hnl d) as (P & H1 & H2 & H3).
      exists P. split; [done|]. split; [|done].
      rewrite cost_depths_S.
      pose proof (sumZ_nonneg _ (Forall_snd_nonneg _ Hnl)). lia.
    + destruct (IHl eq_refl Hnl (S d)) as (Pl & Hl1 & Hl2 & Hl3).
      destruct (IHr eq_refl Hnr (S d)) as (Pr & Hr1 & Hr2 & Hr3).
      exists (Pl ++ Pr). split; [|split].
      * by rewrite !fmap_app, Hl1, Hr1.
      * rewrite !cost_app. lia.
      * intros D' HD'.
        assert (full_depths (S d :: S d :: D')) as H2.
        { by eapply (full_split d D' (d :: D')). }
        apply Hl3 in H2.
        assert (full_depths (S d :: (Pl.*2 ++ D'))) as H3.
        { eapply full_depths_perm; [exact H2|]. by rewrite Permutation_middle. }
        apply Hr3 in H3. eapply full_depths_perm; [exact H3|].
        rewrite fmap_app, <- app_assoc. apply Permutation_app_swap_app.
Qed.

(** ** The queue *)

Lemma key_freq_of t : (key t).1 = freq_of t.
Proof. by destruct t. Qed.

Lemma lessb_false_freq z x : lessb z x = false → freq_of x ≤ freq_of z.
Proof. intros H. apply lessb_false in H. rewrite !key_freq_of in H. lia. Qed.

Lemma good_perm h1 h2 : h1 ≡ₚ h2 → good h1 → good h2.
Proof.
  intros Hp (Hb & Hnn & Hs).
  pose proof (flat_map_leaf_entries_perm _ _ Hp) as Hf.
  split; [by rewrite <- Hp|]. split; [by rewrite <- Hf|].
  by rewrite <- (sumZ_perm _ _ (fmap_Permutation snd _ _ Hf)).
Qed.

Lemma good_head x h :
  good (x :: h) →
  built x ∧ freq_of x = sumZ (leaf_entries x).*2 ∧ 0 ≤ freq_of x ∧ good h.
Proof.
  intros (Hb & Hnn & Hs). apply Forall_cons in Hb as [Hx Hb].
  cbn [flat_map] in Hnn, Hs. apply Forall_app in Hnn as [Hnx Hnh].
  rewrite fmap_app, sumZ_app in Hs.
  pose proof (sumZ_nonneg _ (Forall_snd_nonneg _ Hnx)).
  pose proof (sumZ_nonneg _ (Forall_snd_nonneg _ Hnh)).
  assert (freq_of x = sumZ (leaf_entries x).*2) as E.
  { apply built_freq; [done|done|]. fold (sumZ (leaf_entries x).*2). lia. }
  split; [done|]. split; [done|]. split; [lia|].
  split; [done|]. split; [done|lia].
Qed.

(** The second loop of [buildHuffmanTree] ends with a tree that costs no
    more than the trees of the queue under any tree over their Freqs. *)
Lemma merge_loop_optimal fuel : ∀ h,
  good h → is_heap h → h ≠ [] → (length h ≤ fuel)%nat →
  ∃ t, merge_loop fuel h = Ret [t] ∧
    ∀ P, full_depths P.*2 → P.*1 ≡ₚ map freq_of h →
         weighted_length t ≤ sumZ (map weighted_length h) + cost P.
Proof.
  induction fuel as [|fuel IH]; intros h Hg Hh Hne Hf.
  { destruct h; [done|simpl in Hf; lia]. }
  rewrite merge_loop_eq. unfold PriorityQueue.Len.
  destruct (Nat.leb_spec (length h) 1) as [Hl|Hl].
  - destruct h as [|t [|]]; [done| |simpl in Hl; lia].
    exists t. split; [done|]. intros P _ HP.
    destruct (good_head _ _ Hg) as (_ & _ & Hpos & _).
    assert (0 ≤ cost P).
    { apply cost_nonneg. rewrite HP. by repeat constructor. }
    cbn [map]. rewrite sumZ_cons. cbn [sumZ foldr]. lia.
  - pose proof (proj1 Hg) as Hb.
    destruct (Pop_spec h (built_no_nil _ Hb) Hh Hne) as (x & h' & -> & Hh' & Hpx & Hminx).
    pose proof (good_perm _ _ Hpx Hg) as Hgx.
    destruct (good_head _ _ Hgx) as (Hx & Hfx & Hx0 & Hg').
    pose proof (Permutation_length Hpx) as Hlx. simpl in Hlx.
    assert (h' ≠ []) as Hne' by (intros ->; simpl in Hlx; lia).
    pose proof (proj1 Hg') as Hb'.
    destruct (Pop_spec h' (built_no_nil _ Hb') Hh' Hne') as (y & h'' & Hpop & Hh'' & Hpy & Hminy).
    cbn [mbind result_bind]. rewrite Hpop. cbn [mbind result_bind].
    pose proof (good_perm _ _ Hpy Hg') as Hgy.
    destruct (good_head _ _ Hgy) as (Hy & Hfy & Hy0 & Hg'').
    set (merged := mkNode x00 (wrap_int (freq_of x + freq_of y))
                     (min_byte (min_char x) (min_char y)) x y).
    assert (∀ k : Node → result (list Node),
      (lm ← MinChar x; rm ← MinChar y;
       let minChar := if byte_to_Z rm <? byte_to_Z lm then rm else lm in
       lf ← Freq x; rf ← Freq y;
       let merged := mkNode x00 (wrap_int (lf + rf)) minChar x y in
       k merged) = k merged) as Hk.
    { intros k. unfold merged. destruct Hx; destruct Hy; reflexivity. }
    rewrite (Hk (λ m, pq ← heap.Push h'' m; merge_loop fuel pq)).
    assert (built merged) as Hm by (by constructor).
    assert (leaf_entries merged = leaf_entries x ++ leaf_entries y) as Hlm.
    { by apply leaf_entries_merged. }
    assert (good (merged :: h'')) as Hgm.
    { eapply good_perm in Hgx; [|by rewrite Hpy].
      destruct Hgx as (Hb1 & Hn1 & Hs1).
      apply Forall_cons in Hb1 as [_ Hb1]. apply Forall_cons in Hb1 as [_ Hb1].
      unfold good. cbn [flat_map] in *. rewrite Hlm, <- app_assoc.
      split; [by constructor|]. by split. }
    destruct (good_head _ _ Hgm) as (_ & Hfm & _ & _).
    rewrite Hlm, fmap_app, sumZ_app, <- Hfx, <- Hfy in Hfm.
    destruct (Push_spec h'' merged) as (g & -> & Hg3 & Hpg).
    { apply built_no_nil. by destruct Hg'' as (? & _). }
    { by apply built_not_nil. }
    { done. }
    cbn [mbind result_bind].
    pose proof (Permutation_length Hpy) as Hly. simpl in Hly.
    pose proof (Permutation_length Hpg) as Hlg. simpl in Hlg.
    destruct (IH g) as (t & Hml & Hopt).
    + eapply good_perm; [symmetry; exact Hpg|done].
    + done.
    + intros ->. simpl in Hlg. lia.
    + lia.
    + exists t. split; [done|]. intros P HP1 HP2.
      destruct (merge_two_smallest P (freq_of x) (freq_of y) (map freq_of h'')) as
        (P' & HP1' & HP2' & Hc); [done| | | |].
      * rewrite HP2, Hpx. cbn [map]. f_equiv. rewrite Hpy. done.
      * intros w Hw.
        assert (w ∈ map freq_of h') as Hw' by (by rewrite Hpy).
        apply list_elem_of_fmap in Hw' as (z & -> & Hz).
        apply lessb_false_freq. exact (proj1 (Forall_forall _ _) Hminx z Hz).
      * intros w Hw. apply list_elem_of_fmap in Hw as (z & -> & Hz).
        apply lessb_false_freq. exact (proj1 (Forall_forall _ _) Hminy z Hz).
      * specialize (Hopt P' HP1').
        assert (P'.*1 ≡ₚ map freq_of g) as HPg.
        { rewrite HP2', Hpg. cbn [map]. by rewrite Hfm. }
        specialize (Hopt HPg).
        assert (sumZ (map weighted_length g)
                = weighted_length merged + sumZ (map weighted_length h'')) as Eg.
        { rewrite (sumZ_perm _ (map weighted_length (merged :: h''))); [done|].
          by rewrite Hpg. }
        assert (sumZ (map weighted_length h)
                = weighted_length x + weighted_length y + sumZ (map weighted_length h'')) as Eh.
        { rewrite (sumZ_perm _ (map weighted_length (x :: y :: h''))).
          - cbn [map]. rewrite !sumZ_cons. lia.
          - by rewrite Hpx, Hpy. }
        unfold merged in Eg. rewrite weighted_length_merged in Eg by done.
        lia.
Qed.

Lemma map_freq_of_leaf_of (l : list (byte * Z)) : map freq_of (map leaf_of l) = l.*2.
Proof. induction l as [|[b f] l IH]; [done|]. cbn [map]. rewrite IH. done. Qed.

Lemma weighted_length_leaves (l : list (byte * Z)) :
  sumZ (map weighted_length (map leaf_of l)) = 0.
Proof.
  induction l as [|[b f] l IH]; [done|].
  cbn [map]. rewrite sumZ_cons, IH.
  unfold weighted_length, leaf_of. cbn. lia.
Qed.

(** The tree of [buildHuffmanTree] costs no more than any assignment of
    the depths of a full tree to the counts of the table. *)
Lemma optimal_depth_cost rng (freq : gmap byte Z) :
  range_ok rng → freq ≠ ∅ →
  map_Forall (λ _ f, 0 ≤ f) freq → table_total freq < 2 ^ 63 →
  ∃ t, buildHuffmanTree rng freq = Ret t ∧
    ∀ P, full_depths P.*2 → P.*1 ≡ₚ (map_to_list freq).*2 → weighted_length t ≤ cost P.
Proof.
  intros Hr Hne Hnn Hlt.
  destruct (buildHuffmanTree_built rng freq Hr Hne) as (t & Ht & _).
  exists t. split; [done|].
  revert Ht. unfold buildHuffmanTree.
  destruct (Nat.eqb_spec (size freq) 0) as [E|_].
  { apply map_size_empty_iff in E. done. }
  rewrite Init_nil. cbn [mbind result_bind].
  destruct (push_leaves_spec (rng freq) [] (Forall_nil_2 _) is_heap_nil)
    as (h & -> & Hh & Hp).
  cbn [mbind result_bind]. rewrite app_nil_r in Hp.
  assert (h ≡ₚ map leaf_of (map_to_list freq)) as Hp'.
  { rewrite Hp. apply Permutation_map, Hr. }
  assert (Forall (λ e : byte * Z, 0 ≤ e.2) (map_to_list freq)) as Hnn'.
  { apply Forall_forall. intros [b f] Hin.
    apply elem_of_map_to_list in Hin. exact (Hnn b f Hin). }
  assert (good h) as Hg.
  { eapply good_perm; [symmetry; exact Hp'|].
    unfold good. rewrite flat_map_leaf_entries_leaf_of. split; [|by split].
    apply Forall_forall. intros x Hx.
    apply list_elem_of_fmap in Hx as ([b f] & -> & _). constructor. }
  assert (h ≠ []) as Hne1.
  { intros ->. apply Permutation_nil_l in Hp'. symmetry in Hp'.
    apply map_eq_nil in Hp'. apply map_to_list_empty_iff in Hp'. done. }
  unfold PriorityQueue.Len.
  destruct (merge_loop_optimal (length h) h Hg Hh Hne1 (le_n _)) as (t0 & Hml & Hopt).
  rewrite Hml. cbn [mbind result_bind].
  destruct (heap.Pop [t0]) as [[root rest]| | |] eqn:Epop; try done.
  cbn [mbind result_bind]. intros [= ->].
  assert (t = t0) as ->.
  { destruct Hg as (Hb & _).
    destruct (merge_loop_built (length h) h Hb Hh Hne1 (le_n _)) as (t1 & Ht1 & Hb1 & _).
    assert (t1 = t0) as -> by congruence.
    rewrite (Pop_singleton t0 (built_not_nil _ Hb1)) in Epop. congruence. }
  intros P HP1 HP2.
  assert (map freq_of h ≡ₚ (map_to_list freq).*2) as Hw.
  { by rewrite Hp', map_freq_of_leaf_of. }
  rewrite <- Hw in HP2. specialize (Hopt P HP1 HP2).
  assert (sumZ (map weighted_length h) = 0) as E0.
  { rewrite (sumZ_perm _ (map weighted_length (map leaf_of (map_to_list freq))));
      [|by rewrite Hp'].
    apply weighted_length_leaves. }
  lia.
Qed.

(** A tree over the entries of a table costs at least as much as some
    assignment of the depths of a full tree to the counts. *)
Lemma tree_depth_cost (freq : gmap byte Z) (other : Node) :
  freq ≠ ∅ → map_Forall (λ _ f, 0 ≤ f) freq →
  leaf_entries other ≡ₚ map_to_list freq →
  ∃ P, full_depths P.*2 ∧ P.*1 ≡ₚ (map_to_list freq).*2 ∧ cost P ≤ weighted_length other.
Proof.
  intros Hne Hnn Hother.
  assert (is_nil other = false) as Hnil.
  { destruct other; [|done]. simpl in Hother.
    apply Permutation_nil_l in Hother. symmetry in Hother.
    apply map_to_list_empty_iff in Hother. done. }
  destruct (tree_full_depths other Hnil) with (d := 0%nat) as (P & HP1 & HP2 & HP3).
  { rewrite Hother. apply Forall_forall. intros [b f] Hin.
    apply elem_of_map_to_list in Hin. exact (Hnn b f Hin). }
  specialize (HP3 [] full_one). rewrite app_nil_r in HP3.
  exists P. split; [done|]. split; [by rewrite HP1, Hother|done].
Qed.

(** X21. The tree of [buildHuffmanTree] is optimal. When no count of
    the table is negative and the counts add up to less than 2^63, no
    tree with the entries of the table at its leaves has a smaller sum of
    count times depth of the leaf, that is, no code read off a tree spends
    fewer bits on data in which every symbol occurs as often as the table
    says. *)
Theorem buildHuffmanTree_optimal rng (freq : gmap byte Z) (other : Node) :
  range_ok rng → freq ≠ ∅ →
  map_Forall (λ _ f, 0 ≤ f) freq → table_total freq < 2 ^ 63 →
  leaf_entries other ≡ₚ map_to_list freq →
  ∃ t, buildHuffmanTree rng freq = Ret t ∧
       weighted_length t ≤ weighted_length other.
Proof.
  intros Hr Hne Hnn Hlt Hother.
  destruct (optimal_depth_cost rng freq Hr Hne Hnn Hlt) as (t & Ht & Hopt).
  destruct (tree_depth_cost freq other Hne Hnn Hother) as (P & HP1 & HP2 & HP3).
  exists t. split; [done|].
  specialize (Hopt P HP1 HP2). lia.
Qed.

Lemma buildHuffmanTree_optimal_witness :
  ∃ t, buildHuffmanTree range_fwd (<[x63 := 1]> (<[x62 := 1]> {[x61 := 3]})) = Ret t ∧
       weighted_length t
       ≤ weighted_length
           (mkNode x00 0 x00
              (mkNode x00 0 x00 (mkNode x62 1 x62 Nil Nil) (mkNode x61 3 x61 Nil Nil))
              (mkNode x63 1 x63 Nil Nil)).
Proof.
  apply (buildHuffmanTree_optimal range_fwd (<[x63 := 1]> (<[x62 := 1]> {[x61 := 3]}))).
  - exact range_fwd_ok.
  - apply insert_non_empty.
  - apply map_Forall_insert_2; [lia|]. apply map_Forall_insert_2; [lia|].
    apply map_Forall_singleton. lia.
  - reflexivity.
  - vm_compute. reflexivity.
Defined.

(** ** The bits of the encoding and the depths of the leaves *)

Lemma weighted_cons g b f l : weighted g ((b, f) :: l) = f * g b + weighted g l.
Proof. reflexivity. Qed.

Lemma weighted_app g l1 l2 : weighted g (l1 ++ l2) = weighted g l1 + weighted g l2.
Proof. unfold weighted. by rewrite map_app, sumZ_app. Qed.

Lemma weighted_perm g l1 l2 : l1 ≡ₚ l2 → weighted g l1 = weighted g l2.
Proof. intros Hp. unfold weighted. apply sumZ_perm. by rewrite Hp. Qed.

Lemma weighted_insert_fresh g (m : gmap byte Z) i y :
  m !! i = None →
  weighted g (map_to_list (<[i := y]> m)) = y * g i + weighted g (map_to_list m).
Proof.
  intros Hi. rewrite (weighted_perm g _ ((i, y) :: map_to_list m)); [done|].
  by apply map_to_list_insert.
Qed.

Lemma weighted_insert g (m : gmap byte Z) i y :
  weighted g (map_to_list (<[i := y]> m))
  = y * g i + weighted g (map_to_list m) - default 0 (m !! i) * g i.
Proof.
  destruct (m !! i) as [v|] eqn:Hi.
  - rewrite <- (insert_delete_eq m i y).
    rewrite weighted_insert_fresh by apply lookup_delete_eq.
    rewrite <- (insert_delete_id m i v Hi) at 2.
    rewrite weighted_insert_fresh by apply lookup_delete_eq.
    cbn [default from_option id]. lia.
  - rewrite weighted_insert_fresh by done. cbn [default from_option id]. lia.
Qed.

(** Summing over the file is summing over the table, each entry as often
    as it counts. *)
Lemma weighted_table g data :
  Z.of_nat (length data) < 2 ^ 63 →
  weighted g (map_to_list (buildFrequencyTable data)) = sumZ (map g data).
Proof.
  induction data as [|x data IH] using rev_ind; intros Hlen.
  - unfold buildFrequencyTable. cbn [foldl]. by rewrite map_to_list_empty.
  - rewrite length_app in Hlen. cbn [length] in Hlen.
    destruct (buildFrequencyTable_total_aux data ltac:(lia)) as [_ Hall].
    rewrite buildFrequencyTable_snoc.
    assert (0 ≤ default 0 (buildFrequencyTable data !! x) ≤ Z.of_nat (length data)) as Hx.
    { destruct (buildFrequencyTable data !! x) as [v|] eqn:E; cbn [default from_option id].
      - specialize (Hall x v E). simpl in Hall. lia.
      - lia. }
    assert (wrap_int (default 0 (buildFrequencyTable data !! x) + 1)
            = default 0 (buildFrequencyTable data !! x) + 1) as ->.
    { unfold wrap_int. rewrite Z.mod_small by lia. lia. }
    rewrite weighted_insert, IH by lia.
    rewrite map_app, sumZ_app. cbn [map]. rewrite sumZ_cons. cbn [sumZ foldr]. lia.
Qed.

Lemma code_lengths_sumZ codeMap data :
  Z.of_nat (code_lengths codeMap data)
  = sumZ (map (λ b, Z.of_nat (String.length (default EmptyString (codeMap !! b)))) data).
Proof.
  unfold code_lengths. induction data as [|b data IH]; [done|].
  rewrite !map_cons, sumZ_cons, <- IH.
  match goal with |- context [list_sum (?a :: ?l)] =>
    change (list_sum (a :: l)) with (a + list_sum l)%nat end.
  lia.
Qed.

Lemma weighted_depths t : wf_tree t → ∀ (d : nat) (G : byte → Z),
  (∀ b s, (b, s) ∈ paths t → G b = Z.of_nat (d + String.length s)) →
  weighted G (leaf_entries t) = cost (depths t d).
Proof.
  induction 1 as [c f|c f m l r Hl IHl Hr IHr]; intros d G HG.
  - cbn [leaf_entries depths]. rewrite weighted_cons, cost_cons.
    rewrite (HG c EmptyString) by (by left). cbn. lia.
  - pose proof (wf_tree_not_nil _ Hl) as Hnl.
    rewrite leaf_entries_node, depths_node by auto.
    rewrite weighted_app, cost_app.
    rewrite paths_internal in HG by done.
    rewrite (IHl (S d) G), (IHr (S d) G); [done| |].
    + intros b s Hin. rewrite (HG b (String "1" s)).
      * cbn [String.length]. f_equal. lia.
      * apply elem_of_app. right. apply list_elem_of_fmap. by exists (b, s).
    + intros b s Hin. rewrite (HG b (String "0" s)).
      * cbn [String.length]. f_equal. lia.
      * apply elem_of_app. left. apply list_elem_of_fmap. by exists (b, s).
Qed.

(** The bits a tree spends on a file whose table it carries. *)
Lemma tree_bits t data :
  wf_tree t → leaf_entries t ≡ₚ map_to_list (buildFrequencyTable data) →
  Z.of_nat (length data) * 256 < 2 ^ 63 →
  (encodeDataWithCount data (generateCodes t EmptyString ∅)).2 = weighted_length t.
Proof.
  intros Hwf Hle Hlen.
  assert (leaves t ≡ₚ (map_to_list (buildFrequencyTable data)).*1) as Hl.
  { by rewrite <- leaf_entries_leaves, Hle. }
  assert (NoDup (leaves t)) as Hnd.
  { rewrite Hl. apply NoDup_fst_map_to_list. }
  set (codeMap := generateCodes t EmptyString ∅).
  assert (length (leaves t) ≤ 256)%nat as Hsz.
  { rewrite Hl, length_fmap, length_map_to_list. apply size_byte_map. }
  assert (code_lengths codeMap data ≤ length data * 255)%nat as Hub.
  { apply code_lengths_le. intros b _.
    destruct (codeMap !! b) as [s|] eqn:E; cbn [default from_option id]; [|simpl; lia].
    apply generateCodes_lookup in E; [|done..].
    pose proof (paths_length t b s Hwf E). change (String.length (id s)) with (String.length s). lia. }
  destruct (encode_total_length data codeMap) as (-> & _); [lia|].
  rewrite code_lengths_sumZ.
  rewrite <- (weighted_table (λ b, Z.of_nat (String.length (default EmptyString (codeMap !! b)))))
    by lia.
  rewrite <- (weighted_perm _ _ _ Hle).
  unfold weighted_length. apply weighted_depths; [done|].
  intros b s Hin. apply generateCodes_lookup in Hin; [|done..].
  fold codeMap in Hin. by rewrite Hin.
Qed.

(** X22. The bit count of the encoding. For a file of less than 2^55
    bytes that is not empty, the bit count [encodeDataWithCount] returns
    under the codes of the tree of [buildHuffmanTree] is the sum over the
    leaves of count times depth, and no well-formed tree with the entries
    of the frequency table at its leaves gives codes under which
    [encodeDataWithCount] returns a smaller bit count. *)
Theorem compressed_bits_minimal rng data (other : Node) :
  range_ok rng → data ≠ [] → Z.of_nat (length data) * 256 < 2 ^ 63 →
  wf_tree other → leaf_entries other ≡ₚ map_to_list (buildFrequencyTable data) →
  ∃ root,
    buildHuffmanTree rng (buildFrequencyTable data) = Ret root ∧
    (encodeDataWithCount data (generateCodes root EmptyString ∅)).2 = weighted_length root ∧
    (encodeDataWithCount data (generateCodes root EmptyString ∅)).2
    ≤ (encodeDataWithCount data (generateCodes other EmptyString ∅)).2.
Proof.
  intros Hr Hne Hlen Hwf Hle.
  pose proof (buildFrequencyTable_nonempty _ Hne) as Hne'.
  destruct (buildFrequencyTable_total_aux data ltac:(lia)) as [Htot Hall].
  destruct (buildHuffmanTree_built rng _ Hr Hne') as (root & Hroot & Hb & Hlr).
  assert (map_Forall (λ _ f, 0 ≤ f) (buildFrequencyTable data)) as Hnn.
  { intros b v Hv. specialize (Hall b v Hv). simpl in Hall. lia. }
  destruct (optimal_depth_cost rng (buildFrequencyTable data) Hr Hne' Hnn)
    as (root' & Hroot' & Hopt); [lia|].
  destruct (tree_depth_cost _ other Hne' Hnn Hle) as (P & HP1 & HP2 & HP3).
  specialize (Hopt P HP1 HP2).
  assert (root' = root) as -> by congruence.
  exists root. split; [done|].
  rewrite (tree_bits root data (built_wf _ Hb) Hlr Hlen).
  rewrite (tree_bits other data Hwf Hle Hlen). split; [done|lia].
Qed.

Lemma compressed_bits_minimal_witness :
  ∃ root,
    buildHuffmanTree range_fwd (buildFrequencyTable [x61; x62; x61; x63; x61]) = Ret root ∧
    (encodeDataWithCount [x61; x62; x61; x63; x61] (generateCodes root EmptyString ∅)).2
      = weighted_length root ∧
    (encodeDataWithCount [x61; x62; x61; x63; x61] (generateCodes root EmptyString ∅)).2
    ≤ (encodeDataWithCount [x61; x62; x61; x63; x61]
         (generateCodes
            (mkNode x00 0 x00
               (mkNode x00 0 x00 (mkNode x62 1 x62 Nil Nil) (mkNode x61 3 x61 Nil Nil))
               (mkNode x63 1 x63 Nil Nil)) EmptyString ∅)).2.
Proof.
  apply (compressed_bits_minimal range_fwd [x61; x62; x61; x63; x61]).
  - exact range_fwd_ok.
  - discriminate.
  - vm_compute. reflexivity.
  - repeat constructor.
  - vm_compute. reflexivity.
Defined.

(** ** The blob determines the file *)

Lemma one_or_two_bytes (B : list byte) :
  B ≠ [] →
  (∃ b1 b2, b1 ∈ B ∧ b2 ∈ B ∧ b1 ≠ b2) ∨ (∃ b, ∀ x, x ∈ B → x = b).
Proof.
  induction B as [|b B IH]; [done|]. intros _.
  destruct B as [|b' B].
  { right. exists b. intros x Hx. apply elem_of_cons in Hx as [->|Hx]; [done|].
    by apply elem_of_nil in Hx. }
  destruct (IH ltac:(done)) as [(b1 & b2 & H1 & H2 & Hd)|[c Hc]].
  - left. exists b1, b2. split; [by right|]. split; [by right|]. done.
  - destruct (decide (b = c)) as [->|Hne].
    + right. exists c. intros x Hx. apply elem_of_cons in Hx as [->|Hx]; [done|].
      by apply Hc.
    + left. exists b, b'. split; [by left|]. split; [right; by left|].
      rewrite (Hc b') by (by left). done.
Qed.

Lemma all_equal_repeat (B : list byte) b :
  (∀ x, x ∈ B → x = b) → B = repeat b (length B).
Proof.
  induction B as [|x B IH]; intros H; [done|].
  cbn [length repeat]. rewrite (H x) by (by left). f_equal.
  apply IH. intros y Hy. apply H. by right.
Qed.

Lemma length_bound_of_occurrences (B : list byte) :
  (∀ b, Z.of_nat (occurrences B b) < 2 ^ 32) → Z.of_nat (length B) * 256 < 2 ^ 63.
Proof.
  intros Hocc.
  pose proof (length_le_occurrences B (Z.to_nat (2 ^ 32 - 1))) as Hle.
  assert (length B ≤ 256 * Z.to_nat (2 ^ 32 - 1))%nat as Hle'.
  { apply Hle. intros b. specialize (Hocc b). lia. }
  lia.
Qed.

(** The blob of a file with two distinct bytes is decoded to the file. *)
Lemma blob_decodes rngT rngH rngD B root :
  range_ok rngT → range_ok rngH → range_ok rngD →
  (∃ b1 b2, b1 ∈ B ∧ b2 ∈ B ∧ b1 ≠ b2) →
  (∀ b, Z.of_nat (occurrences B b) < 2 ^ 32) →
  buildHuffmanTree rngT (buildFrequencyTable B) = Ret root →
  HuffmanDecompress rngD
    (writeHeader rngH (buildFrequencyTable B)
     ++ le_bytes 8 (wrap_u64 (encodeDataWithCount B (generateCodes root EmptyString ∅)).2)
     ++ (encodeDataWithCount B (generateCodes root EmptyString ∅)).1) = Ret B.
Proof.
  intros HrT HrH HrD (b1 & b2 & H1 & H2 & Hne) Hocc Hroot.
  assert (B ≠ []) as HB by (intros ->; by apply elem_of_nil in H1).
  destruct (buildHuffmanTree_spec rngT rngD (buildFrequencyTable B) HrT HrD
              (buildFrequencyTable_nonempty B HB)) as (t & Ht1 & Ht2 & Hwf & Hl).
  assert (t = root) as -> by congruence.
  pose proof (elem_of_leaves_of_data rngT B root Hroot Hl) as Hin.
  assert (NoDup (leaves root)) as Hnd.
  { rewrite Hl. apply NoDup_fst_map_to_list. }
  destruct (decode_encoded root B Hwf Hnd
              ltac:(exists b1, b2; auto) Hin (length_bound_of_occurrences B Hocc))
    as [Htb Hdec].
  cbv zeta in Htb, Hdec.
  assert (wrap_u64 (encodeDataWithCount B (generateCodes root EmptyString ∅)).2
          = (encodeDataWithCount B (generateCodes root EmptyString ∅)).2) as ->
    by (unfold wrap_u64; apply Z.mod_small; lia).
  rewrite HuffmanDecompress_framed by (done || lia).
  rewrite fmap_wrap_u32_id by (by apply buildFrequencyTable_u32).
  rewrite Ht2. cbn [mbind result_bind].
  rewrite (wf_tree_not_nil root Hwf). exact Hdec.
Qed.

(** X23. Compression loses nothing, not even on the files of a single
    repeated byte that [HuffmanDecompress] does not give back: two files
    in which every byte value occurs fewer than 2^32 times and for which
    [HuffmanCompress] returns the same blob, under any orders of
    iteration, are the same file. *)
Theorem compress_injective fs rngT1 rngH1 rngT2 rngH2 path1 path2 B1 B2 blob :
  range_ok rngT1 → range_ok rngH1 → range_ok rngT2 → range_ok rngH2 →
  fs path1 = Some B1 → fs path2 = Some B2 →
  (∀ b, Z.of_nat (occurrences B1 b) < 2 ^ 32) →
  (∀ b, Z.of_nat (occurrences B2 b) < 2 ^ 32) →
  HuffmanCompress fs rngT1 rngH1 path1 = Ret blob →
  HuffmanCompress fs rngT2 rngH2 path2 = Ret blob →
  B1 = B2.
Proof.
  intros HT1 HH1 HT2 HH2 Hfs1 Hfs2 Hocc1 Hocc2 Hc1 Hc2.
  assert (B1 ≠ []) as Hne1.
  { intros ->. unfold HuffmanCompress in Hc1. by rewrite Hfs1 in Hc1. }
  assert (B2 ≠ []) as Hne2.
  { intros ->. unfold HuffmanCompress in Hc2. by rewrite Hfs2 in Hc2. }
  destruct (HuffmanCompress_Ret fs rngT1 rngH1 path1 B1 HT1 Hfs1 Hne1)
    as (root1 & Hroot1 & _ & _ & E1).
  destruct (HuffmanCompress_Ret fs rngT2 rngH2 path2 B2 HT2 Hfs2 Hne2)
    as (root2 & Hroot2 & _ & _ & E2).
  cbv zeta in E1, E2. rewrite Hc1 in E1. rewrite Hc2 in E2.
  assert (∀ a b : list byte, @Ret (list byte) a = Ret b → a = b) as HRet
    by (intros a b' [= ->]; done).
  apply HRet in E1, E2. clear HRet.
  assert (buildFrequencyTable B1 = buildFrequencyTable B2) as Htab.
  { pose proof (read_header_writeHeader rngH1 (buildFrequencyTable B1)
                  (le_bytes 8 (wrap_u64 (encodeDataWithCount B1
                     (generateCodes root1 EmptyString ∅)).2)
                   ++ (encodeDataWithCount B1 (generateCodes root1 EmptyString ∅)).1) HH1) as R1.
    pose proof (read_header_writeHeader rngH2 (buildFrequencyTable B2)
                  (le_bytes 8 (wrap_u64 (encodeDataWithCount B2
                     (generateCodes root2 EmptyString ∅)).2)
                   ++ (encodeDataWithCount B2 (generateCodes root2 EmptyString ∅)).1) HH2) as R2.
    rewrite <- E1 in R1. rewrite <- E2 in R2. rewrite R1 in R2.
    injection R2 as R2 _.
    rewrite !fmap_wrap_u32_id in R2 by (by apply buildFrequencyTable_u32). done. }
  assert (∀ x, x ∈ B1 ↔ x ∈ B2) as Hdom.
  { intros x. by rewrite <- !buildFrequencyTable_dom, Htab. }
  destruct (one_or_two_bytes B1 Hne1) as [(b1 & b2 & H1 & H2 & Hd)|[b Hb]].
  - pose proof (blob_decodes rngT1 rngH1 rngT1 B1 root1 HT1 HH1 HT1
                  ltac:(exists b1, b2; auto) Hocc1 Hroot1) as D1.
    pose proof (blob_decodes rngT2 rngH2 rngT1 B2 root2 HT2 HH2 HT1
                  ltac:(exists b1, b2; rewrite <- !Hdom; auto) Hocc2 Hroot2) as D2.
    rewrite <- E1 in D1. rewrite <- E2 in D2. congruence.
  - rewrite (all_equal_repeat B1 b Hb).
    rewrite (all_equal_repeat B2 b) by (intros x Hx; apply Hb; by apply Hdom).
    f_equal.
    pose proof (length_bound_of_occurrences B1 Hocc1).
    pose proof (length_bound_of_occurrences B2 Hocc2).
    destruct (buildFrequencyTable_total_aux B1 ltac:(lia)) as [T1 _].
    destruct (buildFrequencyTable_total_aux B2 ltac:(lia)) as [T2 _].
    rewrite Htab in T1. lia.
Qed.

Lemma compress_injective_witness : sample = sample.
Proof.
  apply (compress_injective (one_file sample) range_fwd range_fwd range_bwd range_fwd
           "a" "b" sample sample sample_blob).
  - exact range_fwd_ok.
  - exact range_fwd_ok.
  - exact range_bwd_ok.
  - exact range_fwd_ok.
  - reflexivity.
  - reflexivity.
  - intros b. pose proof (occurrences_le_length sample b) as H.
    change (length sample) with 15%nat in H. lia.
  - intros b. pose proof (occurrences_le_length sample b) as H.
    change (length sample) with 15%nat in H. lia.
  - vm_compute. reflexivity.
  - vm_compute. reflexivity.
Defined.

(** ** Decoding what was compressed *)

(** X24. [HuffmanDecompress] neither panics nor fails on a blob made by
    [HuffmanCompress] from a file of less than 2^55 bytes, also when the
    file holds a single byte value or when a count does not fit the 32
    bits of its header field: it returns some output. *)
Theorem decompress_of_compressed_returns fs rngT rngH rngD path data :
  range_ok rngT → range_ok rngH → range_ok rngD →
  fs path = Some data → data ≠ [] →
  Z.of_nat (length data) * 256 < 2 ^ 63 →
  ∃ blob out,
    HuffmanCompress fs rngT rngH path = Ret blob ∧
    HuffmanDecompress rngD blob = Ret out.
Proof.
  intros HrT HrH HrD Hfs Hne Hlen.
  destruct (HuffmanCompress_Ret fs rngT rngH path data HrT Hfs Hne)
    as (root & Hroot & Hwf & Hl & Hc).
  cbv zeta in Hc.
  match type of Hc with _ = Ret ?b =>
    exists b; cut (∃ out, HuffmanDecompress rngD b = Ret out);
      [intros [out Hout]; exists out; by split|]
  end.
  clear Hc.
  set (freq := buildFrequencyTable data) in *.
  set (codeMap := generateCodes root EmptyString ∅).
  assert (freq ≠ ∅) as Hne' by (by apply buildFrequencyTable_nonempty).
  assert (NoDup (leaves root)) as Hnd.
  { rewrite Hl. apply NoDup_fst_map_to_list. }
  assert (length (leaves root) = size freq) as Hsz.
  { by rewrite Hl, length_fmap, length_map_to_list. }
  pose proof (size_byte_map freq) as H256.
  assert (code_lengths codeMap data ≤ length data * 255)%nat as Hub.
  { apply code_lengths_le. intros b _.
    destruct (codeMap !! b) as [s|] eqn:E; cbn [default from_option id]; [|simpl; lia].
    apply generateCodes_lookup in E; [|done..].
    pose proof (paths_length root b s Hwf E).
    change (String.length (id s)) with (String.length s). lia. }
  destruct (encode_total_length data codeMap) as (Etb & Elen); [lia|].
  rewrite Etb. unfold wrap_u64. rewrite Z.mod_small by lia.
  rewrite HuffmanDecompress_framed by (done || lia).
  assert (size (wrap_u32 <$> freq) = size freq) as Hsz' by apply map_size_fmap.
  destruct (decide (size freq = 1)%nat) as [H1|H1].
  - (* a single symbol: every code is empty and no bit is written *)
    assert (code_lengths codeMap data = 0)%nat as ->.
    { assert (code_lengths codeMap data ≤ length data * 0)%nat; [|lia].
      apply code_lengths_le. intros b _.
      destruct (codeMap !! b) as [s|] eqn:E; cbn [default from_option id]; [|simpl; lia].
      apply generateCodes_lookup in E; [|done..].
      pose proof (paths_length root b s Hwf E).
      change (String.length (id s)) with (String.length s). lia. }
    assert (wrap_u32 <$> freq ≠ ∅) as Hne''.
    { intros E. apply (f_equal size) in E. rewrite Hsz', map_size_empty in E. lia. }
    destruct (buildHuffmanTree_spec rngD rngD _ HrD HrD Hne'') as (t & -> & _ & Hwt & _).
    cbn [mbind result_bind]. rewrite (wf_tree_not_nil _ Hwt).
    exists []. by destruct (encodeDataWithCount data codeMap).1.
  - assert (1 < size (wrap_u32 <$> freq))%nat as H2.
    { rewrite Hsz'. apply map_size_non_empty_iff in Hne'. lia. }
    destruct (root_inside rngD _ HrD H2) as (t & -> & Hnil & Hin & _).
    cbn [mbind result_bind]. rewrite Hnil.
    rewrite decode_loop_walk by lia. cbv zeta. rewrite Z.sub_0_r, Nat2Z.id.
    destruct (decide (code_lengths codeMap data
                      ≤ 8 * length (encodeDataWithCount data codeMap).1)%nat) as [_|Hn].
    + destruct (walk_inside t (take (code_lengths codeMap data)
                                 (unpack (encodeDataWithCount data codeMap).1))
                  t [] Hin Hin (Forall_nil_2 _)) as (node' & out' & -> & _).
      cbn [mbind result_bind]. by exists out'.
    + exfalso. apply Hn. rewrite Elen.
      pose proof (Nat.div_mod_eq (code_lengths codeMap data + 7) 8).
      pose proof (Nat.mod_upper_bound (code_lengths codeMap data + 7) 8). lia.
Qed.

Lemma decompress_of_compressed_returns_witness :
  ∃ blob out,
    HuffmanCompress (one_file [x41; x41; x41]) range_fwd range_fwd "in" = Ret blob ∧
    HuffmanDecompress range_bwd blob = Ret out.
Proof.
  apply (decompress_of_compressed_returns (one_file [x41; x41; x41])
           range_fwd range_fwd range_bwd "in" [x41; x41; x41]).
  - exact range_fwd_ok.
  - exact range_fwd_ok.
  - exact range_bwd_ok.
  - reflexivity.
  - discriminate.
  - vm_compute. reflexivity.
Defined.

(** ** The panics of the decoder *)

(** X25. With a table of two entries or more the decoder never
    dereferences a nil child; when the bit count of the blob exceeds the
    bits of its packed section, every bit present is decoded and the read
    of the byte after the last one panics with an index out of range: no
    error is returned. *)
Theorem exhausted_bits_index_panic rng blob (freq : gmap byte Z) r tb d :
  range_ok rng →
  read_header blob = Ret (freq, r) → binary_Read 8 r = Some (tb, d) →
  (1 < size freq)%nat → 8 * Z.of_nat (length d) < tb →
  HuffmanDecompress rng blob = Panic IndexOutOfRange.
Proof.
  intros Hr Hh Hb Hsz Htb.
  destruct (header_frame blob freq r tb d Hh Hb) as (Hrange & h & -> & Hd).
  rewrite Hd.
  destruct (root_inside rng freq Hr Hsz) as (root & -> & Hnil & Hin & _).
  cbn [mbind result_bind]. rewrite Hnil.
  rewrite decode_loop_walk by lia. cbv zeta. rewrite Z.sub_0_r.
  destruct (decide (Z.to_nat tb ≤ 8 * length d)%nat) as [Hn|_]; [lia|].
  destruct (walk_inside root (unpack d) root [] Hin Hin (Forall_nil_2 _))
    as (node' & out' & -> & _).
  reflexivity.
Qed.

Lemma exhausted_bits_index_panic_witness :
  HuffmanDecompress range_fwd (take 39 sample_blob) = Panic IndexOutOfRange.
Proof.
  apply (exhausted_bits_index_panic range_fwd (take 39 sample_blob)
           (buildFrequencyTable sample) (drop 27 (take 39 sample_blob)) 33
           (drop 35 (take 39 sample_blob))).
  - exact range_fwd_ok.
  - reflexivity.
  - reflexivity.
  - vm_compute. lia.
  - vm_compute. reflexivity.
Defined.

Lemma map_size_1_singleton (freq : gmap byte Z) :
  size freq = 1%nat → ∃ b f, freq = {[b := f]}.
Proof.
  intros Hsz. rewrite <- length_map_to_list in Hsz.
  destruct (map_to_list freq) as [|[b f] [|? ?]] eqn:E; try done.
  exists b, f. rewrite <- (list_to_map_to_list freq), E. cbn [list_to_map foldr].
  by rewrite insert_empty.
Qed.

(** X26. A blob whose header parses to a table of exactly one entry and
    whose bit count is not 0 makes the decoder panic: the root is a leaf,
    the first bit moves to a nil child and the test of its children
    dereferences nil; when the blob has no packed byte at all the read of
    the first one is out of range. *)
Theorem single_entry_table_panics rng blob (freq : gmap byte Z) r tb d :
  range_ok rng →
  read_header blob = Ret (freq, r) → binary_Read 8 r = Some (tb, d) →
  size freq = 1%nat → 0 < tb →
  HuffmanDecompress rng blob =
    Panic (match d with [] => IndexOutOfRange | _ => NilDereference end).
Proof.
  intros Hr Hh Hb Hsz Htb.
  destruct (map_size_1_singleton freq Hsz) as (b & f & ->).
  by apply (single_entry_decode_panics rng blob b f r tb d).
Qed.

Lemma single_entry_table_panics_witness :
  HuffmanDecompress range_fwd
    [x01; x00; x41; x03; x00; x00; x00;
     x03; x00; x00; x00; x00; x00; x00; x00; x00]
  = Panic NilDereference.
Proof.
  apply (single_entry_table_panics range_fwd
           [x01; x00; x41; x03; x00; x00; x00;
            x03; x00; x00; x00; x00; x00; x00; x00; x00]
           {[x41 := 3]} [x03; x00; x00; x00; x00; x00; x00; x00; x00] 3 [x00]).
  - exact range_fwd_ok.
  - reflexivity.
  - reflexivity.
  - reflexivity.
  - lia.
Defined.

(** ** Files of one byte value *)

(** X27. A file made of one byte value repeated, fewer than 2^63 times,
    is compressed to 15 bytes: an entry count of 1, the byte, the low 32
    bits of the number of repetitions, a bit count of 0 and no packed
    byte. [HuffmanDecompress] of that blob returns the empty output: the
    content of such a file does not come back. *)
Theorem single_symbol_file_lost fs rngT rngH rngD path b (n : nat) :
  range_ok rngT → range_ok rngH → range_ok rngD →
  fs path = Some (repeat b (S n)) → Z.of_nat (S n) < 2 ^ 63 →
  HuffmanCompress fs rngT rngH path =
    Ret ([x01; x00; b] ++ le_bytes 4 (wrap_u32 (Z.of_nat (S n))) ++ repeat x00 8) ∧
  HuffmanDecompress rngD
    ([x01; x00; b] ++ le_bytes 4 (wrap_u32 (Z.of_nat (S n))) ++ repeat x00 8) = Ret [].
Proof.
  intros HrT HrH HrD Hfs Hn.
  assert (∀ x, x ∈ repeat b (S n) → x = b) as Hall.
  { intros x Hx. apply list_elem_of_In in Hx. by apply repeat_spec in Hx. }
  destruct (single_symbol_lost fs rngT rngH rngD path (repeat b (S n)) b
              HrT HrH HrD Hfs ltac:(done) Hall) as (f & blob & Hroot & Hcode & Hc & Hd).
  destruct (HuffmanCompress_Ret fs rngT rngH path (repeat b (S n)) HrT Hfs ltac:(done))
    as (root & Hroot' & _ & _ & Hc').
  assert (root = mkNode b f b Nil Nil) as -> by congruence.
  cbv zeta in Hc'.
  rewrite buildFrequencyTable_repeat in Hc' by lia.
  rewrite encode_empty_codes in Hc'.
  2:{ intros x Hx. rewrite (Hall x Hx). unfold code_of. by rewrite Hcode. }
  assert (rngH {[b := Z.of_nat (S n)]} = [(b, Z.of_nat (S n))]) as Hrng.
  { apply Permutation_singleton_r. rewrite (HrH _). by rewrite map_to_list_singleton. }
  rewrite writeHeader_eq, Hrng, map_size_singleton in Hc'.
  split; [exact Hc'|]. rewrite Hc in Hc'.
  assert (∀ a c : list byte, @Ret (list byte) a = Ret c → a = c) as HRet
    by (intros a c [= ->]; done).
  apply HRet in Hc'. subst blob. exact Hd.
Qed.

Lemma single_symbol_file_lost_witness :
  HuffmanCompress (one_file (repeat x41 3)) range_fwd range_bwd "in" =
    Ret ([x01; x00; x41] ++ le_bytes 4 (wrap_u32 (Z.of_nat 3)) ++ repeat x00 8) ∧
  HuffmanDecompress range_fwd
    ([x01; x00; x41] ++ le_bytes 4 (wrap_u32 (Z.of_nat 3)) ++ repeat x00 8) = Ret [].
Proof.
  apply (single_symbol_file_lost (one_file (repeat x41 3)) range_fwd range_bwd range_fwd
           "in" x41 2).
  - exact range_fwd_ok.
  - exact range_bwd_ok.
  - exact range_fwd_ok.
  - reflexivity.
  - vm_compute. reflexivity.
Defined.

(** ** The counts in the header *)

(** X28. The header keeps the low 32 bits of each count. For a file of
    fewer than 2^63 bytes that is not empty, the table read back from the
    header of the blob of [HuffmanCompress] has an entry for exactly the
    bytes of the file, and the count of each is its number of occurrences
    modulo 2^32. *)
Theorem header_counts_mod_2_32 fs rngT rngH path B :
  range_ok rngT → range_ok rngH → fs path = Some B → B ≠ [] →
  Z.of_nat (length B) < 2 ^ 63 →
  ∃ blob freq r,
    HuffmanCompress fs rngT rngH path = Ret blob ∧
    read_header blob = Ret (freq, r) ∧
    ∀ b, freq !! b =
         if (occurrences B b =? 0)%nat then None
         else Some (Z.of_nat (occurrences B b) mod 2 ^ 32).
Proof.
  intros HrT HrH Hfs Hne Hlen.
  destruct (header_read_back fs rngT rngH path B HrT HrH Hfs Hne) as (blob & r & Hc & Hh).
  exists blob, (wrap_u32 <$> buildFrequencyTable B), r.
  split; [done|]. split; [done|]. intros b.
  rewrite lookup_fmap, buildFrequencyTable_lookup.
  - by destruct (occurrences B b =? 0)%nat.
  - intros b'. pose proof (occurrences_le_length B b'). lia.
Qed.

Lemma header_counts_mod_2_32_witness :
  ∃ blob freq r,
    HuffmanCompress (one_file sample) range_fwd range_bwd "in" = Ret blob ∧
    read_header blob = Ret (freq, r) ∧
    ∀ b, freq !! b =
         if (occurrences sample b =? 0)%nat then None
         else Some (Z.of_nat (occurrences sample b) mod 2 ^ 32).
Proof.
  apply (header_counts_mod_2_32 (one_file sample) range_fwd range_bwd "in" sample).
  - exact range_fwd_ok.
  - exact range_bwd_ok.
  - reflexivity.
  - discriminate.
  - vm_compute. reflexivity.
Defined.

(** ** The test of the package *)




(** ** Code lengths and counts *)

Lemma leaf_depths_node c f m l r d :
  is_nil l = false ∨ is_nil r = false →
  leaf_depths (mkNode c f m l r) d = leaf_depths l (S d) ++ leaf_depths r (S d).
Proof. intros [H|H]; destruct l, r; done. Qed.

Lemma relabel_is_nil σ t : is_nil (relabel σ t) = is_nil t.
Proof. destruct t as [|c f m [|] [|]]; done. Qed.

Lemma relabel_node σ c f m l r :
  is_nil l = false ∨ is_nil r = false →
  relabel σ (mkNode c f m l r) = mkNode c f m (relabel σ l) (relabel σ r).
Proof. intros [H|H]; destruct l, r; done. Qed.

Lemma leaf_depths_relabel σ t : ∀ d,
  leaf_depths (relabel σ t) d = map (λ e, (σ e.1, e.2)) (leaf_depths t d).
Proof.
  induction t as [|c f m l IHl r IHr]; intros d; [done|].
  destruct (is_nil l) eqn:El; [destruct (is_nil r) eqn:Er|].
  - destruct l, r; try done. cbn. by destruct (σ (c, f)).
  - rewrite relabel_node, !leaf_depths_node by (rewrite ?relabel_is_nil; auto).
    by rewrite map_app, IHl, IHr.
  - rewrite relabel_node, !leaf_depths_node by (rewrite ?relabel_is_nil; auto).
    by rewrite map_app, IHl, IHr.
Qed.

Lemma leaf_depths_fst t : ∀ d, (leaf_depths t d).*1 = leaf_entries t.
Proof.
  induction t as [|c f m l IHl r IHr]; intros d; [done|].
  destruct (is_nil l) eqn:El; [destruct (is_nil r) eqn:Er|].
  - destruct l, r; done.
  - rewrite leaf_entries_node, leaf_depths_node by auto.
    by rewrite fmap_app, IHl, IHr.
  - rewrite leaf_entries_node, leaf_depths_node by auto.
    by rewrite fmap_app, IHl, IHr.
Qed.

Lemma leaf_depths_depths t : ∀ d,
  map (λ e : byte * Z * nat, (e.1.2, e.2)) (leaf_depths t d) = depths t d.
Proof.
  induction t as [|c f m l IHl r IHr]; intros d; [done|].
  destruct (is_nil l) eqn:El; [destruct (is_nil r) eqn:Er|].
  - destruct l, r; done.
  - rewrite depths_node, leaf_depths_node by auto.
    by rewrite map_app, IHl, IHr.
  - rewrite depths_node, leaf_depths_node by auto.
    by rewrite map_app, IHl, IHr.
Qed.

Lemma leaf_depths_paths t : wf_tree t → ∀ d c f k,
  (c, f, k) ∈ leaf_depths t d →
  ∃ s, (c, s) ∈ paths t ∧ k = (d + String.length s)%nat.
Proof.
  induction 1 as [c0 f0|c0 f0 m l r Hl IHl Hr IHr]; intros d c f k Hin.
  - apply list_elem_of_singleton in Hin. injection Hin as -> -> ->.
    exists EmptyString. split; [by left|]. simpl. lia.
  - rewrite leaf_depths_node in Hin by (left; by apply wf_tree_not_nil).
    rewrite paths_internal by done.
    apply elem_of_app in Hin as [Hin|Hin].
    + destruct (IHl _ _ _ _ Hin) as (s & Hs & ->).
      exists (String "0" s). split; [|simpl; lia].
      apply elem_of_app. left. apply list_elem_of_fmap. by exists (c, s).
    + destruct (IHr _ _ _ _ Hin) as (s & Hs & ->).
      exists (String "1" s). split; [|simpl; lia].
      apply elem_of_app. right. apply list_elem_of_fmap. by exists (c, s).
Qed.

Lemma pick_entry (L : list (byte * Z * nat)) (e : byte * Z) :
  e ∈ L.*1 → ∃ k L', L ≡ₚ (e, k) :: L'.
Proof.
  intros Hin. apply list_elem_of_fmap in Hin as ([e' k] & -> & Hin).
  apply elem_of_Permutation in Hin as [L' HL']. by exists k, L'.
Qed.

(** X30. A byte with a larger count never gets a longer code: when no
    count of the table is negative and the counts add up to less than
    2^63, of two symbols of the table the one with the strictly larger
    count has a code at most as long as the code of the other. *)
Theorem frequent_bytes_get_short_codes rng (freq : gmap byte Z) a b fa fb :
  range_ok rng →
  map_Forall (λ _ f, 0 ≤ f) freq → table_total freq < 2 ^ 63 →
  freq !! a = Some fa → freq !! b = Some fb → fb < fa →
  ∃ root ca cb,
    buildHuffmanTree rng freq = Ret root ∧
    generateCodes root EmptyString ∅ !! a = Some ca ∧
    generateCodes root EmptyString ∅ !! b = Some cb ∧
    (String.length ca ≤ String.length cb)%nat.
Proof.
  intros Hr Hnn Htot Ha Hb Hlt.
  assert (freq ≠ ∅) as Hne by (intros ->; by rewrite lookup_empty in Ha).
  assert (a ≠ b) as Hab by (intros ->; rewrite Ha in Hb; injection Hb; lia).
  destruct (optimal_depth_cost rng freq Hr Hne Hnn Htot) as (t & Ht & Hopt).
  destruct (buildHuffmanTree_built rng freq Hr Hne) as (t' & Ht' & Hbt & Hle).
  assert (t' = t) as -> by congruence.
  pose proof (built_wf _ Hbt) as Hwf.
  assert (NoDup (leaves t)) as Hnd.
  { rewrite <- leaf_entries_leaves, Hle. apply NoDup_fst_map_to_list. }
  set (L := leaf_depths t 0).
  assert (L.*1 ≡ₚ map_to_list freq) as HL by (unfold L; by rewrite leaf_depths_fst).
  destruct (pick_entry L (a, fa)) as (da & L1 & HL1).
  { rewrite HL. by apply elem_of_map_to_list. }
  destruct (pick_entry L1 (b, fb)) as (db & L2 & HL2).
  { assert ((b, fb) ∈ L.*1) as Hin by (rewrite HL; by apply elem_of_map_to_list).
    rewrite HL1, fmap_cons in Hin. apply elem_of_cons in Hin as [Hin|Hin]; [|done].
    injection Hin as -> ->. lia. }
  assert (L ≡ₚ (a, fa, da) :: (b, fb, db) :: L2) as HL12 by (by rewrite HL1, HL2).
  assert (NoDup (a :: b :: L2.*1.*1)) as Hnd2.
  { assert (L.*1.*1 ≡ₚ a :: b :: L2.*1.*1) as <- by (by rewrite HL12).
    unfold L. rewrite leaf_depths_fst, leaf_entries_leaves. done. }
  apply NoDup_cons in Hnd2 as [Ha2 Hnd2]. apply NoDup_cons in Hnd2 as [Hb2 _].
  apply not_elem_of_cons in Ha2 as [_ Ha2].
  set (σ := exchange a fa b fb).
  assert (map (λ e : byte * Z * nat, (σ e.1, e.2)) L2 = L2) as Hfix.
  { rewrite <- (map_id L2) at 2. apply map_ext_in. intros [[c f] k] Hin.
    apply list_elem_of_In in Hin. cbn [fst snd]. f_equal.
    unfold σ, exchange. cbn [fst].
    assert (c ∈ L2.*1.*1) as Hc.
    { apply list_elem_of_fmap. exists (c, f). split; [done|].
      apply list_elem_of_fmap. by exists (c, f, k). }
    destruct (decide (c = a)) as [->|_]; [done|].
    destruct (decide (c = b)) as [->|_]; done. }
  assert (leaf_depths (relabel σ t) 0 ≡ₚ (b, fb, da) :: (a, fa, db) :: L2) as Hother.
  { rewrite leaf_depths_relabel. fold L. rewrite HL12. cbn [map fst snd].
    rewrite Hfix. unfold σ, exchange. cbn [fst].
    rewrite decide_True by done. rewrite (decide_False (P := b = a)) by done.
    by rewrite decide_True by done. }
  destruct (tree_depth_cost freq (relabel σ t) Hne Hnn) as (P & HP1 & HP2 & HP3).
  { rewrite <- (leaf_depths_fst _ 0), Hother, <- HL, HL12, !fmap_cons. cbn [fst].
    apply Permutation_swap. }
  specialize (Hopt P HP1 HP2).
  assert (weighted_length t
          = fa * Z.of_nat da + (fb * Z.of_nat db
            + cost (map (λ e : byte * Z * nat, (e.1.2, e.2)) L2))) as E1.
  { unfold weighted_length. rewrite <- leaf_depths_depths. fold L.
    rewrite (cost_perm _ (map (λ e : byte * Z * nat, (e.1.2, e.2))
                             ((a, fa, da) :: (b, fb, db) :: L2))); [done|].
    by rewrite HL12. }
  assert (weighted_length (relabel σ t)
          = fb * Z.of_nat da + (fa * Z.of_nat db
            + cost (map (λ e : byte * Z * nat, (e.1.2, e.2)) L2))) as E2.
  { unfold weighted_length. rewrite <- leaf_depths_depths.
    rewrite (cost_perm _ (map (λ e : byte * Z * nat, (e.1.2, e.2))
                             ((b, fb, da) :: (a, fa, db) :: L2))); [done|].
    by rewrite Hother. }
  assert (da ≤ db)%nat as Hd by nia.
  destruct (leaf_depths_paths t Hwf 0 a fa da) as (sa & Hsa & Eda).
  { fold L. rewrite HL12. by left. }
  destruct (leaf_depths_paths t Hwf 0 b fb db) as (sb & Hsb & Edb).
  { fold L. rewrite HL12. right. by left. }
  exists t, sa, sb. split; [done|].
  split; [by apply generateCodes_lookup|]. split; [by apply generateCodes_lookup|].
  lia.
Qed.

Lemma frequent_bytes_get_short_codes_witness :
  ∃ root ca cb,
    buildHuffmanTree range_fwd (buildFrequencyTable sample) = Ret root ∧
    generateCodes root EmptyString ∅ !! "a"%byte = Some ca ∧
    generateCodes root EmptyString ∅ !! "e"%byte = Some cb ∧
    (String.length ca ≤ String.length cb)%nat.
Proof.
  apply (frequent_bytes_get_short_codes range_fwd (buildFrequencyTable sample)
           "a" "e" 5 1).
  - exact range_fwd_ok.
  - destruct (buildFrequencyTable_total_aux sample ltac:(vm_compute; reflexivity)) as [_ H].
    intros b v Hv. specialize (H b v Hv). simpl in H. lia.
  - reflexivity.
  - reflexivity.
  - reflexivity.
  - lia.
Defined.
